(** * mico: permission engine, retry governor, stream assembler and agent loop

    A shallow embedding of the orchestration core of the agent
    ([src/permission.py], [src/llm/openai.py], [src/errors.py],
    [src/session.py], [src/loop.py]) together with the properties of its
    specification, and of what these lean on ([src/models.py],
    [src/tools/base.py], [src/llm/__init__.py]) with further properties of
    the code.

    Conventions of the embedding.
    - A Python [str] is a Rocq [string]; one [ascii] stands for one code
      point below 256.
    - A [dict] whose iteration order is observed (the [tool_calls] of a step,
      a decoded JSON object) is an association list in insertion order.
    - Mutable objects live in an explicit [World]; an exception is a value of
      [Exn] returned next to the world it leaves behind, because every
      mutation made before a [raise] stays visible to the handlers.
    - Console output, logging, timestamps and the edit preview do not feed
      back into the session or the permission state and are left out.
    - What the environment does is given beforehand: the answers of the
      user by the number of the prompt, the provider by the streams of its
      successive calls, a tool by the program it runs.  A cancellation
      reaches the code as the [CancelledError] with which a stream or a tool
      ends; [abort] is not called from outside while a turn runs. *)

From Stdlib Require Import List String Ascii Bool Arith ZArith Lia.
From Stdlib Require Import QArith Qminmax Qround Qpower.
From Stdlib Require Import Permutation Sorted DecimalString OrderedTypeEx.
Import ListNotations.
Close Scope Q_scope.
Close Scope Z_scope.
Local Open Scope nat_scope.
Local Open Scope string_scope.
Local Open Scope list_scope.

Set Implicit Arguments.
#[local] Set Warnings "-register-all".

(* ------------------------------------------------------------------ *)
(** ** Python string primitives *)

Module Py.

(** [needle in hay] for strings. *)
Fixpoint contains (needle hay : string) : bool :=
  if String.prefix needle hay then true
  else match hay with
       | EmptyString => false
       | String _ hay' => contains needle hay'
       end.

(** [c.lower()] on one code point: the ASCII letters and the Latin-1
    capitals U+00C0..U+00DE (except the multiplication sign U+00D7). *)
Definition lower_ascii (c : ascii) : ascii :=
  let n := nat_of_ascii c in
  if ((65 <=? n) && (n <=? 90))%nat then ascii_of_nat (n + 32)
  else if ((192 <=? n) && (n <=? 222) && negb (n =? 215))%nat
       then ascii_of_nat (n + 32)
  else c.

(** [s.lower()] *)
Fixpoint lower (s : string) : string :=
  match s with
  | EmptyString => EmptyString
  | String c s' => String (lower_ascii c) (lower s')
  end.

(** [any(keyword in text for keyword in keywords)] *)
Definition any_in (keywords : list string) (text : string) : bool :=
  existsb (fun keyword => contains keyword text) keywords.

(** [s[:n]] *)
Fixpoint take (n : nat) (s : string) : string :=
  match n, s with
  | S k, String c s' => String c (take k s')
  | _, _ => EmptyString
  end.

End Py.

(* ------------------------------------------------------------------ *)
(** ** [fnmatch.fnmatch] (POSIX, where [os.path.normcase] is the identity)

    [translate] turns a shell pattern into a regular expression made of
    one-character matchers and stars; the embedding keeps that token list
    and matches it against the whole name, which is the language of the
    regular expression [(?s:...)\Z] the library compiles. *)

Module Fnmatch.

Inductive ClassItem : Type :=
| CChar (c : ascii)
| CRange (lo hi : ascii).

Inductive Token : Type :=
| STAR                                   (* [*]  *)
| ANY                                    (* [?] and the negated empty set *)
| LIT (c : ascii)                        (* [re.escape(c)] *)
| NEVER                                  (* [(?!)]: the empty set *)
| CLASS (negated : bool) (items : list ClassItem).

Definition ascii_leb (a b : ascii) : bool :=
  (nat_of_ascii a <=? nat_of_ascii b)%nat.

Definition item_matches (ch : ascii) (it : ClassItem) : bool :=
  match it with
  | CChar c => Ascii.eqb c ch
  | CRange lo hi => ascii_leb lo ch && ascii_leb ch hi
  end.

Definition token_matches (t : Token) (ch : ascii) : bool :=
  match t with
  | STAR => true
  | ANY => true
  | LIT c => Ascii.eqb c ch
  | NEVER => false
  | CLASS negated items =>
      xorb negated (existsb (item_matches ch) items)
  end.

(** First occurrence of [c]: the text before it and the text after it. *)
Fixpoint break_at (c : ascii) (l : list ascii)
  : option (list ascii * list ascii) :=
  match l with
  | [] => None
  | x :: l' =>
      if Ascii.eqb x c then Some ([], l')
      else match break_at c l' with
           | Some (before, after) => Some (x :: before, after)
           | None => None
           end
  end.

(** The scan for the closing bracket: [j = i], skip one ["!"], skip one
    ["]"], then advance to the next ["]"].  [p] is [pat[i:]]; the result
    is [pat[i:j]] and [pat[j+1:]], or [None] when [j >= n]. *)
Definition split_bracket (p : list ascii)
  : option (list ascii * list ascii) :=
  let '(pre1, p1) :=
    match p with
    | "!"%char :: t => (["!"%char], t)
    | _ => ([], p)
    end in
  let '(pre2, p2) :=
    match p1 with
    | "]"%char :: t => (["]"%char], t)
    | _ => ([], p1)
    end in
  match break_at "]"%char p2 with
  | Some (mid, rest) => Some (pre1 ++ pre2 ++ mid, rest)
  | None => None
  end.

(** The [while True] loop cutting [stuff] at hyphens: the first [skip]
    characters of a chunk are never cut ([k = i+1] or [i+2] at first,
    [k+3] against the new [i = k+1] afterwards). *)
Fixpoint split_chunks (skip : nat) (cur r : list ascii)
  : list (list ascii) :=
  match r with
  | [] => [cur]
  | c :: r' =>
      match skip with
      | S sk => split_chunks sk (cur ++ [c]) r'
      | O =>
          if Ascii.eqb c "-"%char then cur :: split_chunks 2 [] r'
          else split_chunks 0 (cur ++ [c]) r'
      end
  end.

(** [if chunk: chunks.append(chunk) else: chunks[-1] += '-'] *)
Fixpoint close_chunks (chunks : list (list ascii)) : list (list ascii) :=
  match chunks with
  | [] => []
  | [c] => [c]
  | [c; []] => [c ++ ["-"%char]]
  | c :: rest => c :: close_chunks rest
  end.

(** [for k in range(len(chunks)-1, 0, -1)]: a range whose lower end is
    above its upper end is dropped and its two chunks are glued. *)
Fixpoint remove_empty_ranges (chunks : list (list ascii))
  : list (list ascii) :=
  match chunks with
  | [] => []
  | c :: rest =>
      match remove_empty_ranges rest with
      | [] => [c]
      | d :: rest' =>
          match rev c, d with
          | hi :: _, lo :: d' =>
              if negb (ascii_leb hi lo)
              then (removelast c ++ d') :: rest'
              else c :: d :: rest'
          | _, _ => c :: d :: rest'
          end
      end
  end.

(** The members of the set written by ['-'.join(chunks)]: the last
    character of a chunk and the first of the next one bound a range,
    every other character (hyphens inside a chunk are escaped) stands for
    itself. [used] tells that the head of the first chunk was the upper
    end of the previous range. *)
Fixpoint class_items (used : bool) (chunks : list (list ascii))
  : list ClassItem :=
  match chunks with
  | [] => []
  | c :: rest =>
      let body := if used then tl c else c in
      match rest with
      | [] => map CChar body
      | d :: _ =>
          match rev body, d with
          | lo :: _, hi :: _ =>
              map CChar (removelast body) ++ CRange lo hi
                :: class_items true rest
          | _, _ =>
              map CChar body ++ CChar "-"%char :: class_items false rest
          end
      end
  end.

Definition has_hyphen (stuff : list ascii) : bool :=
  existsb (Ascii.eqb "-"%char) stuff.

Definition chunks_of (stuff : list ascii) : list (list ascii) :=
  if has_hyphen stuff then
    let skip := match stuff with "!"%char :: _ => 2 | _ => 1 end in
    remove_empty_ranges (close_chunks (split_chunks skip [] stuff))
  else [stuff].

(** What [translate] adds for [pat[i:j]] between brackets. *)
Definition bracket_token (stuff : list ascii) : Token :=
  match chunks_of stuff with
  | [] | [[]] => NEVER
  | ["!"%char :: []] => ANY
  | ("!"%char :: c) :: rest => CLASS true (class_items false (c :: rest))
  | chunks => CLASS false (class_items false chunks)
  end.

(** The main loop of [translate]; [skip] characters are already consumed
    ([i = j+1] after a bracket expression). *)
Fixpoint translate_from (skip : nat) (pat : list ascii) : list Token :=
  match pat with
  | [] => []
  | c :: rest =>
      match skip with
      | S k => translate_from k rest
      | O =>
          if Ascii.eqb c "*"%char then STAR :: translate_from 0 rest
          else if Ascii.eqb c "?"%char then ANY :: translate_from 0 rest
          else if Ascii.eqb c "["%char then
            match split_bracket rest with
            | None => LIT "["%char :: translate_from 0 rest
            | Some (stuff, _) =>
                bracket_token stuff
                  :: translate_from (S (List.length stuff)) rest
            end
          else LIT c :: translate_from 0 rest
      end
  end.

(** Consecutive stars are added once. *)
Fixpoint compress (ts : list Token) : list Token :=
  match ts with
  | STAR :: ((STAR :: _) as ts') => compress ts'
  | t :: ts' => t :: compress ts'
  | [] => []
  end.

Definition translate (pat : string) : list Token :=
  compress (translate_from 0 (list_ascii_of_string pat)).

Fixpoint match_tokens (ts : list Token) : list ascii -> bool :=
  match ts with
  | [] => fun s => match s with [] => true | _ => false end
  | STAR :: ts' =>
      fix star (s : list ascii) : bool :=
        match_tokens ts' s
        || match s with
           | [] => false
           | _ :: s' => star s'
           end
  | t :: ts' =>
      fun s =>
        match s with
        | [] => false
        | ch :: s' => token_matches t ch && match_tokens ts' s'
        end
  end.

Definition fnmatchcase (name pat : string) : bool :=
  match_tokens (translate pat) (list_ascii_of_string name).

Definition fnmatch (name pat : string) : bool := fnmatchcase name pat.

End Fnmatch.

(* ------------------------------------------------------------------ *)
(** ** [src/models.py]: permission rules *)

Inductive PermissionAction : Type := ALLOW | DENY | ASK.

Record PermissionRule : Type := mkRule {
  permission : string;
  pattern : string;
  action : PermissionAction
}.

Definition PermissionAction_eqb (a b : PermissionAction) : bool :=
  match a, b with
  | ALLOW, ALLOW | DENY, DENY | ASK, ASK => true
  | _, _ => false
  end.

(* ------------------------------------------------------------------ *)
(** ** [src/permission.py] *)

Module Permission.

(** [PermissionManager._match] *)
Definition _match (value pattern : string) : bool :=
  if String.eqb pattern "*" then true
  else Fnmatch.fnmatch value pattern.

(** The condition of the [if] inside [evaluate]'s loop. *)
Definition rule_applies (permission0 pattern0 : string)
           (rule : PermissionRule) : bool :=
  _match permission0 (permission rule) && _match pattern0 (pattern rule).

(** [for rule in ...: if ...: return rule.action]; [None] when the loop
    runs to its end. *)
Fixpoint scan (permission0 pattern0 : string)
         (rules : list PermissionRule) : option PermissionAction :=
  match rules with
  | [] => None
  | rule :: rules' =>
      if rule_applies permission0 pattern0 rule then Some (action rule)
      else scan permission0 pattern0 rules'
  end.

(** [PermissionManager.evaluate] on [self.rules] and [self.approved]. *)
Definition evaluate (rules approved : list PermissionRule)
           (permission0 pattern0 : string) : PermissionAction :=
  let all_rules := rules ++ approved in
  match scan permission0 pattern0 (rev all_rules) with
  | Some a => a
  | None => ASK
  end.

(** [DEFAULT_RULES] *)
Definition DEFAULT_RULES : list PermissionRule :=
  [ mkRule "*" "*" ALLOW;
    mkRule "bash" "rm *" ASK;
    mkRule "bash" "sudo *" ASK;
    mkRule "edit" "*.env" ASK;
    mkRule "edit" "*.env.*" ASK;
    mkRule "doom_loop" "*" ASK ].

End Permission.

(* ------------------------------------------------------------------ *)
(** ** JSON values and [json.dumps]

    What [json.loads] returns for the argument text of a tool call.
    Numbers are the integers; a JSON object is a [dict], so the keys of a
    [JObj] are pairwise distinct and kept in insertion order. *)

Module Json.

Inductive json : Type :=
| JNull
| JBool (b : bool)
| JInt (n : Z)
| JStr (s : string)
| JArr (elems : list json)
| JObj (items : list (string * json)).

(** [bool(v)] *)
Definition truthy (v : json) : bool :=
  match v with
  | JNull => false
  | JBool b => b
  | JInt n => negb (Z.eqb n 0)
  | JStr s => negb (String.eqb s "")
  | JArr elems => match elems with [] => false | _ => true end
  | JObj items => match items with [] => false | _ => true end
  end.

(** [type(v).__name__] *)
Definition type_name (v : json) : string :=
  match v with
  | JNull => "NoneType"
  | JBool _ => "bool"
  | JInt _ => "int"
  | JStr _ => "str"
  | JArr _ => "list"
  | JObj _ => "dict"
  end.

(** [d.get(key)] on the items of a dict. *)
Fixpoint lookup (key : string) (items : list (string * json))
  : option json :=
  match items with
  | [] => None
  | (k, v) :: items' =>
      if String.eqb k key then Some v else lookup key items'
  end.

Definition hex_digit (n : nat) : ascii :=
  (if n <? 10 then ascii_of_nat (48 + n) else ascii_of_nat (87 + n))%nat.

(** One code point under [ensure_ascii=True]: everything outside
    [' '..'~'], the quote and the backslash are escaped. *)
Definition escape_char (c : ascii) : string :=
  let n := nat_of_ascii c in
  if Ascii.eqb c "\"%char then "\\"
  else if (n =? 34)%nat then String "\"%char (String (ascii_of_nat 34) "")
  else if (n =? 10)%nat then "\n"
  else if (n =? 13)%nat then "\r"
  else if (n =? 9)%nat then "\t"
  else if (n =? 8)%nat then "\b"
  else if (n =? 12)%nat then "\f"
  else if ((32 <=? n) && (n <=? 126))%nat then String c ""
  else "\u00" ++ String (hex_digit (n / 16)) (String (hex_digit (n mod 16)) "").

Fixpoint escape (s : string) : string :=
  match s with
  | EmptyString => EmptyString
  | String c s' => escape_char c ++ escape s'
  end.

Definition quote : string := String (ascii_of_nat 34) "".

(** [py_encode_basestring_ascii] *)
Definition encode_string (s : string) : string :=
  quote ++ escape s ++ quote.

(** [int.__repr__] *)
Definition encode_int (n : Z) : string :=
  NilZero.string_of_int (Z.to_int n).

(** [", ".join(parts)] *)
Fixpoint join (sep : string) (parts : list string) : string :=
  match parts with
  | [] => ""
  | [p] => p
  | p :: parts' => p ++ sep ++ join sep parts'
  end.

(** [str.__lt__]-ordering of keys, as [sorted(dct.items())] uses it on a
    dict (whose keys are distinct, so values are never compared). *)
Definition key_leb (a b : string) : bool := String.leb a b.

Fixpoint insert_sorted (kv : string * string)
         (l : list (string * string)) : list (string * string) :=
  match l with
  | [] => [kv]
  | kv' :: l' =>
      if key_leb (fst kv) (fst kv') then kv :: l
      else kv' :: insert_sorted kv l'
  end.

Fixpoint sort_items (l : list (string * string))
  : list (string * string) :=
  match l with
  | [] => []
  | kv :: l' => insert_sorted kv (sort_items l')
  end.

Definition encode_item (kv : string * string) : string :=
  encode_string (fst kv) ++ ": " ++ snd kv.

(** [json.dumps(v, sort_keys=True)] with the default separators. *)
Fixpoint dumps_sorted (v : json) : string :=
  match v with
  | JNull => "null"
  | JBool true => "true"
  | JBool false => "false"
  | JInt n => encode_int n
  | JStr s => encode_string s
  | JArr elems => "[" ++ join ", " (map dumps_sorted elems) ++ "]"
  | JObj items =>
      "{" ++ join ", "
               (map encode_item
                  (sort_items
                     (map (fun kv => (fst kv, dumps_sorted (snd kv)))
                          items)))
          ++ "}"
  end.

End Json.
Export Json(json, JNull, JBool, JInt, JStr, JArr, JObj).

(* ------------------------------------------------------------------ *)
(** ** [json.loads] on the integer fragment of JSON

    The loop is stated for an arbitrary decoder.  This one covers objects,
    arrays, strings with the one-letter escapes, integers and the three
    literals, which is all the scenarios below need; texts with fractions,
    exponents or [\u] escapes are outside the fragment. *)

Module JsonText.

Inductive token : Type :=
| TLBrace | TRBrace | TLBracket | TRBracket | TColon | TComma
| TString (s : string)
| TNumber (n : Z)
| TTrue | TFalse | TNull.

Definition is_digit (c : ascii) : bool :=
  let n := nat_of_ascii c in ((48 <=? n) && (n <=? 57))%nat.

Definition is_space (c : ascii) : bool :=
  let n := nat_of_ascii c in
  ((n =? 32) || (n =? 9) || (n =? 10) || (n =? 13))%nat.

(** The digits at the head of the text, as a number, and the rest. *)
Fixpoint lex_digits (cs : list ascii) (acc : Z) : Z * list ascii :=
  match cs with
  | c :: cs' =>
      if is_digit c
      then lex_digits cs' (10 * acc + Z.of_nat (nat_of_ascii c - 48))%Z
      else (acc, cs)
  | [] => (acc, cs)
  end.

(** The character an escape stands for; [\u] is outside the fragment. *)
Definition unescape (c : ascii) : option ascii :=
  let n := nat_of_ascii c in
  if (n =? 34)%nat then Some c
  else if Ascii.eqb c "\"%char then Some c
  else if Ascii.eqb c "/"%char then Some c
  else if Ascii.eqb c "b"%char then Some (ascii_of_nat 8)
  else if Ascii.eqb c "f"%char then Some (ascii_of_nat 12)
  else if Ascii.eqb c "n"%char then Some (ascii_of_nat 10)
  else if Ascii.eqb c "r"%char then Some (ascii_of_nat 13)
  else if Ascii.eqb c "t"%char then Some (ascii_of_nat 9)
  else None.

(** The text of a string up to its closing quote, and the rest. *)
Fixpoint lex_string (cs : list ascii) (acc : string)
  : option (string * list ascii) :=
  match cs with
  | [] => None
  | c :: cs' =>
      if (nat_of_ascii c =? 34)%nat then Some (acc, cs')
      else if Ascii.eqb c "\"%char then
        match cs' with
        | e :: cs'' =>
            match unescape e with
            | Some ch => lex_string cs'' (acc ++ String ch "")%string
            | None => None
            end
        | [] => None
        end
      else if (nat_of_ascii c <? 32)%nat then None
      else lex_string cs' (acc ++ String c "")%string
  end.

Fixpoint strip (prefix : list ascii) (cs : list ascii)
  : option (list ascii) :=
  match prefix, cs with
  | [], _ => Some cs
  | p :: prefix', c :: cs' =>
      if Ascii.eqb p c then strip prefix' cs' else None
  | _ :: _, [] => None
  end.

Definition after_number (cs : list ascii) : bool :=
  match cs with
  | c :: _ =>
      negb (Ascii.eqb c "."%char || Ascii.eqb c "e"%char
            || Ascii.eqb c "E"%char)
  | [] => true
  end.

(** An integer without a superfluous leading zero. *)
Definition lex_number (cs : list ascii) : option (Z * list ascii) :=
  match cs with
  | c :: cs' =>
      if negb (is_digit c) then None
      else if Ascii.eqb c "0"%char then
        match cs' with
        | d :: _ => if is_digit d then None
                    else if after_number cs' then Some (0%Z, cs') else None
        | [] => Some (0%Z, [])
        end
      else
        let '(n, rest) := lex_digits cs 0 in
        if after_number rest then Some (n, rest) else None
  | [] => None
  end.

Definition cons_token (t : token) (ts : option (list token))
  : option (list token) :=
  match ts with
  | Some ts' => Some (t :: ts')
  | None => None
  end.

Fixpoint lex (fuel : nat) (cs : list ascii) : option (list token) :=
  match fuel with
  | O => None
  | S fuel' =>
      match cs with
      | [] => Some []
      | c :: cs' =>
          if is_space c then lex fuel' cs'
          else if Ascii.eqb c "{"%char then cons_token TLBrace (lex fuel' cs')
          else if Ascii.eqb c "}"%char then cons_token TRBrace (lex fuel' cs')
          else if Ascii.eqb c "["%char
               then cons_token TLBracket (lex fuel' cs')
          else if Ascii.eqb c "]"%char
               then cons_token TRBracket (lex fuel' cs')
          else if Ascii.eqb c ":"%char then cons_token TColon (lex fuel' cs')
          else if Ascii.eqb c ","%char then cons_token TComma (lex fuel' cs')
          else if (nat_of_ascii c =? 34)%nat then
            match lex_string cs' "" with
            | Some (s, rest) => cons_token (TString s) (lex fuel' rest)
            | None => None
            end
          else if Ascii.eqb c "-"%char then
            match lex_number cs' with
            | Some (n, rest) => cons_token (TNumber (- n)) (lex fuel' rest)
            | None => None
            end
          else if is_digit c then
            match lex_number cs with
            | Some (n, rest) => cons_token (TNumber n) (lex fuel' rest)
            | None => None
            end
          else
            match strip (list_ascii_of_string "true") cs,
                  strip (list_ascii_of_string "false") cs,
                  strip (list_ascii_of_string "null") cs with
            | Some rest, _, _ => cons_token TTrue (lex fuel' rest)
            | _, Some rest, _ => cons_token TFalse (lex fuel' rest)
            | _, _, Some rest => cons_token TNull (lex fuel' rest)
            | _, _, _ => None
            end
      end
  end.

(** [d[key] = v] on the items of a dict. *)
Fixpoint dict_put (key : string) (v : json) (items : list (string * json))
  : list (string * json) :=
  match items with
  | [] => [(key, v)]
  | (k, x) :: items' =>
      if String.eqb k key then (k, v) :: items'
      else (k, x) :: dict_put key v items'
  end.

Fixpoint parse_value (fuel : nat) (ts : list token)
  : option (json * list token) :=
  match fuel with
  | O => None
  | S fuel' =>
      match ts with
      | TString s :: rest => Some (JStr s, rest)
      | TNumber n :: rest => Some (JInt n, rest)
      | TTrue :: rest => Some (JBool true, rest)
      | TFalse :: rest => Some (JBool false, rest)
      | TNull :: rest => Some (JNull, rest)
      | TLBracket :: TRBracket :: rest => Some (JArr [], rest)
      | TLBracket :: rest => parse_elements fuel' rest []
      | TLBrace :: TRBrace :: rest => Some (JObj [], rest)
      | TLBrace :: rest => parse_members fuel' rest []
      | _ => None
      end
  end
with parse_elements (fuel : nat) (ts : list token) (acc : list json)
  : option (json * list token) :=
  match fuel with
  | O => None
  | S fuel' =>
      match parse_value fuel' ts with
      | Some (v, TComma :: rest) => parse_elements fuel' rest (acc ++ [v])
      | Some (v, TRBracket :: rest) => Some (JArr (acc ++ [v]), rest)
      | _ => None
      end
  end
with parse_members (fuel : nat) (ts : list token)
                   (acc : list (string * json))
  : option (json * list token) :=
  match fuel with
  | O => None
  | S fuel' =>
      match ts with
      | TString key :: TColon :: rest =>
          match parse_value fuel' rest with
          | Some (v, TComma :: rest') =>
              parse_members fuel' rest' (dict_put key v acc)
          | Some (v, TRBrace :: rest') =>
              Some (JObj (dict_put key v acc), rest')
          | _ => None
          end
      | _ => None
      end
  end.

(** [json.loads] on the integer fragment of JSON: [None] stands for
    [JSONDecodeError]. *)
Definition loads (text : string) : option json :=
  match lex (S (String.length text)) (list_ascii_of_string text) with
  | Some ts =>
      match parse_value (2 * List.length ts + 2) ts with
      | Some (v, []) => Some v
      | _ => None
      end
  | None => None
  end.

End JsonText.

(* ------------------------------------------------------------------ *)
(** ** [src/models.py]: tool calls, message parts, messages

    Message identifiers, agent and model names and timestamps are not read
    by the functions embedded below and are left out. *)

Inductive ToolState : Type := PENDING | RUNNING | COMPLETED | ERROR.

Record ToolCall : Type := mkToolCall {
  tc_id : string;
  tc_tool_name : string;
  tc_input : json;
  tc_state : ToolState;
  tc_output : option string;
  tc_error : option string;
  (** the attribute [_args_str] that [_process_stream] attaches to the
      object while the stream runs; [None] when [hasattr] is false *)
  tc_args_str : option string
}.

Inductive MessagePart : Type :=
| TextPart (text : string) (synthetic : bool)
| ToolPart (tool_call : ToolCall)
| ReasoningPart (text : string).

Record Tokens : Type := mkTokens {
  tok_input : Z;
  tok_output : Z;
  tok_total : Z
}.

Record AssistantMessage : Type := mkAssistant {
  am_parts : list MessagePart;
  am_finish_reason : option string;
  am_error : option string;
  am_tokens : Tokens;
  am_completed : bool          (* [completed_at is not None] *)
}.

Inductive Message : Type :=
| UserMessage (parts : list MessagePart)
| AssistantMsg (m : AssistantMessage).

(** [msg.role] *)
Definition role (m : Message) : string :=
  match m with
  | UserMessage _ => "user"
  | AssistantMsg _ => "assistant"
  end.

(** [msg.parts] *)
Definition parts_of (m : Message) : list MessagePart :=
  match m with
  | UserMessage parts => parts
  | AssistantMsg a => am_parts a
  end.

(* ------------------------------------------------------------------ *)
(** ** Exceptions and the world the loop mutates *)

Inductive Exn : Type :=
| PermissionDeniedError (msg : string)
| PermissionRejectedError (msg : string)
| CancelledError                          (* [asyncio.CancelledError] *)
| Exception_ (cls msg : string).          (* any other [Exception] *)

(** [str(e)] *)
Definition exn_str (e : Exn) : string :=
  match e with
  | PermissionDeniedError msg => msg
  | PermissionRejectedError msg => msg
  | CancelledError => ""
  | Exception_ _ msg => msg
  end.

Inductive Result (A : Type) : Type :=
| Ok (a : A)
| Raise (e : Exn).
Arguments Ok {A} a.
Arguments Raise {A} e.

(** The answers of [Prompt.ask] in [_default_ask]. *)
Inductive Response : Type := Yes | No | Always.

(** The answers of [Prompt.ask] after a failed model call. *)
Inductive LLMChoice : Type := ChooseRetry | ChooseSkip | ChooseAbort.

(** The state of a [PermissionManager] and of the user in front of it:
    [pm_prompts] counts the calls of the interactive callback so far. *)
Record PermissionManager : Type := mkPM {
  pm_rules : list PermissionRule;
  pm_approved : list PermissionRule;
  pm_prompts : nat
}.

Record World : Type := mkWorld {
  w_messages : list Message;          (* [session.messages] *)
  w_permission : PermissionManager;   (* [self.permission] *)
  w_aborted : bool;                   (* [self.aborted] *)
  w_llm_prompts : nat;                (* failure prompts answered so far *)
  (** calls of [tool.execute], oldest first: call id, tool name, input *)
  w_executed : list (string * string * json)
}.

Definition set_messages (ms : list Message) (w : World) : World :=
  mkWorld ms (w_permission w) (w_aborted w) (w_llm_prompts w) (w_executed w).

Definition set_permission (pm : PermissionManager) (w : World) : World :=
  mkWorld (w_messages w) pm (w_aborted w) (w_llm_prompts w) (w_executed w).

Definition set_aborted (b : bool) (w : World) : World :=
  mkWorld (w_messages w) (w_permission w) b (w_llm_prompts w) (w_executed w).

Definition count_llm_prompt (w : World) : World :=
  mkWorld (w_messages w) (w_permission w) (w_aborted w)
          (S (w_llm_prompts w)) (w_executed w).

Definition log_executed (entry : string * string * json) (w : World)
  : World :=
  mkWorld (w_messages w) (w_permission w) (w_aborted w) (w_llm_prompts w)
          (w_executed w ++ [entry]).

(* ------------------------------------------------------------------ *)
(** ** [src/permission.py]: [_default_ask] and [check] *)

Module PermissionCheck.
Import Permission.

Section WithUser.

(** What the user types at the [k]-th permission prompt of the session,
    shown [permission] and [pattern]. *)
Variable user : nat -> string -> string -> Response.

(** [PermissionManager._default_ask] *)
Definition _default_ask (permission0 pattern0 : string)
           (pm : PermissionManager) : bool * PermissionManager :=
  let response := user (pm_prompts pm) permission0 pattern0 in
  let asked := S (pm_prompts pm) in
  match response with
  | Always =>
      (true,
       mkPM (pm_rules pm)
            (pm_approved pm ++ [mkRule permission0 pattern0 ALLOW])
            asked)
  | Yes => (true, mkPM (pm_rules pm) (pm_approved pm) asked)
  | No => (false, mkPM (pm_rules pm) (pm_approved pm) asked)
  end.

(** [PermissionManager.check], with [_default_ask] as the callback. *)
Fixpoint check (permission0 : string) (patterns : list string)
         (pm : PermissionManager) : Result unit * PermissionManager :=
  match patterns with
  | [] => (Ok tt, pm)
  | pattern0 :: patterns' =>
      match evaluate (pm_rules pm) (pm_approved pm)
                     permission0 pattern0 with
      | DENY =>
          (Raise (PermissionDeniedError
                    ("Permission '" ++ permission0
                       ++ "' denied for pattern '" ++ pattern0 ++ "'")),
           pm)
      | ASK =>
          let '(allowed, pm') := _default_ask permission0 pattern0 pm in
          if allowed then check permission0 patterns' pm'
          else
            (Raise (PermissionRejectedError
                      ("User rejected permission '" ++ permission0
                         ++ "' for '" ++ pattern0 ++ "'")),
             pm')
      | ALLOW => check permission0 patterns' pm
      end
  end.

End WithUser.

End PermissionCheck.

(* ------------------------------------------------------------------ *)
(** ** [src/llm/base.py] *)

(** [StreamChunk]; [tool_args] is never read and is left out. *)
Record StreamChunk : Type := mkChunk {
  ch_type : string;
  ch_content : option string;
  ch_tool_call_id : option string;
  ch_tool_name : option string;
  ch_tool_args_delta : option string;
  ch_finish_reason : option string;
  ch_usage : option (list (string * Z));
  ch_error : option string
}.

Definition chunk (type : string) : StreamChunk :=
  mkChunk type None None None None None None None.

Definition text_chunk (content : string) : StreamChunk :=
  mkChunk "text" (Some content) None None None None None None.

Definition tool_call_chunk (id name : option string) : StreamChunk :=
  mkChunk "tool_call" None id name None None None None.

Definition tool_call_delta_chunk (id delta : option string) : StreamChunk :=
  mkChunk "tool_call_delta" None id None delta None None None.

Definition finish_chunk (reason : option string)
           (usage : option (list (string * Z))) : StreamChunk :=
  mkChunk "finish" None None None None reason usage None.

Definition error_chunk (message : string) : StreamChunk :=
  mkChunk "error" None None None None None None (Some message).

(** [LLMConfig]; the delays are exact rationals, in seconds. *)
Record LLMConfig : Type := mkLLMConfig {
  timeout : Q;
  connect_timeout : Q;
  max_retries : Z;
  retry_delay : Q
}.

Definition DEFAULT_LLM_CONFIG : LLMConfig :=
  mkLLMConfig 120 30 3 1.

(* ------------------------------------------------------------------ *)
(** ** [src/errors.py]: [RetryConfig] and the delay of [retry_async] *)

Record RetryConfig : Type := mkRetryConfig {
  rc_max_retries : Z;
  initial_delay : Q;
  max_delay : Q;
  exponential_base : Q
}.

Definition DEFAULT_RETRY_CONFIG : RetryConfig :=
  mkRetryConfig 3 1 60 2.

(** [min(a, b)] and [max(a, b)] of Python: the first argument wins ties. *)
Definition py_min (a b : Q) : Q := if Qle_bool a b then a else b.
Definition py_max (a b : Q) : Q := if Qle_bool b a then a else b.

(** The delay computed in [retry_async] before its [attempt]-th retry;
    [retry_after] is [e.retry_after] of an [LLMRateLimitError], else
    [None]. A zero [retry_after] is falsy. *)
Definition retry_async_delay (config : RetryConfig) (attempt : nat)
           (retry_after : option Q) : Q :=
  match retry_after with
  | Some after =>
      if Qeq_bool after 0
      then py_min (initial_delay config
                     * exponential_base config ^ Z.of_nat attempt)
                  (max_delay config)
      else after
  | None =>
      py_min (initial_delay config
                * exponential_base config ^ Z.of_nat attempt)
             (max_delay config)
  end%Q.

(* ------------------------------------------------------------------ *)
(** ** [src/llm/openai.py]: [OpenAIProvider.stream]

    The SDK is the environment: for every attempt it either fails to
    connect in time, or hands out raw chunks, each with the event-loop time
    at which the [async for] receives it, and then ends, fails or is
    cancelled. *)

Module OpenAI.

Record RawFunction : Type := mkRawFunction {
  fn_name : option string;
  fn_arguments : option string
}.

Record RawToolCall : Type := mkRawToolCall {
  rtc_id : option string;
  rtc_function : option RawFunction
}.

Record RawDelta : Type := mkRawDelta {
  delta_content : option string;
  delta_tool_calls : list RawToolCall
}.

(** [chunk.choices[0]] *)
Record RawChoice : Type := mkRawChoice {
  choice_delta : option RawDelta;
  choice_finish_reason : option string
}.

Record RawChunk : Type := mkRawChunk {
  raw_choice : option RawChoice;       (* [None]: [chunk.choices] empty *)
  raw_usage : option (list (string * Z))
}.

Inductive Ending : Type :=
| EndOfStream
| EndTimeout                          (* [asyncio.TimeoutError] *)
| EndCancelled                        (* [asyncio.CancelledError] *)
| EndException (cls msg : string).

Inductive Attempt : Type :=
| ConnectTimeout
| Streaming (start : Q) (events : list (Q * RawChunk)) (ending : Ending).

(** What [stream] does, in order: it starts an attempt, yields a chunk
    to its consumer, or sleeps. *)
Inductive Out : Type :=
| Connect (attempt : nat)
| Yield (c : StreamChunk)
| Sleep (delay : Q).

Inductive Outcome : Type :=
| Returned
| Cancelled.

(** The messages of the error chunks (f-strings with text outside
    Latin-1 and [:.1f] formatting, which the loop only prints). *)
Inductive Note : Type :=
| IdleTimeoutNote
| ConnectTimeoutNote (limit : Q)
| ConnectRetryNote (attempt : nat) (delay : Q)
| RetryNote (cls last_error : string) (attempt : nat) (delay : Q)
| FatalNote (cls last_error : string)
| GiveUpNote (retries : Z) (last_error : option string).

Definition RETRY_KEYWORDS : list string :=
  ["timeout"; "connection"; "network"; "rate"; "429";
   "500"; "502"; "503"; "504"; "overloaded"].

(** [any(keyword in error_lower for keyword in [...])] *)
Definition retryable (last_error : string) : bool :=
  Py.any_in RETRY_KEYWORDS (Py.lower last_error).

(** ["rate" in error_lower or "429" in last_error] *)
Definition rate_limited (last_error : string) : bool :=
  Py.contains "rate" (Py.lower last_error)
  || Py.contains "429" last_error.

(** [self.config.retry_delay * (2 ** attempt)] *)
Definition base_delay (config : LLMConfig) (attempt : nat) : Q :=
  (retry_delay config * 2 ^ Z.of_nat attempt)%Q.

(** The delay slept after the failure [last_error] of [attempt] in the
    [except Exception] branch. *)
Definition backoff_delay (config : LLMConfig) (last_error : string)
           (attempt : nat) : Q :=
  let delay := base_delay config attempt in
  if rate_limited last_error then py_max delay 10 else delay.

(** Truthiness of an optional string. *)
Definition nonempty (s : option string) : bool :=
  match s with
  | Some s' => negb (String.eqb s' "")
  | None => false
  end.

(** The body of [for tc in delta.tool_calls]; [keys] are the keys of
    [current_tool_calls] in insertion order. *)
Definition emit_tool_call (keys : list string) (tc : RawToolCall)
  : list StreamChunk * list string :=
  let tc_id :=
    match keys with
    | [] => None
    | _ => if nonempty (rtc_id tc) then rtc_id tc
           else Some (last keys "")
    end in
  let '(registered, keys') :=
    match rtc_id tc with
    | Some id =>
        if negb (String.eqb id "") then
          ([tool_call_chunk (Some id)
              (match rtc_function tc with
               | Some f => fn_name f
               | None => None
               end)],
           if existsb (String.eqb id) keys then keys else keys ++ [id])
        else ([], keys)
    | None => ([], keys)
    end in
  let delta :=
    match rtc_function tc with
    | Some f =>
        if nonempty (fn_arguments f)
        then [tool_call_delta_chunk tc_id (fn_arguments f)]
        else []
    | None => []
    end in
  (registered ++ delta, keys').

Fixpoint emit_tool_calls (keys : list string) (tcs : list RawToolCall)
  : list StreamChunk * list string :=
  match tcs with
  | [] => ([], keys)
  | tc :: tcs' =>
      let '(out1, keys1) := emit_tool_call keys tc in
      let '(out2, keys2) := emit_tool_calls keys1 tcs' in
      (out1 ++ out2, keys2)
  end.

(** [usage] of the finish chunk. *)
Definition unify_usage (raw : option (list (string * Z)))
  : option (list (string * Z)) :=
  match raw with
  | None => None
  | Some fields =>
      let get key :=
        match find (fun kv => String.eqb (fst kv) key) fields with
        | Some kv => snd kv
        | None => 0%Z
        end in
      Some [("input_tokens", get "prompt_tokens");
            ("output_tokens", get "completion_tokens");
            ("total_tokens", get "total_tokens")]
  end.

(** How the [async for] over one response is left. *)
Inductive Leave : Type :=
| LeaveReturn                       (* a [return] inside the loop *)
| LeaveEnd (e : Ending).            (* the iterator ended or raised *)

Section WithNotes.

Variable render : Note -> string.

(** [async for chunk in stream: ...] *)
Fixpoint consume (last_chunk_time : Q) (keys : list string)
         (events : list (Q * RawChunk)) (ending : Ending)
  : list Out * Leave :=
  match events with
  | [] => ([], LeaveEnd ending)
  | (current_time, raw) :: events' =>
      if negb (Qle_bool (current_time - last_chunk_time) 60) then
        ([Yield (error_chunk (render IdleTimeoutNote))], LeaveReturn)
      else
        match raw_choice raw with
        | None => consume current_time keys events' ending
        | Some choice =>
            match choice_delta choice with
            | None => consume current_time keys events' ending
            | Some delta =>
                let text :=
                  if nonempty (delta_content delta)
                  then [Yield (mkChunk "text" (delta_content delta)
                                  None None None None None None)]
                  else [] in
                let '(calls, keys') :=
                  emit_tool_calls keys (delta_tool_calls delta) in
                let outs := text ++ map Yield calls in
                if nonempty (choice_finish_reason choice) then
                  (outs ++ [Yield (finish_chunk
                                     (choice_finish_reason choice)
                                     (unify_usage (raw_usage raw)))],
                   LeaveReturn)
                else
                  let '(rest, leave) :=
                    consume current_time keys' events' ending in
                  (outs ++ rest, leave)
            end
        end
  end.

Variable config : LLMConfig.
Variable sdk : nat -> Attempt.

Definition all_failed (last_error : option string) : list Out :=
  [Yield (error_chunk
            (render (GiveUpNote (max_retries config) last_error)));
   Yield (finish_chunk (Some "error") None)].

(** What follows an exception of the attempt body: the outputs of the
    handler and, when it ends in [continue] or falls out of the [try],
    the new [last_error]. *)
Definition handle (attempt : nat) (last_error : option string)
           (e : Ending)
  : list Out * option (option string) * Outcome :=
  match e with
  | EndOfStream => ([], Some last_error, Returned)
  | EndTimeout =>
      if (Z.of_nat attempt <? max_retries config)%Z then
        let delay := base_delay config attempt in
        ([Yield (error_chunk (render (ConnectRetryNote attempt delay)));
          Sleep delay],
         Some (Some (render (ConnectTimeoutNote (connect_timeout config)))),
         Returned)
      else
        ([],
         Some (Some (render (ConnectTimeoutNote (connect_timeout config)))),
         Returned)
  | EndCancelled => ([], None, Cancelled)
  | EndException cls msg =>
      if retryable msg && (Z.of_nat attempt <? max_retries config)%Z
      then
        let delay := backoff_delay config msg attempt in
        ([Yield (error_chunk (render (RetryNote cls msg attempt delay)));
          Sleep delay],
         Some (Some msg), Returned)
      else
        ([Yield (error_chunk (render (FatalNote cls msg)));
          Yield (finish_chunk (Some "error") None)],
         None, Returned)
  end.

(** [for attempt in range(self.config.max_retries + 1)], from
    [attempt] on, with [remaining] iterations left. *)
Fixpoint attempts (remaining attempt : nat)
         (last_error : option string) : list Out * Outcome :=
  match remaining with
  | O => (all_failed last_error, Returned)
  | S remaining' =>
      let '(outs, leave) :=
        match sdk attempt with
        | ConnectTimeout => ([], LeaveEnd EndTimeout)
        | Streaming start events ending =>
            consume start [] events ending
        end in
      match leave with
      | LeaveReturn => (Connect attempt :: outs, Returned)
      | LeaveEnd e =>
          let '(handled, next, outcome) :=
            handle attempt last_error e in
          match next with
          | None => (Connect attempt :: outs ++ handled, outcome)
          | Some last_error' =>
              let '(rest, outcome') :=
                attempts remaining' (S attempt) last_error' in
              (Connect attempt :: outs ++ handled ++ rest, outcome')
          end
      end
  end.

(** [OpenAIProvider.stream], run to its end. *)
Definition stream : list Out * Outcome :=
  attempts (Z.to_nat (max_retries config + 1)) 0 None.

End WithNotes.

End OpenAI.

(* ------------------------------------------------------------------ *)
(** ** [src/session.py]: message helpers *)

Module Session.

Definition empty_tokens : Tokens := mkTokens 0 0 0.

(** [create_user_message]: the message is appended to the session. *)
Definition create_user_message (text : string) (w : World) : World :=
  set_messages (w_messages w ++ [UserMessage [TextPart text false]]) w.

(** [create_assistant_message]; the result is the position of the new
    message in [session.messages], which stands for the object that
    [assistant_msg] and the session share. *)
Definition create_assistant_message (w : World) : nat * World :=
  (List.length (w_messages w),
   set_messages
     (w_messages w
        ++ [AssistantMsg (mkAssistant [] None None empty_tokens false)])
     w).

(** [add_text_part] *)
Fixpoint add_text (text : string) (parts : list MessagePart)
  : list MessagePart :=
  match parts with
  | [] => [TextPart text false]
  | TextPart old false :: parts' => TextPart (old ++ text) false :: parts'
  | part :: parts' => part :: add_text text parts'
  end.

Definition add_text_part (text : string) (m : AssistantMessage)
  : AssistantMessage :=
  mkAssistant (add_text text (am_parts m)) (am_finish_reason m)
              (am_error m) (am_tokens m) (am_completed m).

(** [add_tool_part] *)
Definition add_tool_part (tool_call : ToolCall) (m : AssistantMessage)
  : AssistantMessage :=
  mkAssistant (am_parts m ++ [ToolPart tool_call]) (am_finish_reason m)
              (am_error m) (am_tokens m) (am_completed m).

Definition set_state (state : ToolState) (output error : option string)
           (tc : ToolCall) : ToolCall :=
  mkToolCall (tc_id tc) (tc_tool_name tc) (tc_input tc) state output error
             (tc_args_str tc).

(** The loop of [update_tool_part]: the first tool part with the call id
    is updated. *)
Fixpoint update_parts (call_id : string) (state : ToolState)
         (output error : option string) (parts : list MessagePart)
  : list MessagePart :=
  match parts with
  | [] => []
  | ToolPart tc :: parts' =>
      if String.eqb (tc_id tc) call_id
      then ToolPart (set_state state output error tc) :: parts'
      else ToolPart tc :: update_parts call_id state output error parts'
  | part :: parts' =>
      part :: update_parts call_id state output error parts'
  end.

Definition update_tool_part (call_id : string) (state : ToolState)
           (output error : option string) (m : AssistantMessage)
  : AssistantMessage :=
  mkAssistant (update_parts call_id state output error (am_parts m))
              (am_finish_reason m) (am_error m) (am_tokens m)
              (am_completed m).

Definition set_finish_reason (reason : option string)
           (m : AssistantMessage) : AssistantMessage :=
  mkAssistant (am_parts m) reason (am_error m) (am_tokens m)
              (am_completed m).

Definition set_error (error : option string) (m : AssistantMessage)
  : AssistantMessage :=
  mkAssistant (am_parts m) (am_finish_reason m) error (am_tokens m)
              (am_completed m).

Definition set_tokens (tokens : Tokens) (m : AssistantMessage)
  : AssistantMessage :=
  mkAssistant (am_parts m) (am_finish_reason m) (am_error m) tokens
              (am_completed m).

Definition set_completed (m : AssistantMessage) : AssistantMessage :=
  mkAssistant (am_parts m) (am_finish_reason m) (am_error m)
              (am_tokens m) true.

(** A mutation of the assistant message stored at position [idx]. *)
Fixpoint modify_at (idx : nat) (f : AssistantMessage -> AssistantMessage)
         (ms : list Message) {struct ms} : list Message :=
  match ms with
  | [] => []
  | m :: ms' =>
      match idx with
      | O =>
          match m with
          | AssistantMsg a => AssistantMsg (f a) :: ms'
          | UserMessage _ => m :: ms'
          end
      | S idx' => m :: modify_at idx' f ms'
      end
  end.

Definition modify (idx : nat) (f : AssistantMessage -> AssistantMessage)
           (w : World) : World :=
  set_messages (modify_at idx f (w_messages w)) w.

(** The assistant message stored at position [idx]. *)
Definition assistant_at (idx : nat) (w : World) : option AssistantMessage :=
  match nth_error (w_messages w) idx with
  | Some (AssistantMsg m) => Some m
  | _ => None
  end.

(** The first tool part of a message with the given call id. *)
Fixpoint find_tool_part (call_id : string) (parts : list MessagePart)
  : option ToolCall :=
  match parts with
  | [] => None
  | ToolPart tc :: parts' =>
      if String.eqb (tc_id tc) call_id then Some tc
      else find_tool_part call_id parts'
  | _ :: parts' => find_tool_part call_id parts'
  end.

End Session.

(* ------------------------------------------------------------------ *)
(** ** [src/tools/base.py]: the tool boundary

    A tool is outside the core.  Towards the loop it is a program that may
    ask the context for permissions, sees what each request answers, and
    ends by returning its output or raising. *)

Inductive ToolProg : Type :=
| TReturn (output : string)
| TRaise (e : Exn)
| TAsk (permission0 : string) (patterns : list string)
       (k : Result unit -> ToolProg).

Definition Tool : Type := json -> ToolProg.

Module ToolContext.

Section WithUser.

Variable user : nat -> string -> string -> Response.

(** [ToolContext.ask_permission]; [preapproved] is [self._preapproved],
    restricted to its string members. *)
Definition ask_permission (preapproved : list (string * list string))
           (permission0 : string) (patterns : list string)
           (pm : PermissionManager) : Result unit * PermissionManager :=
  match find (fun entry => String.eqb (fst entry) permission0)
             preapproved with
  | Some entry =>
      let remaining :=
        filter (fun p => negb (existsb (String.eqb p) (snd entry)))
               patterns in
      match remaining with
      | [] => (Ok tt, pm)
      | _ => PermissionCheck.check user permission0 remaining pm
      end
  | None => PermissionCheck.check user permission0 patterns pm
  end.

(** [await tool.execute(tc.input, ctx)] *)
Fixpoint execute (preapproved : list (string * list string))
         (prog : ToolProg) (pm : PermissionManager)
  : Result string * PermissionManager :=
  match prog with
  | TReturn output => (Ok output, pm)
  | TRaise e => (Raise e, pm)
  | TAsk permission0 patterns k =>
      let '(answer, pm') :=
        ask_permission preapproved permission0 patterns pm in
      execute preapproved (k answer) pm'
  end.

End WithUser.

End ToolContext.

(* ------------------------------------------------------------------ *)
(** ** [src/loop.py] *)

Module Loop.
Import Session.

Definition DOOM_LOOP_THRESHOLD : nat := 3.

(** One call of [self.provider.stream]: the chunks it yields and how the
    iteration ends ([None]: it is exhausted; [Some e]: it raises [e]). *)
Record Stream : Type := mkStream {
  st_chunks : list StreamChunk;
  st_ending : option Exn
}.

(** The local variables of [_process_stream]. *)
Record Local : Type := mkLocal {
  current_text : string;
  tool_calls : list (string * ToolCall);
  finish_reason : option string
}.

(** How the [async for] of [_process_stream] is left. *)
Inductive LoopExit : Type :=
| Completed (l : Local)           (* exhausted, or [break] *)
| Retry (l : Local)               (* [return await self._process_stream] *)
| Raised (e : Exn) (l : Local).

(** [tool_calls[key] = tc] *)
Fixpoint dict_set (key : string) (tc : ToolCall)
         (d : list (string * ToolCall)) : list (string * ToolCall) :=
  match d with
  | [] => [(key, tc)]
  | (k, v) :: d' =>
      if String.eqb k key then (k, tc) :: d'
      else (k, v) :: dict_set key tc d'
  end.

(** [tc._args_str += delta] for [tc = tool_calls[key]] when [key in
    tool_calls]. *)
Fixpoint dict_append_args (key delta : string)
         (d : list (string * ToolCall)) : list (string * ToolCall) :=
  match d with
  | [] => []
  | (k, tc) :: d' =>
      if String.eqb k key then
        let old := match tc_args_str tc with
                   | Some s => s
                   | None => ""
                   end in
        (k, mkToolCall (tc_id tc) (tc_tool_name tc) (tc_input tc)
                       (tc_state tc) (tc_output tc) (tc_error tc)
                       (Some (old ++ delta)%string))
          :: d'
      else (k, tc) :: dict_append_args key delta d'
  end.

(** [reason == text] for an optional string. *)
Definition is_reason (reason : option string) (text : string) : bool :=
  match reason with
  | Some s => String.eqb s text
  | None => false
  end.

Definition or_empty (s : option string) : string :=
  match s with
  | Some s' => s'
  | None => ""
  end.

(** [chunk.usage.get(key, 0)] *)
Definition usage_get (key : string) (usage : list (string * Z)) : Z :=
  match find (fun kv => String.eqb (fst kv) key) usage with
  | Some kv => snd kv
  | None => 0%Z
  end.

(** The tool-specific key whose value is checked before the tool runs. *)
Definition precheck_key (tool_name : string) : option string :=
  if String.eqb tool_name "bash" then Some "command"
  else if String.eqb tool_name "edit" then Some "file_path"
  else if String.eqb tool_name "read" then Some "file_path"
  else if String.eqb tool_name "list" then Some "path"
  else if String.eqb tool_name "glob" then Some "pattern"
  else None.

Definition is_str (v : json) : bool :=
  match v with JStr _ => true | _ => false end.

(** Values that can be members of a [set]. *)
Definition hashable (v : json) : bool :=
  match v with JArr _ | JObj _ => false | _ => true end.

(** Values on which [len] is defined, and [len]. *)
Definition has_len (v : json) : bool :=
  match v with JStr _ | JArr _ | JObj _ => true | _ => false end.

Definition py_len (v : json) : nat :=
  match v with
  | JStr s => String.length s
  | JArr elems => List.length elems
  | JObj items => List.length items
  | _ => 0
  end.

(** [d.get(key, default)] *)
Definition get_or (key : string) (default : json)
           (items : list (string * json)) : json :=
  match Json.lookup key items with
  | Some v => v
  | None => default
  end.

(** The exceptions of the interpreter; their message text is not
    modelled. *)
Definition AttributeError : Exn := Exception_ "AttributeError" "".
Definition TypeError : Exn := Exception_ "TypeError" "".
Definition ValidationError : Exn := Exception_ "ValidationError" "".

(** [_format_tool_summary]: the summary is only printed, so what is kept
    is whether building it raises. *)
Definition _format_tool_summary (tc : ToolCall) : Result unit :=
  let tool_name := tc_tool_name tc in
  if existsb (String.eqb tool_name)
             ["edit"; "read"; "bash"; "glob"; "list"; "ask_user"]
  then
    match tc_input tc with
    | JObj items =>
        if String.eqb tool_name "edit" then
          let new_string := get_or "new_string" (JStr "") items in
          if Json.truthy new_string && negb (is_str new_string)
          then Raise AttributeError else Ok tt
        else if String.eqb tool_name "bash" then
          let command := get_or "command" (JStr "") items in
          if negb (has_len command) then Raise TypeError
          else if (80 <? py_len command)%nat && negb (is_str command)
               then Raise TypeError
          else Ok tt
        else if String.eqb tool_name "ask_user" then
          let questions := get_or "questions" (JArr []) items in
          if has_len questions then Ok tt else Raise TypeError
        else Ok tt
    | _ => Raise AttributeError
    end
  else Ok tt.

(** [_display_tool_result], likewise. *)
Definition _display_tool_result (tc : ToolCall) : Result unit :=
  if String.eqb (tc_tool_name tc) "edit" then
    match tc_input tc with
    | JObj items =>
        let new_string := get_or "new_string" (JStr "") items in
        if Json.truthy new_string && negb (is_str new_string)
        then Raise AttributeError
        else if negb (has_len new_string) then Raise TypeError
        else Ok tt
    | _ => Raise AttributeError
    end
  else if String.eqb (tc_tool_name tc) "read"
          || String.eqb (tc_tool_name tc) "bash" then
    match tc_input tc with
    | JObj _ => Ok tt
    | _ => Raise AttributeError
    end
  else Ok tt.

(** [_detect_doom_loop]: the inner [for part in msg.parts]. *)
Fixpoint collect_parts (parts : list MessagePart)
         (recent_calls : list (string * string)) : list (string * string) :=
  match parts with
  | [] => recent_calls
  | ToolPart tc :: parts' =>
      let recent_calls' :=
        recent_calls
          ++ [(tc_tool_name tc, Json.dumps_sorted (tc_input tc))] in
      if (DOOM_LOOP_THRESHOLD <=? List.length recent_calls')%nat
      then recent_calls'
      else collect_parts parts' recent_calls'
  | _ :: parts' => collect_parts parts' recent_calls
  end.

(** The outer [for msg in reversed(self.session.messages)], on the
    reversed list. *)
Fixpoint collect_messages (msgs : list Message)
         (recent_calls : list (string * string)) : list (string * string) :=
  match msgs with
  | [] => recent_calls
  | msg :: msgs' =>
      if negb (String.eqb (role msg) "assistant")
      then collect_messages msgs' recent_calls
      else
        let recent_calls' := collect_parts (parts_of msg) recent_calls in
        if (DOOM_LOOP_THRESHOLD <=? List.length recent_calls')%nat
        then recent_calls'
        else collect_messages msgs' recent_calls'
  end.

Definition call_eqb (a b : string * string) : bool :=
  String.eqb (fst a) (fst b) && String.eqb (snd a) (snd b).

(** [AgentLoop._detect_doom_loop] *)
Definition _detect_doom_loop (messages : list Message) : bool :=
  let recent_calls := collect_messages (rev messages) [] in
  if (List.length recent_calls <? DOOM_LOOP_THRESHOLD)%nat then false
  else
    match recent_calls with
    | [] => true
    | first :: _ => forallb (fun call => call_eqb call first) recent_calls
    end.

Section WithEnvironment.

(** The user at the permission prompts and at the prompts that follow
    a failed model call. *)
Variable user : nat -> string -> string -> Response.
Variable llm_user : nat -> LLMChoice.

(** [json.loads]: [None] when it raises. *)
Variable json_loads : string -> option json.

(** [self.tools.get] *)
Variable tools : string -> option Tool.

(** [self.permission.check(tool_name, [v], tc.input)] for a target [v]
    that is not a [str], the annotated type of a pattern: what happens
    then is up to [fnmatch] and to the validation of
    [PermissionRule]. *)
Variable check_untyped :
  string -> json -> PermissionManager -> Result unit * PermissionManager.

(** [self.agent.max_steps] *)
Variable max_steps : Z.

(** The body of the [async for] for one chunk; [idx] is
    [assistant_msg]. *)
Definition on_chunk (idx : nat) (c : StreamChunk) (l : Local) (w : World)
  : LoopExit * World :=
  if String.eqb (ch_type c) "text" then
    match ch_content c with
    | Some content =>
        (Completed (mkLocal (current_text l ++ content)%string
                            (tool_calls l) (finish_reason l)), w)
    | None => (Raised TypeError l, w)
    end
  else if String.eqb (ch_type c) "tool_call" then
    match ch_tool_call_id c, ch_tool_name c with
    | Some id, Some name =>
        (Completed
           (mkLocal (current_text l)
                    (dict_set id
                       (mkToolCall id name (JObj []) PENDING None None
                                   None)
                       (tool_calls l))
                    (finish_reason l)), w)
    | _, _ => (Raised ValidationError l, w)
    end
  else if String.eqb (ch_type c) "tool_call_delta" then
    match ch_tool_call_id c with
    | Some id =>
        (Completed
           (mkLocal (current_text l)
                    (dict_append_args id
                       (or_empty (ch_tool_args_delta c)) (tool_calls l))
                    (finish_reason l)), w)
    | None => (Completed l, w)
    end
  else if String.eqb (ch_type c) "error" then (Completed l, w)
  else if String.eqb (ch_type c) "finish" then
    let w1 :=
      match ch_usage c with
      | Some (_ :: _ as usage) =>
          modify idx
            (set_tokens (mkTokens (usage_get "input_tokens" usage)
                                  (usage_get "output_tokens" usage)
                                  (usage_get "total_tokens" usage)))
            w
      | _ => w
      end in
    let l1 := mkLocal (current_text l) (tool_calls l)
                      (ch_finish_reason c) in
    if is_reason (ch_finish_reason c) "error" then
      match llm_user (w_llm_prompts w1) with
      | ChooseRetry => (Retry l1, count_llm_prompt w1)
      | ChooseAbort =>
          (Completed (mkLocal (current_text l) (tool_calls l)
                              (Some "aborted")),
           set_aborted true (count_llm_prompt w1))
      | ChooseSkip => (Completed l1, count_llm_prompt w1)
      end
    else (Completed l1, w1)
  else (Completed l, w).

(** [async for chunk in self.provider.stream(...)] *)
Fixpoint chunk_loop (idx : nat) (chunks : list StreamChunk)
         (ending : option Exn) (l : Local) (w : World)
  : LoopExit * World :=
  match chunks with
  | [] =>
      match ending with
      | None => (Completed l, w)
      | Some e => (Raised e l, w)
      end
  | c :: chunks' =>
      if w_aborted w then (Completed l, w)
      else
        match on_chunk idx c l w with
        | (Completed l', w') => chunk_loop idx chunks' ending l' w'
        | stop => stop
        end
  end.

(** The [try: tc.input = json.loads(tc._args_str)] of the last part of
    [_process_stream], with the [delattr]. *)
Definition parse_args (tc : ToolCall) : ToolCall :=
  match tc_args_str tc with
  | Some args =>
      mkToolCall (tc_id tc) (tc_tool_name tc)
                 (match json_loads args with
                  | Some v => v
                  | None => JObj [("raw", JStr args)]
                  end)
                 (tc_state tc) (tc_output tc) (tc_error tc) None
  | None => tc
  end.

Definition parse_all (calls : list (string * ToolCall))
  : list (string * ToolCall) :=
  map (fun entry => (fst entry, parse_args (snd entry))) calls.

(** The permission check made by the loop before a tool runs, and the
    [ctx.preapprove] that follows it.  The result is
    [ctx._preapproved]. *)
Definition precheck (tc : ToolCall) (pm : PermissionManager)
  : Result (list (string * list string)) * PermissionManager :=
  match precheck_key (tc_tool_name tc) with
  | None => (Ok [], pm)
  | Some key =>
      match tc_input tc with
      | JObj items =>
          match Json.lookup key items with
          | Some (JStr target) =>
              if Json.truthy (JStr target) then
                match PermissionCheck.check user (tc_tool_name tc)
                                            [target] pm with
                | (Ok _, pm') =>
                    (Ok [(tc_tool_name tc, [target])], pm')
                | (Raise e, pm') => (Raise e, pm')
                end
              else (Ok [], pm)
          | Some v =>
              if Json.truthy v then
                match check_untyped (tc_tool_name tc) v pm with
                | (Ok _, pm') =>
                    if hashable v then (Ok [(tc_tool_name tc, [])], pm')
                    else (Raise TypeError, pm')
                | (Raise e, pm') => (Raise e, pm')
                end
              else (Ok [], pm)
          | None => (Ok [], pm)
          end
      | _ => (Raise AttributeError, pm)
      end
  end.

(** The body of the [try] in [_execute_tools]. *)
Definition try_tool (idx : nat) (tool : Tool) (call_id : string)
           (tc : ToolCall) (w : World) : Result unit * World :=
  match precheck tc (w_permission w) with
  | (Raise e, pm1) => (Raise e, set_permission pm1 w)
  | (Ok preapproved, pm1) =>
      let w1 :=
        log_executed (call_id, tc_tool_name tc, tc_input tc)
                     (set_permission pm1 w) in
      match ToolContext.execute user preapproved (tool (tc_input tc))
                                pm1 with
      | (Raise e, pm2) => (Raise e, set_permission pm2 w1)
      | (Ok output, pm2) =>
          let w2 :=
            modify idx
              (update_tool_part call_id COMPLETED (Some output) None)
              (set_permission pm2 w1) in
          (_display_tool_result tc, w2)
      end
  end.

(** [AgentLoop._execute_tools] *)
Fixpoint _execute_tools (idx : nat) (calls : list (string * ToolCall))
         (w : World) : Result unit * World :=
  match calls with
  | [] => (Ok tt, w)
  | (call_id, tc) :: calls' =>
      match tools (tc_tool_name tc) with
      | None =>
          _execute_tools idx calls'
            (modify idx
               (update_tool_part call_id ERROR None
                  (Some ("Unknown tool: " ++ tc_tool_name tc)%string))
               w)
      | Some tool =>
          match _format_tool_summary tc with
          | Raise e => (Raise e, w)
          | Ok _ =>
              let w1 :=
                modify idx (update_tool_part call_id RUNNING None None)
                       w in
              match try_tool idx tool call_id tc w1 with
              | (Ok _, w2) => _execute_tools idx calls' w2
              | (Raise CancelledError, w2) => (Raise CancelledError, w2)
              | (Raise (Exception_ cls msg), w2) =>
                  _execute_tools idx calls'
                    (modify idx
                       (update_tool_part call_id ERROR None (Some msg))
                       w2)
              | (Raise e, w2) =>
                  (Raise e,
                   modify idx
                     (update_tool_part call_id ERROR None
                        (Some (exn_str e)))
                     w2)
              end
          end
      end
  end.

Definition add_tool_parts (idx : nat) (calls : list (string * ToolCall))
           (w : World) : World :=
  fold_left (fun w' entry => modify idx (add_tool_part (snd entry)) w')
            calls w.

Definition add_text_if_any (idx : nat) (text : string) (w : World)
  : World :=
  if String.eqb text "" then w else modify idx (add_text_part text) w.

(** [_process_stream] after its [try] statement. *)
Definition after_stream (idx : nat) (l : Local) (w : World)
  : Result (option string) * World :=
  let w1 := add_text_if_any idx (current_text l) w in
  match tool_calls l with
  | [] => (Ok (finish_reason l), w1)
  | _ =>
      let calls := parse_all (tool_calls l) in
      match _execute_tools idx calls (add_tool_parts idx calls w1) with
      | (Raise e, w2) => (Raise e, w2)
      | (Ok _, w2) =>
          (Ok (if is_reason (finish_reason l) "stop"
               then Some "tool_calls"
               else finish_reason l), w2)
      end
  end.

(** [except asyncio.CancelledError] around the [async for]. *)
Definition on_cancelled (idx : nat) (l : Local) (w : World) : World :=
  add_text_if_any idx (current_text l) (set_aborted true w).

Definition start : Local := mkLocal "" [] (Some "stop").

(** [AgentLoop._process_stream].  Every call of the provider takes the
    next stream; a provider that is asked beyond the given ones yields
    nothing. *)
Fixpoint _process_stream (streams : list Stream) (idx : nat) (w : World)
  : Result (option string) * list Stream * World :=
  match streams with
  | [] =>
      let '(r, w') := after_stream idx start w in (r, [], w')
  | s :: streams' =>
      match chunk_loop idx (st_chunks s) (st_ending s) start w with
      | (Completed l, w1) =>
          let '(r, w2) := after_stream idx l w1 in (r, streams', w2)
      | (Retry l, w1) =>
          match _process_stream streams' idx w1 with
          | (Raise CancelledError, rest, w2) =>
              (Raise CancelledError, rest, on_cancelled idx l w2)
          | other => other
          end
      | (Raised CancelledError l, w1) =>
          (Raise CancelledError, streams', on_cancelled idx l w1)
      | (Raised e l, w1) => (Raise e, streams', w1)
      end
  end.

(** How [run] leaves its [while] loop. *)
Inductive Exit : Type :=
| ByReturn                     (* a [return] inside the loop *)
| ByCondition.                 (* the loop condition became false *)

Record Ran : Type := mkRan {
  ran_exit : Exit;
  ran_steps : nat;               (* the value of [step] at the end *)
  ran_result : option nat        (* [assistant_msg]; [None] is [None] *)
}.

Definition finish (idx : nat) (error : option string) (reason : string)
           (w : World) : World :=
  modify idx
    (fun m =>
       set_finish_reason (Some reason)
         (match error with
          | Some _ => set_error error m
          | None => m
          end))
    w.

(** The [except] clauses of [run]. *)
Definition on_exception (idx : nat) (e : Exn) (w : World) : World :=
  match e with
  | CancelledError =>
      modify idx set_completed (finish idx None "interrupted" w)
  | PermissionDeniedError msg => finish idx (Some msg) "error" w
  | PermissionRejectedError _ => finish idx None "stopped" w
  | Exception_ _ msg => finish idx (Some msg) "error" w
  end.

(** [while step < self.agent.max_steps and not self.aborted], with
    [fuel = max_steps - step]. *)
Fixpoint run_loop (fuel step : nat) (streams : list Stream)
         (assistant_msg : option nat) (w : World) : Ran * World :=
  match fuel with
  | O => (mkRan ByCondition step assistant_msg, w)
  | S fuel' =>
      if w_aborted w then (mkRan ByCondition step assistant_msg, w)
      else
        let step' := S step in
        let '(idx, w1) := create_assistant_message w in
        match _process_stream streams idx w1 with
        | (Ok reason, streams', w2) =>
            let w3 :=
              modify idx
                (fun m => set_completed (set_finish_reason reason m))
                w2 in
            if negb (is_reason reason "tool_calls") then
              (mkRan ByReturn step' (Some idx), w3)
            else if _detect_doom_loop (w_messages w3) then
              match PermissionCheck.check user "doom_loop" ["*"]
                                          (w_permission w3) with
              | (Ok _, pm) =>
                  run_loop fuel' step' streams' (Some idx)
                           (set_permission pm w3)
              | (Raise (PermissionRejectedError _), pm) =>
                  (mkRan ByReturn step' (Some idx),
                   finish idx None "stopped" (set_permission pm w3))
              | (Raise e, pm) =>
                  (mkRan ByReturn step' (Some idx),
                   on_exception idx e (set_permission pm w3))
              end
            else run_loop fuel' step' streams' (Some idx) w3
        | (Raise e, _, w2) =>
            (mkRan ByReturn step' (Some idx), on_exception idx e w2)
        end
  end.

(** [AgentLoop.run] *)
Definition run (user_input : string) (streams : list Stream) (w : World)
  : Ran * World :=
  run_loop (Z.to_nat max_steps) 0 streams None
           (create_user_message user_input w).

(** The message [run] returns, as it stands when [run] returns. *)
Definition returned (r : Ran * World) : option AssistantMessage :=
  match ran_result (fst r) with
  | Some idx => assistant_at idx (snd r)
  | None => None
  end.

End WithEnvironment.

End Loop.

(* ------------------------------------------------------------------ *)
(** ** [json.dumps] with its defaults

    Keys stay in insertion order; the separators and the escaping are those
    of [dumps_sorted]. *)

Module JsonDumps.
Import Json.

Fixpoint dumps (v : json) : string :=
  match v with
  | JNull => "null"
  | JBool true => "true"
  | JBool false => "false"
  | JInt n => encode_int n
  | JStr s => encode_string s
  | JArr elems => "[" ++ join ", " (map dumps elems) ++ "]"
  | JObj items =>
      "{" ++ join ", "
               (map encode_item
                  (map (fun kv => (fst kv, dumps (snd kv))) items))
          ++ "}"
  end.

End JsonDumps.

(* ------------------------------------------------------------------ *)
(** ** [src/models.py]: the queries of [Session] *)

Module SessionModel.




End SessionModel.

(* ------------------------------------------------------------------ *)
(** ** [src/session.py]: [messages_to_openai_format]

    The dicts of the result, by their role.  An assistant dict has its
    [content] key only when [content] is [Some], and its [tool_calls] key
    only when the list is not empty. *)

Record ApiToolCall : Type := mkApiToolCall {
  api_id : string;
  api_name : string;                 (* [function.name] *)
  api_arguments : string             (* [function.arguments] *)
}.

Inductive ApiMessage : Type :=
| ApiSystem (content : string)
| ApiUser (content : string)
| ApiAssistant (content : option string) (tool_calls : list ApiToolCall)
| ApiTool (tool_call_id content : string).

Module SessionFormat.

Definition newline : string := String (ascii_of_nat 10) "".

(** [[p.text for p in msg.parts if isinstance(p, TextPart)]] *)
Fixpoint text_parts (parts : list MessagePart) : list string :=
  match parts with
  | [] => []
  | TextPart text _ :: parts' => text :: text_parts parts'
  | _ :: parts' => text_parts parts'
  end.

(** The first loop over the parts of an assistant message, from the
    [content] and the [tool_calls] gathered so far. *)
Fixpoint gather (parts : list MessagePart) (content : string)
         (tool_calls : list ApiToolCall) : string * list ApiToolCall :=
  match parts with
  | [] => (content, tool_calls)
  | TextPart text _ :: parts' =>
      gather parts' (content ++ text)%string tool_calls
  | ToolPart tc :: parts' =>
      gather parts' content
             (tool_calls
                ++ [mkApiToolCall (tc_id tc) (tc_tool_name tc)
                                  (JsonDumps.dumps (tc_input tc))])
  | ReasoningPart _ :: parts' => gather parts' content tool_calls
  end.

(** [a or b] on optional strings, and [a or ""]. *)
Definition py_or (a b : option string) : option string :=
  match a with
  | Some s => if String.eqb s "" then b else a
  | None => b
  end.

Definition or_blank (a : option string) : string :=
  match a with
  | Some s => s
  | None => ""
  end.

(** The second loop: the results of the tool calls that ended. *)
Fixpoint tool_results (parts : list MessagePart) : list ApiMessage :=
  match parts with
  | [] => []
  | ToolPart tc :: parts' =>
      match tc_state tc with
      | COMPLETED | ERROR =>
          ApiTool (tc_id tc) (or_blank (py_or (tc_output tc) (tc_error tc)))
            :: tool_results parts'
      | _ => tool_results parts'
      end
  | _ :: parts' => tool_results parts'
  end.

Definition is_empty {A : Type} (l : list A) : bool :=
  match l with
  | [] => true
  | _ => false
  end.

(** The body of [for msg in messages]: what one message appends. *)
Definition convert (msg : Message) : list ApiMessage :=
  match msg with
  | UserMessage parts =>
      [ApiUser (Json.join newline (text_parts parts))]
  | AssistantMsg a =>
      let '(content, tool_calls) := gather (am_parts a) "" [] in
      if String.eqb content "" && is_empty tool_calls then []
      else
        ApiAssistant
          (if negb (String.eqb content "") || is_empty tool_calls
           then Some content
           else None)
          tool_calls
          :: tool_results (am_parts a)
  end.

(** [messages_to_openai_format] *)
Fixpoint messages_to_openai_format (messages : list Message)
  : list ApiMessage :=
  match messages with
  | [] => []
  | msg :: messages' => convert msg ++ messages_to_openai_format messages'
  end.

End SessionFormat.

(* ------------------------------------------------------------------ *)
(** ** [src/loop.py]: [_build_messages] *)

Module LoopRequest.

(** [AgentLoop._build_messages]; [system_prompt] is
    [self.agent.system_prompt]. *)
Definition _build_messages (system_prompt : option string)
           (messages : list Message) : list ApiMessage :=
  (match system_prompt with
   | Some prompt =>
       if String.eqb prompt "" then [] else [ApiSystem prompt]
   | None => []
   end)
    ++ SessionFormat.messages_to_openai_format messages.

End LoopRequest.

(* ------------------------------------------------------------------ *)
(** ** [src/errors.py]: [retry_async]

    [func] is what the successive calls of the awaited function do; the
    callback [on_retry] is left at its default [None]. *)

Module Errors.

(** An exception raised by [func]: whether it is an instance of
    [config.retryable_exceptions], and its [retry_after] when it is an
    [LLMRateLimitError]. *)
Record Failure : Type := mkFailure {
  f_retryable : bool;
  f_retry_after : option Q
}.

Inductive Call (A : Type) : Type :=
| Returns (a : A)
| Fails (e : Failure).
Arguments Returns {A} a.
Arguments Fails {A} e.

(** How [retry_async] ends: it returns, an exception it does not catch
    passes through, or it raises [last_exception], which is [None] when
    the loop body never ran. *)
Inductive Ended (A : Type) : Type :=
| Returned (a : A)
| Passed (attempt : nat) (e : Failure)
| RaisedLast (last_exception : option (nat * Failure)).
Arguments Returned {A} a.
Arguments Passed {A} attempt e.
Arguments RaisedLast {A} last_exception.

Section WithFunction.

Variable A : Type.
Variable config : RetryConfig.
Variable func : nat -> Call A.

(** [for attempt in range(config.max_retries + 1)], from [attempt] on;
    the result is the delays slept, in order, and the way the function
    ends. *)
Fixpoint retry_loop (remaining attempt : nat)
         (last_exception : option (nat * Failure)) : list Q * Ended A :=
  match remaining with
  | O => ([], RaisedLast last_exception)
  | S remaining' =>
      match func attempt with
      | Returns a => ([], Returned a)
      | Fails e =>
          if f_retryable e then
            if (rc_max_retries config <=? Z.of_nat attempt)%Z
            then ([], RaisedLast (Some (attempt, e)))
            else
              let delay :=
                retry_async_delay config attempt (f_retry_after e) in
              let '(delays, ended) :=
                retry_loop remaining' (S attempt) (Some (attempt, e)) in
              (delay :: delays, ended)
          else ([], Passed attempt e)
      end
  end.

(** [retry_async(func, config)] *)
Definition retry_async : list Q * Ended A :=
  retry_loop (Z.to_nat (rc_max_retries config + 1)) 0 None.

End WithFunction.

End Errors.

(* ------------------------------------------------------------------ *)
(** ** [src/llm/__init__.py]: [parse_model] *)

Module Llm.

(** [model_str.split("/", 1)] when ["/" in model_str]: the text before
    the first slash and the text after it. *)
Fixpoint split_slash (s : string) : option (string * string) :=
  match s with
  | EmptyString => None
  | String c s' =>
      if Ascii.eqb c "/"%char then Some (EmptyString, s')
      else
        match split_slash s' with
        | Some (before, after) => Some (String c before, after)
        | None => None
        end
  end.

(** [parse_model] *)
Definition parse_model (model_str : string) : string * string :=
  match split_slash model_str with
  | Some (provider_id, model_id) => (provider_id, model_id)
  | None => ("openai", model_str)
  end.

End Llm.

Unset Implicit Arguments.

(* ================================================================== *)
(** * The specification's own words

    Definitions written from the specification, to be compared with the
    embedded code. *)

Module Spec.

(** "Wildcard [*] matches any string; all other patterns use shell-glob
    semantics." *)
Definition pattern_matches (pattern0 value : string) : Prop :=
  pattern0 = "*" \/ (pattern0 <> "*" /\ Fnmatch.fnmatch value pattern0 = true).

(** A rule "whose scope pattern matches [scope] AND whose target pattern
    matches [target]". *)
Definition rule_matches (scope target : string) (rule : PermissionRule)
  : Prop :=
  pattern_matches (permission rule) scope
  /\ pattern_matches (pattern rule) target.

(** The assistant-authored tool calls of a session, oldest first, as
    (tool name, canonical argument text). *)
Definition calls_of_parts (parts : list MessagePart)
  : list (string * string) :=
  flat_map
    (fun part =>
       match part with
       | ToolPart tc => [(tc_tool_name tc, Json.dumps_sorted (tc_input tc))]
       | _ => []
       end)
    parts.

Definition calls_of_message (m : Message) : list (string * string) :=
  match m with
  | UserMessage _ => []
  | AssistantMsg a => calls_of_parts (am_parts a)
  end.

Definition calls_of_session (messages : list Message)
  : list (string * string) :=
  flat_map calls_of_message messages.

(** "If all K are identical" -- and false below the threshold. *)
Definition identical (window : list (string * string)) : bool :=
  match window with
  | [a; b; c] => Loop.call_eqb a b && Loop.call_eqb a c
  | _ => false
  end.

(** "Collect the last K (K=3) pairs", newest first. *)
Definition doom_loop (messages : list Message) : bool :=
  identical (firstn 3 (rev (calls_of_session messages))).

(** "min(initial_delay * base^n, max_delay)" *)
Definition capped_delay (initial base cap : Q) (n : nat) : Q :=
  Qmin (initial * base ^ Z.of_nat n) cap.

End Spec.

(* ================================================================== *)
(** * Vocabulary of the statements

    Predicates and projections the lemmas and theorems are stated with.
    None of them is part of the program. *)

Section Vocabulary.
Import Session Loop.

(** The order [sort_items] sorts by. *)
Definition by_key (a b : string * string) : Prop :=
  Json.key_leb (fst a) (fst b) = true.

(** The text holds no opening bracket. *)
Definition bracket_free (s : string) : Prop :=
  Forall (fun c => Ascii.eqb c "["%char = false) (list_ascii_of_string s).

(** The delays slept through, in order. *)
Definition sleeps (outs : list OpenAI.Out) : list Q :=
  flat_map (fun o => match o with OpenAI.Sleep d => [d] | _ => [] end) outs.

(** The messages of [w'] are those of [w] with the assistant message at
    [idx] changed by [f]. *)
Definition through (idx : nat) (f : AssistantMessage -> AssistantMessage)
           (w w' : World) : Prop :=
  w_messages w' = modify_at idx f (w_messages w).

(** A change of the message that keeps, for every call id, the tool part
    found under it: its tool name and input always, all of it when the id
    is not among [ids]. *)
Definition keeps (ids : list string)
           (f : AssistantMessage -> AssistantMessage) : Prop :=
  forall (m : AssistantMessage) (id : string),
    match find_tool_part id (am_parts m),
          find_tool_part id (am_parts (f m)) with
    | Some tc, Some tc' =>
        tc_tool_name tc' = tc_tool_name tc
        /\ tc_input tc' = tc_input tc
        /\ (~ In id ids -> tc' = tc)
    | None, None => True
    | _, _ => False
    end.

(** The log of executed calls only grows. *)
Definition log_grows (w w' : World) : Prop :=
  exists suffix, w_executed w' = (w_executed w ++ suffix)%list.

(** [tool_calls[key]] *)
Fixpoint dict_get (key : string) (d : list (string * ToolCall))
  : option ToolCall :=
  match d with
  | [] => None
  | (k, tc) :: d' => if String.eqb k key then Some tc else dict_get key d'
  end.






(** The message after [add_tool_part] of every call, in order. *)
Definition add_all (calls : list (string * ToolCall))
           (m : AssistantMessage) : AssistantMessage :=
  fold_left (fun m' entry => add_tool_part (snd entry) m') calls m.

(** The message after [add_text_part] of a text that is not empty. *)
Definition add_text_maybe (text : string) (m : AssistantMessage)
  : AssistantMessage :=
  if String.eqb text "" then m else add_text_part text m.

(** [w'] has the messages of [w], except for changes of the assistant
    message at [idx]. *)
Definition touches (idx : nat) (w w' : World) : Prop :=
  exists f, through idx f w w'.

(** The session after the provider calls of a step that were answered
    with the choice to retry, in case all of [retried] were. *)
Fixpoint after_retries (llm_user : nat -> LLMChoice) (idx : nat)
         (retried : list Stream) (w : World) : option World :=
  match retried with
  | [] => Some w
  | s :: retried' =>
      match chunk_loop llm_user idx (st_chunks s) (st_ending s) start w with
      | (Retry _, w1) => after_retries llm_user idx retried' w1
      | _ => None
      end
  end.

(** [PermissionRejectedError] or [PermissionDeniedError]. *)
Definition permission_error (e : Exn) : Prop :=
  match e with
  | PermissionRejectedError _ | PermissionDeniedError _ => True
  | _ => False
  end.

End Vocabulary.

Section ProviderVocabulary.
Import OpenAI.
Local Open Scope Q_scope.

(** Every event arrives within 60 s of the one before it and none
    carries a finish reason. *)
Fixpoint quiet (last : Q) (events : list (Q * RawChunk)) : bool :=
  match events with
  | [] => true
  | (t, raw) :: events' =>
      Qle_bool (t - last) 60
      && match raw_choice raw with
         | Some choice =>
             match choice_delta choice with
             | Some _ => negb (nonempty (choice_finish_reason choice))
             | None => true
             end
         | None => true
         end
      && quiet t events'
  end.

(** [last_chunk_time] after the events. *)
Fixpoint last_arrival (last : Q) (events : list (Q * RawChunk)) : Q :=
  match events with
  | [] => last
  | (t, _) :: events' => last_arrival t events'
  end.

End ProviderVocabulary.

(* ------------------------------------------------------------------ *)
(** ** Vocabulary of the properties beyond the specification *)

(** The text holds none of the characters a shell pattern reads as more
    than themselves. *)
Definition is_plain_char (c : ascii) : bool :=
  negb (Ascii.eqb c "*"%char) && negb (Ascii.eqb c "?"%char)
  && negb (Ascii.eqb c "["%char).

Definition plain (s : string) : Prop :=
  forallb is_plain_char (list_ascii_of_string s) = true.

(** A rule a request for [permission0] may leave behind: an allow rule
    for that permission and one of the patterns. *)
Definition remembered (permission0 : string) (patterns : list string)
           (rule : PermissionRule) : Prop :=
  permission rule = permission0
  /\ In (pattern rule) patterns
  /\ action rule = ALLOW.

(** A user who never answers "always". *)
Definition never_always (user : nat -> string -> string -> Response) : Prop :=
  forall k permission0 pattern0, user k permission0 pattern0 <> Always.


(** A dict of role [tool]. *)
Definition is_tool_result (m : ApiMessage) : bool :=
  match m with
  | ApiTool _ _ => true
  | _ => false
  end.

(** A change of a message that leaves its parts as they are. *)
Definition keeps_parts (f : AssistantMessage -> AssistantMessage) : Prop :=
  forall m, am_parts (f m) = am_parts m.

(** The last element of a list, if any. *)
Definition last_of {A : Type} (l : list A) : option A :=
  match rev l with
  | [] => None
  | x :: _ => Some x
  end.

(** [w'] has the messages of [w], except for changes of the assistant
    message at [idx] that leave its parts as they are. *)
Definition keeps_all_parts (idx : nat) (w w' : World) : Prop :=
  exists f, keeps_parts f /\ through idx f w w'.

(** The parts of a message that holds the text [text] and nothing else. *)
Definition text_only (text : string) : list MessagePart :=
  if String.eqb text "" then [] else [TextPart text false].

(** The chunks a provider call yields, in order, and its connections. *)
Definition yielded (outs : list OpenAI.Out) : list StreamChunk :=
  flat_map (fun o => match o with OpenAI.Yield c => [c] | _ => [] end) outs.

Definition connections (outs : list OpenAI.Out) : list nat :=
  flat_map (fun o => match o with OpenAI.Connect n => [n] | _ => [] end)
           outs.

(** Any chunk but a finish chunk. *)
Definition not_finish (c : StreamChunk) : bool :=
  negb (String.eqb (ch_type c) "finish").

(** A part without the state, the output and the error of its tool call,
    and a change of a message that touches nothing else of its parts. *)
Definition erase_part (part : MessagePart) : MessagePart :=
  match part with
  | ToolPart tc => ToolPart (Session.set_state PENDING None None tc)
  | other => other
  end.

Definition keeps_calls (f : AssistantMessage -> AssistantMessage) : Prop :=
  forall m,
    map erase_part (am_parts (f m)) = map erase_part (am_parts m).

Definition same_calls (idx : nat) (w w' : World) : Prop :=
  exists f, keeps_calls f /\ through idx f w w'.

(** The call ids of the tool parts, in order. *)
Fixpoint tool_ids (parts : list MessagePart) : list string :=
  match parts with
  | [] => []
  | ToolPart tc :: parts' => tc_id tc :: tool_ids parts'
  | _ :: parts' => tool_ids parts'
  end.

(** A dict of tool calls as the chunks of a call build it: every call
    stored under its own id, and pending. *)
Definition registered (entry : string * ToolCall) : Prop :=
  tc_id (snd entry) = fst entry /\ tc_state (snd entry) = PENDING.

(* ================================================================== *)
(** * Concrete sessions, providers and environments

    The inputs at which the theorems are instantiated. *)

(** The state of the default manager, and a user who always answers
    "always". *)
Definition default_manager : PermissionManager :=
  mkPM Permission.DEFAULT_RULES [] 0.

Definition says_always (k : nat) (permission0 pattern0 : string) : Response :=
  Always.

(** A completed bash call, and an assistant message of a step that ended
    with tool calls. *)
Definition bash_call (id command : string) : ToolCall :=
  mkToolCall id "bash" (JObj [("command", JStr command)]) COMPLETED
             (Some "") None None.

Definition assistant_with (parts : list MessagePart) : Message :=
  AssistantMsg (mkAssistant parts (Some "tool_calls") None
                            Session.empty_tokens true).

(** Two steps with two tool calls each: [ls], [pwd], then [pwd], [pwd]. *)
Definition session_pwd_thrice : list Message :=
  [ UserMessage [TextPart "where am I" false];
    assistant_with [ToolPart (bash_call "c1" "ls");
                    ToolPart (bash_call "c2" "pwd")];
    assistant_with [ToolPart (bash_call "c3" "pwd");
                    ToolPart (bash_call "c4" "pwd")] ].

(** Two steps: [pwd], [ls], then [pwd], [pwd]. *)
Definition session_pwd_twice : list Message :=
  [ UserMessage [TextPart "where am I" false];
    assistant_with [ToolPart (bash_call "c1" "pwd");
                    ToolPart (bash_call "c2" "ls")];
    assistant_with [ToolPart (bash_call "c3" "pwd");
                    ToolPart (bash_call "c4" "pwd")] ].

(** A plain rendering of the error notes. *)
Definition plain_note (note : OpenAI.Note) : string :=
  match note with
  | OpenAI.IdleTimeoutNote => "stream idle for more than 60s"
  | OpenAI.ConnectTimeoutNote _ => "connect timeout"
  | OpenAI.ConnectRetryNote _ _ => "connect timeout, retrying"
  | OpenAI.RetryNote cls last_error _ _ => cls ++ ": " ++ last_error
  | OpenAI.FatalNote cls last_error => cls ++ ": " ++ last_error
  | OpenAI.GiveUpNote _ _ => "retries exhausted"
  end%string.


Definition never_connects (attempt : nat) : OpenAI.Attempt :=
  OpenAI.Streaming 0 [] (OpenAI.EndException "APIConnectionError"
                                             "Connection error.").


(** A raw chunk that carries text only. *)
Definition raw_text (content : string) : OpenAI.RawChunk :=
  OpenAI.mkRawChunk
    (Some (OpenAI.mkRawChoice
             (Some (OpenAI.mkRawDelta (Some content) [])) None))
    None.

(** A raw chunk that carries text and ends the response. *)
Definition raw_stop (content : string) : OpenAI.RawChunk :=
  OpenAI.mkRawChunk
    (Some (OpenAI.mkRawChoice
             (Some (OpenAI.mkRawDelta (Some content) [])) (Some "stop")))
    None.

(** The first response goes silent for 61 s after its first chunk; any
    further attempt would answer at once. *)
Definition goes_silent (attempt : nat) : OpenAI.Attempt :=
  match attempt with
  | O => OpenAI.Streaming 0 [(1, raw_text "Hel"); (62, raw_text "lo")]%Q
                          OpenAI.EndOfStream
  | S _ => OpenAI.Streaming 0 [(1, raw_stop "Hello")]%Q OpenAI.EndOfStream
  end.

(** A tool in the manner of [BashTool.execute]: it reads its command, asks
    the context for the permission and answers. *)
Definition bash_tool : Tool :=
  fun params =>
    match params with
    | JObj items =>
        match Json.lookup "command" items with
        | Some (JStr command) =>
            TAsk "bash" [command]
                 (fun answer =>
                    match answer with
                    | Ok _ => TReturn ("ran " ++ command)
                    | Raise e => TRaise e
                    end)
        | _ => TRaise (Exception_ "KeyError" "'command'")
        end
    | _ => TRaise (Exception_ "TypeError" "")
    end.

(** A registry with the bash tool only. *)
Definition bash_only (name : string) : option Tool :=
  if String.eqb name "bash" then Some bash_tool else None.

(** No tool of the registry passes a target that is not a list of
    strings. *)
Definition untyped_fails (tool_name : string) (v : json)
           (pm : PermissionManager) : Result unit * PermissionManager :=
  (Raise (Exception_ "TypeError" ""), pm).

(** Users of one answer, and a user of the model prompt who skips. *)
Definition says_yes (k : nat) (permission0 pattern0 : string) : Response :=
  Yes.

Definition says_no (k : nat) (permission0 pattern0 : string) : Response :=
  No.

Definition skips (k : nat) : LLMChoice := ChooseSkip.

(** The argument text [{"command": "<command>"}]. *)
Definition command_args (command : string) : string :=
  ("{" ++ Json.quote ++ "command" ++ Json.quote ++ ": "
       ++ Json.quote ++ command ++ Json.quote ++ "}")%string.

(** The chunks of one tool call whose arguments come in two fragments. *)
Definition call_chunks (id name args1 args2 : string) : list StreamChunk :=
  [ tool_call_chunk (Some id) (Some name);
    tool_call_delta_chunk (Some id) (Some args1);
    tool_call_delta_chunk (Some id) (Some args2) ].

(** A session that holds the user's message of the running turn. *)
Definition asked_world : World :=
  mkWorld [UserMessage [TextPart "tidy up" false]] default_manager false 0 [].


(** A provider call that fails, and a user who has it retried once. *)
Definition failed_call : Loop.Stream :=
  Loop.mkStream [error_chunk "overloaded"; finish_chunk (Some "error") None]
                None.

Definition retries_once (k : nat) : LLMChoice :=
  match k with
  | O => ChooseRetry
  | S _ => ChooseSkip
  end.

(** The model asks for an unknown tool between two bash calls. *)
Definition ls_frobnicate_pwd : Loop.Stream :=
  Loop.mkStream
    (call_chunks "call_1" "bash" (command_args "ls") ""
       ++ call_chunks "call_2" "frobnicate" "{" "}"
       ++ call_chunks "call_3" "bash" (command_args "pwd") ""
       ++ [finish_chunk (Some "tool_calls") None])
    None.

(** The model sends arguments that are cut off. *)
Definition cut_off_arguments : Loop.Stream :=
  Loop.mkStream
    (call_chunks "call_1" "bash" "{" "oops"
       ++ [finish_chunk (Some "tool_calls") None])
    None.

(** A turn of at most one step in which the model asks for [ls]. *)
Definition one_step_turn : Loop.Ran * World :=
  Loop.run says_yes skips JsonText.loads bash_only untyped_fails 1
           "list the files"
           [Loop.mkStream
              (call_chunks "call_1" "bash" (command_args "ls") ""
                 ++ [finish_chunk (Some "tool_calls") None])
              None]
           (mkWorld [] default_manager false 0 []).

(** A tool call as [tool_call] chunks register it. *)
Definition pending (id name : string) (args : option string) : ToolCall :=
  mkToolCall id name (JObj []) PENDING None None args.


(** The session with the fresh assistant message of the step. *)
Definition step_world : World :=
  snd (Session.create_assistant_message asked_world).

(** The three tool calls of [ls_frobnicate_pwd], parsed. *)
Definition first_call : string * ToolCall :=
  ("call_1",
   mkToolCall "call_1" "bash" (JObj [("command", JStr "ls")]) PENDING
              None None None).

Definition unknown_call : string * ToolCall :=
  ("call_2", mkToolCall "call_2" "frobnicate" (JObj []) PENDING
                        None None None).

Definition third_call : string * ToolCall :=
  ("call_3",
   mkToolCall "call_3" "bash" (JObj [("command", JStr "pwd")]) PENDING
              None None None).

(** The session once their tool parts are added to the message. *)
Definition three_parts_world : World :=
  Loop.add_tool_parts 1 [first_call; unknown_call; third_call] step_world.

(* ------------------------------------------------------------------ *)
(** ** Inputs of the properties beyond the specification *)

(** The default rules followed by a rule that denies [rm -rf]. *)
Definition strict_manager : PermissionManager :=
  mkPM (Permission.DEFAULT_RULES ++ [mkRule "bash" "rm -rf *" DENY]) [] 0.

(** A tool in the manner of [EditTool.execute] and [ReadTool.execute]: it
    asks for the path resolved against the working directory [/work]. *)
Definition asks_resolved_path : Tool :=
  fun params =>
    match params with
    | JObj items =>
        match Json.lookup "file_path" items with
        | Some (JStr file_path) =>
            TAsk "edit" [("/work/" ++ file_path)%string]
                 (fun answer =>
                    match answer with
                    | Ok _ => TReturn "Edit applied successfully."
                    | Raise e => TRaise e
                    end)
        | _ => TRaise (Exception_ "KeyError" "'file_path'")
        end
    | _ => TRaise (Exception_ "TypeError" "")
    end.

(** A user who allows once and then declines. *)
Definition yes_then_no (k : nat) (permission0 pattern0 : string) : Response :=
  match k with
  | O => Yes
  | S _ => No
  end.

(** A pending call of [bash] and one of [edit]. *)
Definition rm_call : ToolCall :=
  mkToolCall "call_1" "bash" (JObj [("command", JStr "rm x")]) PENDING
             None None None.

Definition env_call : ToolCall :=
  mkToolCall "call_1" "edit"
             (JObj [("file_path", JStr "a.env"); ("old_string", JStr "");
                    ("new_string", JStr "KEY=1")])
             PENDING None None None.

(** A session of one finished step: the model said "hm", asked for [ls]
    and got its output. *)
Definition session_after_ls : list Message :=
  [ UserMessage [TextPart "list the files" false];
    AssistantMsg
      (mkAssistant
         [TextPart "hm" false;
          ToolPart (mkToolCall "c1" "bash" (JObj [("command", JStr "ls")])
                               COMPLETED (Some "a.txt") None None)]
         (Some "tool_calls") None Session.empty_tokens true) ].




(** The answer is interrupted after its first chunk. *)
Definition interrupted_answer : Loop.Stream :=
  Loop.mkStream [text_chunk "Hel"] (Some CancelledError).



(** The first delta of a response carries a whole tool call: its id, its
    name and all of its arguments. *)
Definition whole_call : OpenAI.RawToolCall :=
  OpenAI.mkRawToolCall
    (Some "call_1")
    (Some (OpenAI.mkRawFunction (Some "bash") (Some (command_args "ls")))).

(** A function that fails twice with a retryable error, the second time
    with a server-side delay of 90 s, and then returns. *)
Definition third_time_lucky (attempt : nat) : Errors.Call string :=
  match attempt with
  | 0 => Errors.Fails (Errors.mkFailure true None)
  | 1 => Errors.Fails (Errors.mkFailure true (Some 90%Q))
  | _ => Errors.Returns "done"
  end.

(** The state in which the stream [rm_then_ls] leaves the loop, and its
    second call as parsed. *)
Definition rm_then_ls_local : Loop.Local :=
  Loop.mkLocal ""
    [("call_1", pending "call_1" "bash" (Some (command_args "rm x")));
     ("call_2", pending "call_2" "bash" (Some (command_args "ls")))]
    (Some "tool_calls").

Definition ls_call : string * ToolCall :=
  ("call_2",
   mkToolCall "call_2" "bash" (JObj [("command", JStr "ls")]) PENDING
              None None None).

(* ================================================================== *)
(** * Permission engine *)

Section PermissionFacts.
Import Permission.

Lemma _match_star (value : string) : _match value "*" = true.
Proof. reflexivity. Qed.

Lemma _match_glob (value pattern0 : string) :
  pattern0 <> "*" -> _match value pattern0 = Fnmatch.fnmatch value pattern0.
Proof.
  intros Hne. unfold _match.
  destruct (String.eqb_spec pattern0 "*") as [Heq | _];
    [contradiction | reflexivity].
Qed.

Lemma _match_spec (value pattern0 : string) :
  _match value pattern0 = true <-> Spec.pattern_matches pattern0 value.
Proof.
  unfold Spec.pattern_matches, _match.
  destruct (String.eqb_spec pattern0 "*") as [Heq | Hne].
  - split; [intros _; left; exact Heq | reflexivity].
  - split.
    + intros H. right. split; assumption.
    + intros [Heq | [_ H]]; [contradiction | exact H].
Qed.

Lemma rule_applies_spec (scope target : string) (rule : PermissionRule) :
  rule_applies scope target rule = true
  <-> Spec.rule_matches scope target rule.
Proof.
  unfold rule_applies, Spec.rule_matches.
  rewrite andb_true_iff, !_match_spec. reflexivity.
Qed.

Lemma rule_applies_false (scope target : string) (rule : PermissionRule) :
  rule_applies scope target rule = false
  <-> ~ Spec.rule_matches scope target rule.
Proof.
  rewrite <- rule_applies_spec.
  destruct (rule_applies scope target rule); split; congruence.
Qed.

(** The loop of [evaluate] stops at the first rule that applies. *)
Lemma scan_some (scope target : string) (l : list PermissionRule)
      (a : PermissionAction) :
  scan scope target l = Some a
  <-> exists i rule,
      nth_error l i = Some rule
      /\ rule_applies scope target rule = true
      /\ (forall j rule', j < i -> nth_error l j = Some rule' ->
                          rule_applies scope target rule' = false)
      /\ a = action rule.
Proof.
  induction l as [| r l IH]; simpl.
  - split; [discriminate |].
    intros (i & rule & Hnth & _). destruct i; discriminate.
  - destruct (rule_applies scope target r) eqn:Hr.
    + split.
      * intros [= <-]. exists 0, r. repeat split; trivial.
        intros j rule' Hj. inversion Hj.
      * intros (i & rule & Hnth & Happ & Hbefore & ->).
        destruct i as [| i].
        -- simpl in Hnth. congruence.
        -- specialize (Hbefore 0 r (Nat.lt_0_succ i) eq_refl). congruence.
    + rewrite IH. split.
      * intros (i & rule & Hnth & Happ & Hbefore & ->).
        exists (S i), rule. repeat split; trivial.
        intros [| j] rule' Hj Hnth'.
        -- simpl in Hnth'. congruence.
        -- apply (Hbefore j); [lia | exact Hnth'].
      * intros (i & rule & Hnth & Happ & Hbefore & ->).
        destruct i as [| i].
        -- simpl in Hnth. congruence.
        -- exists i, rule. repeat split; trivial.
           intros j rule' Hj Hnth'.
           apply (Hbefore (S j)); [lia | exact Hnth'].
Qed.

Lemma scan_none (scope target : string) (l : list PermissionRule) :
  scan scope target l = None
  <-> forall rule, In rule l -> rule_applies scope target rule = false.
Proof.
  induction l as [| r l IH]; simpl.
  - split; [intros _ rule [] | reflexivity].
  - destruct (rule_applies scope target r) eqn:Hr.
    + split; [discriminate |].
      intros H. specialize (H r (or_introl eq_refl)). congruence.
    + rewrite IH. split.
      * intros H rule [<- | Hin]; [exact Hr | exact (H rule Hin)].
      * intros H rule Hin. apply H. right. exact Hin.
Qed.

(** Positions of the reversed list, read in the list itself. *)
Lemma nth_error_rev_some (A : Type) (l : list A) (i : nat) (x : A) :
  nth_error (rev l) i = Some x
  <-> i < List.length l /\ nth_error l (List.length l - S i) = Some x.
Proof.
  rewrite nth_error_rev.
  destruct (Nat.ltb_spec i (List.length l)) as [Hlt | Hge].
  - split; [intros H; split; assumption | intros [_ H]; exact H].
  - split; [discriminate | intros [Hlt _]; lia].
Qed.

End PermissionFacts.

(** C1. [evaluate] is last-match-wins over the configured rules followed by
    the runtime-approved rules, with [ask] as the default: it returns [a]
    exactly when [a] is the action of the rule at the greatest position of
    [rules ++ approved] whose permission pattern matches the scope and
    whose target pattern matches the target (the pattern ["*"] matching
    every string, any other pattern matching as a shell glob), or when no
    rule matches and [a] is [ASK]. *)
Theorem evaluate_last_match_wins :
  forall (rules approved : list PermissionRule) (scope target : string)
         (a : PermissionAction),
    Permission.evaluate rules approved scope target = a
    <-> (exists i rule,
            nth_error (rules ++ approved) i = Some rule
            /\ Spec.rule_matches scope target rule
            /\ (forall j rule',
                   i < j -> nth_error (rules ++ approved) j = Some rule' ->
                   ~ Spec.rule_matches scope target rule')
            /\ a = action rule)
        \/ ((forall rule, In rule (rules ++ approved) ->
                          ~ Spec.rule_matches scope target rule)
            /\ a = ASK).
Proof.
  intros rules approved scope target a. unfold Permission.evaluate.
  set (all_rules := rules ++ approved).
  destruct (Permission.scan scope target (rev all_rules)) as [a' |] eqn:Hscan.
  - apply scan_some in Hscan.
    destruct Hscan as (i & rule & Hnth & Happ & Hbefore & ->).
    apply nth_error_rev_some in Hnth. destruct Hnth as [Hi Hnth].
    split.
    + intros <-. left. exists (List.length all_rules - S i), rule.
      split; [exact Hnth |].
      split; [apply rule_applies_spec; exact Happ |].
      split; [| reflexivity].
      * intros j rule' Hj Hnth'. apply rule_applies_false.
        assert (Hjlen : j < List.length all_rules)
          by (apply nth_error_Some; congruence).
        apply (Hbefore (List.length all_rules - S j)); [lia |].
        apply nth_error_rev_some. split; [lia |].
        replace (List.length all_rules - S (List.length all_rules - S j))
          with j by lia.
        exact Hnth'.
    + intros [(k & rule' & Hk & Hmatch & Hlater & ->) | [Hnone _]].
      * assert (Hklen : k < List.length all_rules)
          by (apply nth_error_Some; congruence).
        destruct (Nat.lt_trichotomy k (List.length all_rules - S i))
          as [Hlt | [Heq | Hgt]].
        -- exfalso. apply (Hlater _ rule Hlt Hnth).
           apply rule_applies_spec. exact Happ.
        -- subst k. congruence.
        -- exfalso. apply rule_applies_spec in Hmatch.
           assert (Hfalse : Permission.rule_applies scope target rule' = false).
           { apply (Hbefore (List.length all_rules - S k)); [lia |].
             apply nth_error_rev_some. split; [lia |].
             replace (List.length all_rules - S (List.length all_rules - S k))
               with k by lia.
             exact Hk. }
           congruence.
      * exfalso. apply (Hnone rule).
        -- apply nth_error_In with (n := List.length all_rules - S i).
           exact Hnth.
        -- apply rule_applies_spec. exact Happ.
  - assert (Hnone : forall rule, In rule all_rules ->
                                 ~ Spec.rule_matches scope target rule).
    { intros rule Hin. apply rule_applies_false.
      apply (proj1 (scan_none scope target (rev all_rules)) Hscan).
      apply in_rev. rewrite rev_involutive. exact Hin. }
    split.
    + intros <-. right. split; [exact Hnone | reflexivity].
    + intros [(k & rule & Hk & Hmatch & _) | [_ ->]]; [| reflexivity].
      exfalso. apply (Hnone rule); [| exact Hmatch].
      apply nth_error_In with (n := k). exact Hk.
Qed.

Section AlwaysFacts.
Import Permission PermissionCheck.

(** A rule appended by "always" is found first by the next [evaluate]
    when its two texts match themselves as patterns. *)
Lemma evaluate_after_always
      (rules approved : list PermissionRule) (scope target : string) :
  _match scope scope = true ->
  _match target target = true ->
  evaluate rules (approved ++ [mkRule scope target ALLOW]) scope target
  = ALLOW.
Proof.
  intros Hscope Htarget. unfold evaluate.
  rewrite app_assoc, rev_app_distr. simpl.
  unfold rule_applies. simpl. rewrite Hscope, Htarget. reflexivity.
Qed.

(** Then the next [check] of the same pair passes without a prompt. *)
Lemma check_after_always
      (user : nat -> string -> string -> Response)
      (pm : PermissionManager) (scope target : string) :
  _match scope scope = true ->
  _match target target = true ->
  user (pm_prompts pm) scope target = Always ->
  let pm' := snd (_default_ask user scope target pm) in
  check user scope [target] pm' = (Ok tt, pm').
Proof.
  intros Hscope Htarget Huser. unfold _default_ask. rewrite Huser.
  simpl. rewrite evaluate_after_always by assumption. reflexivity.
Qed.

Lemma match_tokens_star (ts : list Fnmatch.Token) (s : list ascii) :
  Fnmatch.match_tokens (Fnmatch.STAR :: ts) s
  = Fnmatch.match_tokens ts s
    || match s with
       | [] => false
       | _ :: s' => Fnmatch.match_tokens (Fnmatch.STAR :: ts) s'
       end.
Proof. destruct s; reflexivity. Qed.

Lemma match_tokens_star_skip (ts : list Fnmatch.Token) (s : list ascii) :
  Fnmatch.match_tokens ts s = true ->
  Fnmatch.match_tokens (Fnmatch.STAR :: ts) s = true.
Proof. intros H. rewrite match_tokens_star, H. reflexivity. Qed.

Lemma match_tokens_star_cons (ts : list Fnmatch.Token) (c : ascii)
      (s : list ascii) :
  Fnmatch.match_tokens (Fnmatch.STAR :: ts) s = true ->
  Fnmatch.match_tokens (Fnmatch.STAR :: ts) (c :: s) = true.
Proof. intros H. rewrite match_tokens_star, H. apply orb_true_r. Qed.

Lemma compress_star (ts : list Fnmatch.Token) :
  Fnmatch.compress (Fnmatch.STAR :: ts)
  = match ts with
    | Fnmatch.STAR :: _ => Fnmatch.compress ts
    | _ => Fnmatch.STAR :: Fnmatch.compress ts
    end.
Proof. destruct ts as [| [] ts]; reflexivity. Qed.

Lemma compress_keeps_star (ts : list Fnmatch.Token) :
  exists ts',
    Fnmatch.compress (Fnmatch.STAR :: ts) = Fnmatch.STAR :: ts'.
Proof.
  induction ts as [| t ts IH].
  - exists []. reflexivity.
  - rewrite compress_star. destruct t; try (eexists; reflexivity).
    exact IH.
Qed.

(** A text without an opening bracket matches itself as a pattern. *)
Lemma match_tokens_self (s : list ascii) :
  Forall (fun c => Ascii.eqb c "["%char = false) s ->
  Fnmatch.match_tokens (Fnmatch.compress (Fnmatch.translate_from 0 s)) s
  = true.
Proof.
  induction 1 as [| c s Hb _ IH]; [reflexivity |].
  simpl Fnmatch.translate_from.
  destruct (Ascii.eqb c "*"%char) eqn:Hs.
  - rewrite compress_star.
    destruct (Fnmatch.translate_from 0 s) as [| t ts] eqn:Hts.
    + simpl in IH. destruct s; [reflexivity | discriminate].
    + destruct t;
        try (apply match_tokens_star_cons, match_tokens_star_skip;
             exact IH).
      destruct (compress_keeps_star ts) as [ts' Hts'].
      rewrite Hts' in *. apply match_tokens_star_cons. exact IH.
  - destruct (Ascii.eqb c "?"%char) eqn:Hq.
    + change (Fnmatch.compress (Fnmatch.ANY :: Fnmatch.translate_from 0 s))
        with (Fnmatch.ANY
                :: Fnmatch.compress (Fnmatch.translate_from 0 s)).
      simpl. exact IH.
    + rewrite Hb.
      change (Fnmatch.compress
                (Fnmatch.LIT c :: Fnmatch.translate_from 0 s))
        with (Fnmatch.LIT c
                :: Fnmatch.compress (Fnmatch.translate_from 0 s)).
      simpl. rewrite Ascii.eqb_refl. exact IH.
Qed.

Lemma _match_self (s : string) : bracket_free s -> _match s s = true.
Proof.
  intros H. unfold _match. destruct (String.eqb s "*"); [reflexivity |].
  apply match_tokens_self. exact H.
Qed.

(** "Always" is remembered for every pair free of opening brackets. *)
Corollary always_remembered_without_brackets
          (user : nat -> string -> string -> Response)
          (pm : PermissionManager) (scope target : string) :
  bracket_free scope ->
  bracket_free target ->
  user (pm_prompts pm) scope target = Always ->
  let pm' := snd (_default_ask user scope target pm) in
  evaluate (pm_rules pm') (pm_approved pm') scope target = ALLOW
  /\ check user scope [target] pm' = (Ok tt, pm').
Proof.
  intros Hscope Htarget Huser. split.
  - unfold _default_ask. rewrite Huser. simpl.
    apply evaluate_after_always; apply _match_self; assumption.
  - apply check_after_always; trivial; apply _match_self; assumption.
Qed.

End AlwaysFacts.

(** C5, at the failing input: with the default rules, the command
    [rm [ab].txt] is asked about, the user answers "always" and the allow
    rule for that exact pair is appended; the next [evaluate] of the same
    pair still returns [ASK], because the stored command is read as a glob in
    which [[ab]] stands for one character, and the next [check] prompts
    again. *)
Theorem always_forgets_bracket_command :
  let first :=
    PermissionCheck.check says_always "bash" ["rm [ab].txt"] default_manager in
  fst first = Ok tt
  /\ pm_approved (snd first) = [mkRule "bash" "rm [ab].txt" ALLOW]
  /\ pm_prompts (snd first) = 1
  /\ Permission.evaluate (pm_rules (snd first)) (pm_approved (snd first))
                         "bash" "rm [ab].txt" = ASK
  /\ pm_prompts
       (snd (PermissionCheck.check says_always "bash" ["rm [ab].txt"]
                                   (snd first))) = 2.
Proof. vm_compute. repeat split; reflexivity. Qed.

(* ================================================================== *)
(** * Doom-loop detection *)

Section KeyOrderFacts.
Import Json.

Lemma key_leb_trans (a b c : string) :
  key_leb a b = true -> key_leb b c = true -> key_leb a c = true.
Proof.
  unfold key_leb, String.leb. intros Hab Hbc.
  destruct (String.compare a b) eqn:Eab; try discriminate.
  - apply String.compare_eq_iff in Eab. subst b. exact Hbc.
  - destruct (String.compare b c) eqn:Ebc; try discriminate.
    + apply String.compare_eq_iff in Ebc. subst c. rewrite Eab. reflexivity.
    + apply String_as_OT.cmp_lt in Eab, Ebc.
      pose proof (String_as_OT.lt_trans _ _ _ Eab Ebc) as Hac.
      apply String_as_OT.cmp_lt in Hac. unfold String_as_OT.cmp in Hac.
      rewrite Hac. reflexivity.
Qed.

Lemma insert_sorted_permutation (kv : string * string)
      (l : list (string * string)) :
  Permutation (kv :: l) (insert_sorted kv l).
Proof.
  induction l as [| kv' l IH]; simpl.
  - apply Permutation_refl.
  - destruct (key_leb (fst kv) (fst kv')).
    + apply Permutation_refl.
    + eapply perm_trans; [apply perm_swap |].
      apply perm_skip. exact IH.
Qed.

Lemma sort_items_permutation (l : list (string * string)) :
  Permutation l (sort_items l).
Proof.
  induction l as [| kv l IH]; simpl.
  - apply perm_nil.
  - eapply perm_trans; [apply perm_skip; exact IH |].
    apply insert_sorted_permutation.
Qed.

Lemma insert_sorted_sorted (kv : string * string)
      (l : list (string * string)) :
  StronglySorted by_key l -> StronglySorted by_key (insert_sorted kv l).
Proof.
  induction l as [| kv' l IH]; intros Hsorted; simpl.
  - constructor; constructor.
  - inversion Hsorted as [| ? ? Hrest Hall]; subst.
    destruct (key_leb (fst kv) (fst kv')) eqn:Hle.
    + constructor; [exact Hsorted |].
      constructor; [exact Hle |].
      eapply Forall_impl; [| exact Hall].
      intros other Hother. unfold by_key in *.
      eapply key_leb_trans; eassumption.
    + constructor; [apply IH; exact Hrest |].
      assert (Hge : by_key kv' kv).
      { unfold by_key, key_leb.
        destruct (String.leb_total (fst kv') (fst kv)) as [H | H];
          [exact H |].
        unfold key_leb in Hle. congruence. }
      eapply Permutation_Forall; [apply insert_sorted_permutation |].
      constructor; assumption.
Qed.

Lemma sort_items_sorted (l : list (string * string)) :
  StronglySorted by_key (sort_items l).
Proof.
  induction l as [| kv l IH]; simpl.
  - constructor.
  - apply insert_sorted_sorted. exact IH.
Qed.

Lemma same_key_same_item (l : list (string * string))
      (a b : string * string) :
  NoDup (map fst l) -> In a l -> In b l -> fst a = fst b -> a = b.
Proof.
  induction l as [| c l IH]; intros Hnodup Ha Hb Hkey; [contradiction |].
  simpl in Hnodup. inversion Hnodup as [| ? ? Hnotin Hrest]; subst.
  destruct Ha as [Ha | Ha], Hb as [Hb | Hb].
  - congruence.
  - subst c. exfalso. apply Hnotin. rewrite Hkey.
    apply in_map. exact Hb.
  - subst c. exfalso. apply Hnotin. rewrite <- Hkey.
    apply in_map. exact Ha.
  - apply IH; assumption.
Qed.

Lemma sorted_unique (l1 : list (string * string)) :
  forall l2,
    StronglySorted by_key l1 -> StronglySorted by_key l2 ->
    NoDup (map fst l1) -> Permutation l1 l2 -> l1 = l2.
Proof.
  induction l1 as [| a l1 IH]; intros l2 H1 H2 Hnodup Hperm.
  - apply Permutation_nil in Hperm. congruence.
  - destruct l2 as [| b l2].
    { apply Permutation_sym, Permutation_nil in Hperm. discriminate. }
    inversion H1 as [| ? ? Hrest1 Hall1]; subst.
    inversion H2 as [| ? ? Hrest2 Hall2]; subst.
    assert (Hab : a = b).
    { assert (Ha : In a (b :: l2)).
      { eapply Permutation_in; [exact Hperm | left; reflexivity]. }
      assert (Hb : In b (a :: l1)).
      { eapply Permutation_in;
          [apply Permutation_sym; exact Hperm | left; reflexivity]. }
      destruct Ha as [Ha | Ha]; [congruence |].
      destruct Hb as [Hb | Hb]; [congruence |].
      rewrite Forall_forall in Hall1, Hall2.
      apply (same_key_same_item (a :: l1)); trivial.
      - left; reflexivity.
      - right; exact Hb.
      - apply String.leb_antisym.
        + exact (Hall1 b Hb).
        + exact (Hall2 a Ha). }
    subst b. f_equal. apply IH; trivial.
    + simpl in Hnodup. inversion Hnodup; assumption.
    + eapply Permutation_cons_inv. exact Hperm.
Qed.

Lemma sort_items_key_order (l1 l2 : list (string * string)) :
  NoDup (map fst l1) -> Permutation l1 l2 -> sort_items l1 = sort_items l2.
Proof.
  intros Hnodup Hperm. apply sorted_unique.
  - apply sort_items_sorted.
  - apply sort_items_sorted.
  - eapply Permutation_NoDup; [| exact Hnodup].
    apply Permutation_map. apply sort_items_permutation.
  - eapply perm_trans; [apply Permutation_sym, sort_items_permutation |].
    eapply perm_trans; [exact Hperm |]. apply sort_items_permutation.
Qed.

(** The text [json.dumps(..., sort_keys=True)] gives for a dict does not
    depend on the insertion order of its keys. *)
Lemma dumps_sorted_key_order (items items' : list (string * json)) :
  NoDup (map fst items) ->
  Permutation items items' ->
  dumps_sorted (JObj items) = dumps_sorted (JObj items').
Proof.
  intros Hnodup Hperm.
  change (dumps_sorted (JObj items))
    with ("{" ++ join ", "
                  (map encode_item
                       (sort_items
                          (map (fun kv => (fst kv, dumps_sorted (snd kv)))
                               items)))
              ++ "}")%string.
  change (dumps_sorted (JObj items'))
    with ("{" ++ join ", "
                  (map encode_item
                       (sort_items
                          (map (fun kv => (fst kv, dumps_sorted (snd kv)))
                               items')))
              ++ "}")%string.
  rewrite (sort_items_key_order
             (map (fun kv => (fst kv, dumps_sorted (snd kv))) items)
             (map (fun kv => (fst kv, dumps_sorted (snd kv))) items')).
  - reflexivity.
  - rewrite map_map. simpl. exact Hnodup.
  - apply Permutation_map. exact Hperm.
Qed.

End KeyOrderFacts.

Section DoomLoopFacts.
Import Loop.

Lemma firstn_full {A : Type} (n : nat) (l rest : list A) :
  n <= List.length l -> firstn n (l ++ rest) = firstn n l.
Proof.
  intros H. rewrite firstn_app.
  replace (n - List.length l) with 0 by lia.
  simpl. apply app_nil_r.
Qed.

Lemma collect_parts_window (parts : list MessagePart) :
  forall recent_calls,
    List.length recent_calls < DOOM_LOOP_THRESHOLD ->
    collect_parts parts recent_calls
    = firstn DOOM_LOOP_THRESHOLD (recent_calls ++ Spec.calls_of_parts parts).
Proof.
  induction parts as [| part parts IH]; intros recent_calls Hshort.
  - cbn [collect_parts Spec.calls_of_parts flat_map].
    rewrite app_nil_r. symmetry. apply firstn_all2. lia.
  - destruct part as [text synthetic | tc | text];
      cbn [collect_parts Spec.calls_of_parts flat_map app];
      [apply IH; exact Hshort | | apply IH; exact Hshort].
    destruct (DOOM_LOOP_THRESHOLD
                <=? List.length
                      (recent_calls
                         ++ [(tc_tool_name tc,
                              Json.dumps_sorted (tc_input tc))]))%nat
        eqn:Hfull.
    + apply Nat.leb_le in Hfull.
      change (recent_calls
                ++ (tc_tool_name tc, Json.dumps_sorted (tc_input tc))
                :: flat_map _ parts)
        with (recent_calls
                ++ [(tc_tool_name tc, Json.dumps_sorted (tc_input tc))]
                ++ Spec.calls_of_parts parts).
      rewrite app_assoc, firstn_full by exact Hfull.
      symmetry. apply firstn_all2.
      rewrite length_app in *. simpl in *. lia.
    + apply Nat.leb_gt in Hfull. rewrite IH by exact Hfull.
      rewrite <- app_assoc. reflexivity.
Qed.

Lemma collect_messages_window (msgs : list Message) :
  forall recent_calls,
    List.length recent_calls < DOOM_LOOP_THRESHOLD ->
    collect_messages msgs recent_calls
    = firstn DOOM_LOOP_THRESHOLD
             (recent_calls ++ flat_map Spec.calls_of_message msgs).
Proof.
  induction msgs as [| msg msgs IH]; intros recent_calls Hshort.
  - cbn [collect_messages flat_map].
    rewrite app_nil_r. symmetry. apply firstn_all2. lia.
  - destruct msg as [parts | a].
    + change (collect_messages (UserMessage parts :: msgs) recent_calls)
        with (collect_messages msgs recent_calls).
      apply IH. exact Hshort.
    + change (collect_messages (AssistantMsg a :: msgs) recent_calls)
        with (let recent_calls' := collect_parts (am_parts a) recent_calls in
              if (DOOM_LOOP_THRESHOLD <=? List.length recent_calls')%nat
              then recent_calls'
              else collect_messages msgs recent_calls').
      cbv zeta. rewrite collect_parts_window by exact Hshort.
      change (flat_map Spec.calls_of_message (AssistantMsg a :: msgs))
        with (Spec.calls_of_parts (am_parts a)
                ++ flat_map Spec.calls_of_message msgs).
      rewrite app_assoc.
      destruct (DOOM_LOOP_THRESHOLD
                <=? List.length
                      (firstn DOOM_LOOP_THRESHOLD
                              (recent_calls
                                 ++ Spec.calls_of_parts (am_parts a))))%nat
        eqn:Hfull.
      * apply Nat.leb_le in Hfull. rewrite length_firstn in Hfull.
        symmetry. apply firstn_full. lia.
      * apply Nat.leb_gt in Hfull. rewrite length_firstn in Hfull.
        assert (Hall : firstn DOOM_LOOP_THRESHOLD
                              (recent_calls
                                 ++ Spec.calls_of_parts (am_parts a))
                       = recent_calls ++ Spec.calls_of_parts (am_parts a)).
        { apply firstn_all2. lia. }
        rewrite Hall. apply IH. lia.
Qed.

Lemma call_eqb_refl (a : string * string) : call_eqb a a = true.
Proof. unfold call_eqb. rewrite !String.eqb_refl. reflexivity. Qed.

Lemma call_eqb_sym (a b : string * string) : call_eqb a b = call_eqb b a.
Proof.
  unfold call_eqb.
  rewrite (String.eqb_sym (fst a)), (String.eqb_sym (snd a)). reflexivity.
Qed.

(** What [_detect_doom_loop] compares: the first three calls met when the
    messages are read from the newest to the oldest and the parts of each
    message from its first to its last. *)
Lemma detect_doom_loop_window (messages : list Message) :
  _detect_doom_loop messages
  = Spec.identical
      (firstn DOOM_LOOP_THRESHOLD
              (flat_map Spec.calls_of_message (rev messages))).
Proof.
  unfold _detect_doom_loop.
  rewrite collect_messages_window by (unfold DOOM_LOOP_THRESHOLD; simpl; lia).
  cbv zeta. simpl app.
  remember (flat_map Spec.calls_of_message (rev messages)) as calls.
  unfold DOOM_LOOP_THRESHOLD.
  destruct calls as [| a [| b [| c calls]]]; try reflexivity.
  change (firstn 3 (a :: b :: c :: calls)) with [a; b; c].
  simpl. rewrite call_eqb_refl, (call_eqb_sym b a), (call_eqb_sym c a).
  simpl. rewrite andb_true_r. reflexivity.
Qed.

Lemma rev_flat_map_single {A B : Type} (f : A -> list B) (l : list A) :
  Forall (fun x => List.length (f x) <= 1) l ->
  rev (flat_map f l) = flat_map f (rev l).
Proof.
  induction l as [| x l IH]; intros Hall; [reflexivity |].
  inversion Hall as [| ? ? Hx Hl]; subst.
  simpl. rewrite rev_app_distr, flat_map_app, IH by exact Hl.
  simpl. rewrite app_nil_r. f_equal.
  destruct (f x) as [| y [| z ys]]; try reflexivity.
  simpl in Hx. lia.
Qed.

(** With at most one tool call in every message, the code compares the
    last three calls of the session. *)
Lemma detect_doom_loop_single_calls (messages : list Message) :
  Forall (fun m => List.length (Spec.calls_of_message m) <= 1) messages ->
  _detect_doom_loop messages = Spec.doom_loop messages.
Proof.
  intros Hsingle. rewrite detect_doom_loop_window.
  unfold Spec.doom_loop, Spec.calls_of_session.
  rewrite rev_flat_map_single by exact Hsingle. reflexivity.
Qed.

(** The insertion order of the argument keys of a call plays no part in
    the detection. *)
Lemma detect_doom_loop_key_order
      (before after : list Message) (a a' : AssistantMessage)
      (pre post : list MessagePart) (tc tc' : ToolCall)
      (items items' : list (string * json)) :
  am_parts a = pre ++ ToolPart tc :: post ->
  am_parts a' = pre ++ ToolPart tc' :: post ->
  tc_tool_name tc' = tc_tool_name tc ->
  tc_input tc = JObj items ->
  tc_input tc' = JObj items' ->
  NoDup (map fst items) ->
  Permutation items items' ->
  _detect_doom_loop (before ++ AssistantMsg a' :: after)
  = _detect_doom_loop (before ++ AssistantMsg a :: after).
Proof.
  intros Ha Ha' Hname Hinput Hinput' Hnodup Hperm.
  assert (Hcalls : Spec.calls_of_message (AssistantMsg a')
                   = Spec.calls_of_message (AssistantMsg a)).
  { unfold Spec.calls_of_message, Spec.calls_of_parts.
    rewrite Ha, Ha', !flat_map_app. f_equal.
    cbn [flat_map]. f_equal.
    rewrite Hname, Hinput, Hinput'.
    rewrite (dumps_sorted_key_order items items' Hnodup Hperm).
    reflexivity. }
  rewrite !detect_doom_loop_window.
  rewrite !rev_app_distr. cbn [rev].
  rewrite <- !app_assoc, !flat_map_app. cbn [flat_map app].
  rewrite !app_nil_r.
  rewrite Hcalls. reflexivity.
Qed.

End DoomLoopFacts.

(** C2, at the failing inputs: the messages are walked from the newest to
    the oldest but the parts of each message from the first to the last, so
    the three calls compared are not the last three of the session.  In
    [session_pwd_thrice] the last three calls are identical and the
    detection answers false; in [session_pwd_twice] they are not and it
    answers true. *)
Theorem doom_loop_window_is_not_the_last_three :
  Spec.doom_loop session_pwd_thrice = true
  /\ Loop._detect_doom_loop session_pwd_thrice = false
  /\ Spec.doom_loop session_pwd_twice = false
  /\ Loop._detect_doom_loop session_pwd_twice = true.
Proof. vm_compute. repeat split; reflexivity. Qed.

(* ================================================================== *)
(** * Retry governor of the provider *)

Section RetryFacts.
Import OpenAI.
Local Open Scope Q_scope.



Lemma py_min_spec (a b : Q) : py_min a b == Qmin a b.
Proof.
  unfold py_min. destruct (Qle_bool a b) eqn:Hle.
  - apply Qle_bool_iff in Hle. symmetry. apply Q.min_l. exact Hle.
  - assert (Hlt : b < a).
    { apply Qnot_le_lt. intros H. apply Qle_bool_iff in H. congruence. }
    symmetry. apply Q.min_r. apply Qlt_le_weak. exact Hlt.
Qed.

(** The capped formula is that of [retry_async] in [src/errors.py], which
    no provider calls. *)
Lemma retry_async_delay_capped (config : RetryConfig) (n : nat) :
  retry_async_delay config n None
  == Spec.capped_delay (initial_delay config) (exponential_base config)
                       (max_delay config) n.
Proof. unfold retry_async_delay, Spec.capped_delay. apply py_min_spec. Qed.

Lemma two_power_above (n : nat) :
  inject_Z (Z.of_nat n) < 2 ^ Z.of_nat n.
Proof.
  rewrite <- (Zpower_Qpower 2 (Z.of_nat n)) by lia.
  rewrite <- Zlt_Qlt. apply Z.pow_gt_lin_r; lia.
Qed.

(** The delay of the provider is not bounded: whatever the cap, some
    attempt is followed by a longer delay. *)
Lemma base_delay_unbounded (config : LLMConfig) (cap : Q) :
  0 < retry_delay config ->
  exists n, cap < base_delay config n.
Proof.
  intros Hpos.
  exists (Z.to_nat (Qceiling (cap / retry_delay config))).
  unfold base_delay.
  set (r := retry_delay config) in *.
  set (n := Z.to_nat (Qceiling (cap / r))).
  assert (Hn : cap / r < 2 ^ Z.of_nat n).
  { eapply Qle_lt_trans; [| apply two_power_above].
    eapply Qle_trans; [apply Qle_ceiling |].
    rewrite <- Zle_Qle. unfold n. lia. }
  apply (Qmult_lt_l _ _ r Hpos) in Hn.
  rewrite Qmult_div_r in Hn; [exact Hn |].
  intros Hzero. rewrite Hzero in Hpos. exact (Qlt_irrefl _ Hpos).
Qed.

Variable render : Note -> string.

Lemma consume_idle (before : list (Q * RawChunk)) :
  forall (last : Q) (keys : list string) (t : Q) (raw : RawChunk)
         (after : list (Q * RawChunk)) (ending : Ending),
    quiet last before = true ->
    60 < t - last_arrival last before ->
    exists chunks,
      consume render last keys (before ++ (t, raw) :: after) ending
      = (map Yield chunks ++ [Yield (error_chunk (render IdleTimeoutNote))],
         LeaveReturn).
Proof.
  induction before as [| [t0 raw0] before IH];
    intros last keys t raw after ending Hquiet Hgap.
  - exists []. simpl in *.
    destruct (Qle_bool (t - last) 60) eqn:Hle; [| reflexivity].
    apply Qle_bool_iff in Hle. exfalso.
    exact (Qlt_not_le _ _ Hgap Hle).
  - simpl in Hquiet, Hgap.
    apply andb_true_iff in Hquiet. destruct Hquiet as [Hquiet Hrest].
    apply andb_true_iff in Hquiet. destruct Hquiet as [Hle Hfin].
    simpl. rewrite Hle. simpl.
    destruct (raw_choice raw0) as [choice |].
    + destruct (choice_delta choice) as [delta |].
      * apply negb_true_iff in Hfin. rewrite Hfin.
        destruct (emit_tool_calls keys (delta_tool_calls delta))
          as [calls keys'].
        destruct (IH t0 keys' t raw after ending Hrest Hgap)
          as [chunks Hchunks].
        rewrite Hchunks.
        exists ((if nonempty (delta_content delta)
                 then [mkChunk "text" (delta_content delta)
                               None None None None None None]
                 else [])
                  ++ calls ++ chunks)%list.
        rewrite !map_app, <- !app_assoc.
        destruct (nonempty (delta_content delta)); reflexivity.
      * exact (IH t0 keys t raw after ending Hrest Hgap).
    + exact (IH t0 keys t raw after ending Hrest Hgap).
Qed.

End RetryFacts.




(** C9, counterexample: with three retries left, a response that goes
    silent for more than 60 s is answered by one error chunk and the end of
    the call: no sleep, no second attempt, not even a finish chunk. *)
Lemma idle_timeout_is_not_retried :
  OpenAI.stream plain_note DEFAULT_LLM_CONFIG goes_silent
  = ([OpenAI.Connect 0;
      OpenAI.Yield (text_chunk "Hel");
      OpenAI.Yield (error_chunk (plain_note OpenAI.IdleTimeoutNote))],
     OpenAI.Returned)
  /\ ~ In (OpenAI.Connect 1)
          (fst (OpenAI.stream plain_note DEFAULT_LLM_CONFIG goes_silent)).
Proof.
  split; [reflexivity |].
  vm_compute. intros [H | [H | [H | []]]]; discriminate.
Qed.

(** C9, as the code has it: when, in attempt [n], a chunk arrives more than
    60 s after the one before it (or after the start of the response) and
    the response has not finished before, the provider call yields the
    chunks received so far, then one error chunk, and returns: the attempt
    is not retried, whatever number of retries is left. *)
Theorem idle_timeout_ends_the_call :
  forall (render : OpenAI.Note -> string) (config : LLMConfig)
         (sdk : nat -> OpenAI.Attempt) (remaining n : nat)
         (last_error : option string) (start t : Q)
         (before after : list (Q * OpenAI.RawChunk))
         (raw : OpenAI.RawChunk) (ending : OpenAI.Ending),
    sdk n = OpenAI.Streaming start (before ++ (t, raw) :: after) ending ->
    quiet start before = true ->
    (60 < t - last_arrival start before)%Q ->
    exists chunks,
      OpenAI.attempts render config sdk (S remaining) n last_error
      = (OpenAI.Connect n
           :: map OpenAI.Yield chunks
           ++ [OpenAI.Yield (error_chunk (render OpenAI.IdleTimeoutNote))],
         OpenAI.Returned).
Proof.
  intros render config sdk remaining n last_error start t before after raw
         ending Hsdk Hquiet Hgap.
  destruct (@consume_idle render before start [] t raw after ending
                          Hquiet Hgap) as [chunks Hchunks].
  exists chunks. simpl. rewrite Hsdk, Hchunks. reflexivity.
Qed.

Lemma idle_timeout_ends_the_call_witness :
  exists chunks,
    OpenAI.attempts plain_note DEFAULT_LLM_CONFIG goes_silent 4 0 None
    = (OpenAI.Connect 0
         :: map OpenAI.Yield chunks
         ++ [OpenAI.Yield (error_chunk (plain_note OpenAI.IdleTimeoutNote))],
       OpenAI.Returned).
Proof.
  apply (@idle_timeout_ends_the_call
           plain_note DEFAULT_LLM_CONFIG goes_silent 3 0 None 0 62
           [(1, raw_text "Hel")]%Q [] (raw_text "lo") OpenAI.EndOfStream).
  - reflexivity.
  - reflexivity.
  - reflexivity.
Defined.

(* ================================================================== *)
(** * Session helpers: what a mutation of one message leaves alone *)

Section SessionFacts.
Import Session.

Lemma modify_at_length (idx : nat) (f : AssistantMessage -> AssistantMessage)
      (ms : list Message) :
  List.length (modify_at idx f ms) = List.length ms.
Proof.
  revert idx. induction ms as [| m ms IH]; intros idx; [reflexivity |].
  destruct idx as [| idx]; simpl.
  - destruct m; reflexivity.
  - rewrite IH. reflexivity.
Qed.

Lemma modify_at_compose (idx : nat)
      (f g : AssistantMessage -> AssistantMessage) (ms : list Message) :
  modify_at idx g (modify_at idx f ms)
  = modify_at idx (fun m => g (f m)) ms.
Proof.
  revert idx. induction ms as [| m ms IH]; intros idx; [reflexivity |].
  destruct idx as [| idx]; simpl.
  - destruct m; reflexivity.
  - rewrite IH. reflexivity.
Qed.

Lemma modify_at_same (idx : nat) (ms : list Message) :
  modify_at idx (fun m => m) ms = ms.
Proof.
  revert idx. induction ms as [| m ms IH]; intros idx; [reflexivity |].
  destruct idx as [| idx]; simpl.
  - destruct m; reflexivity.
  - rewrite IH. reflexivity.
Qed.

Lemma modify_at_nth (idx : nat) (f : AssistantMessage -> AssistantMessage)
      (ms : list Message) :
  nth_error (modify_at idx f ms) idx
  = match nth_error ms idx with
    | Some (AssistantMsg m) => Some (AssistantMsg (f m))
    | other => other
    end.
Proof.
  revert idx. induction ms as [| m ms IH]; intros idx.
  - destruct idx; reflexivity.
  - destruct idx as [| idx]; simpl.
    + destruct m; reflexivity.
    + apply IH.
Qed.


Lemma through_refl (idx : nat) (w : World) : through idx (fun m => m) w w.
Proof. unfold through. rewrite modify_at_same. reflexivity. Qed.

Lemma through_trans (idx : nat)
      (f g : AssistantMessage -> AssistantMessage) (w1 w2 w3 : World) :
  through idx f w1 w2 -> through idx g w2 w3 ->
  through idx (fun m => g (f m)) w1 w3.
Proof.
  unfold through. intros H12 H23.
  rewrite H23, H12. apply modify_at_compose.
Qed.

Lemma through_modify (idx : nat) (f : AssistantMessage -> AssistantMessage)
      (w : World) :
  through idx f w (modify idx f w).
Proof. reflexivity. Qed.

Lemma through_assistant_at (idx : nat)
      (f : AssistantMessage -> AssistantMessage) (w w' : World) :
  through idx f w w' ->
  assistant_at idx w' = option_map f (assistant_at idx w).
Proof.
  unfold through, assistant_at. intros ->. rewrite modify_at_nth.
  destruct (nth_error (w_messages w) idx) as [[parts | m] |]; reflexivity.
Qed.

Lemma through_length (idx : nat)
      (f : AssistantMessage -> AssistantMessage) (w w' : World) :
  through idx f w w' ->
  List.length (w_messages w') = List.length (w_messages w).
Proof. unfold through. intros ->. apply modify_at_length. Qed.

(** [update_tool_part] and the part it looks for. *)
Lemma find_update_same (call_id : string) (state : ToolState)
      (output error : option string) (parts : list MessagePart) :
  find_tool_part call_id (update_parts call_id state output error parts)
  = option_map (set_state state output error)
               (find_tool_part call_id parts).
Proof.
  induction parts as [| [text syn | tc | text] parts IH]; simpl; trivial.
  destruct (String.eqb (tc_id tc) call_id) eqn:Heq; simpl.
  - rewrite Heq. reflexivity.
  - rewrite Heq. exact IH.
Qed.

Lemma find_update_other (id call_id : string) (state : ToolState)
      (output error : option string) (parts : list MessagePart) :
  id <> call_id ->
  find_tool_part id (update_parts call_id state output error parts)
  = find_tool_part id parts.
Proof.
  intros Hne.
  induction parts as [| [text syn | tc | text] parts IH]; simpl; trivial.
  destruct (String.eqb (tc_id tc) call_id) eqn:Heq; simpl.
  - apply String.eqb_eq in Heq.
    destruct (String.eqb_spec (tc_id tc) id) as [Hid | _]; [| reflexivity].
    congruence.
  - destruct (String.eqb (tc_id tc) id); [reflexivity | exact IH].
Qed.

Lemma keeps_same (ids : list string) : keeps ids (fun m => m).
Proof.
  intros m id. destruct (find_tool_part id (am_parts m)); auto.
Qed.

Lemma keeps_compose (ids : list string)
      (f g : AssistantMessage -> AssistantMessage) :
  keeps ids f -> keeps ids g -> keeps ids (fun m => g (f m)).
Proof.
  intros Hf Hg m id. specialize (Hf m id). specialize (Hg (f m) id).
  destruct (find_tool_part id (am_parts m)) as [tc |];
    destruct (find_tool_part id (am_parts (f m))) as [tc1 |];
    destruct (find_tool_part id (am_parts (g (f m)))) as [tc2 |];
    try contradiction; trivial.
  destruct Hf as (Hn1 & Hi1 & He1). destruct Hg as (Hn2 & Hi2 & He2).
  repeat split; try congruence.
  intros Hnot. rewrite (He2 Hnot). exact (He1 Hnot).
Qed.

Lemma keeps_more (ids ids' : list string)
      (f : AssistantMessage -> AssistantMessage) :
  incl ids ids' -> keeps ids f -> keeps ids' f.
Proof.
  intros Hincl Hf m id. specialize (Hf m id).
  destruct (find_tool_part id (am_parts m));
    destruct (find_tool_part id (am_parts (f m))); trivial.
  destruct Hf as (Hn & Hi & He). repeat split; trivial.
  intros Hnot. apply He. intros Hin. apply Hnot, Hincl, Hin.
Qed.

Lemma keeps_update (call_id : string) (state : ToolState)
      (output error : option string) :
  keeps [call_id] (update_tool_part call_id state output error).
Proof.
  intros m id. simpl.
  destruct (String.eqb_spec id call_id) as [-> | Hne].
  - rewrite find_update_same.
    destruct (find_tool_part call_id (am_parts m)); simpl; trivial.
    repeat split; trivial. intros Hnot. exfalso. apply Hnot. left. reflexivity.
  - rewrite find_update_other by exact Hne.
    destruct (find_tool_part id (am_parts m)); auto.
Qed.

End SessionFacts.

(* ================================================================== *)
(** * Tool execution *)

Section ToolFacts.
Import Session Loop.

Variable user : nat -> string -> string -> Response.
Variable tools : string -> option Tool.
Variable check_untyped :
  string -> json -> PermissionManager -> Result unit * PermissionManager.

Local Abbreviation try_tool := (Loop.try_tool user check_untyped).
Local Abbreviation _execute_tools :=
  (Loop._execute_tools user tools check_untyped).

Lemma log_grows_refl (w : World) : log_grows w w.
Proof. exists []. symmetry. apply app_nil_r. Qed.

Lemma log_grows_same (w w' : World) :
  w_executed w' = w_executed w -> log_grows w w'.
Proof. intros H. exists []. rewrite H. symmetry. apply app_nil_r. Qed.

Lemma log_grows_trans (w1 w2 w3 : World) :
  log_grows w1 w2 -> log_grows w2 w3 -> log_grows w1 w3.
Proof.
  intros [s1 H1] [s2 H2]. exists (s1 ++ s2)%list.
  rewrite H2, H1, app_assoc. reflexivity.
Qed.


(** One tool call touches its own tool part only and appends to the log. *)
Lemma try_tool_frame (idx : nat) (tool : Tool) (call_id : string)
      (tc : ToolCall) (w w' : World) (r : Result unit) :
  try_tool idx tool call_id tc w = (r, w') ->
  (exists f, keeps [call_id] f /\ through idx f w w') /\ log_grows w w'.
Proof.
  unfold Loop.try_tool. intros H.
  destruct (precheck user check_untyped tc (w_permission w))
    as [[preapproved | e] pm1].
  - destruct (ToolContext.execute user preapproved (tool (tc_input tc)) pm1)
      as [[output | e] pm2]; inversion H; subst; clear H.
    + split.
      * exists (update_tool_part call_id COMPLETED (Some output) None).
        split; [apply keeps_update | reflexivity].
      * eexists. reflexivity.
    + split.
      * exists (fun m => m). split; [apply keeps_same |].
        unfold through. simpl. symmetry. apply modify_at_same.
      * eexists. reflexivity.
  - inversion H; subst; clear H. split.
    + exists (fun m => m). split; [apply keeps_same |].
      unfold through. simpl. symmetry. apply modify_at_same.
    + exists []. simpl. symmetry. apply app_nil_r.
Qed.

Lemma keeps_head (call_id : string) (ids : list string)
      (f : AssistantMessage -> AssistantMessage) :
  keeps [call_id] f -> keeps (call_id :: ids) f.
Proof. apply keeps_more. intros x [<- | []]. left. reflexivity. Qed.

Lemma keeps_tail (call_id : string) (ids : list string)
      (f : AssistantMessage -> AssistantMessage) :
  keeps ids f -> keeps (call_id :: ids) f.
Proof. apply keeps_more. intros x Hin. right. exact Hin. Qed.

Lemma execute_tools_cons (idx : nat) (call_id : string) (tc : ToolCall)
      (calls : list (string * ToolCall)) (w : World) :
  _execute_tools idx ((call_id, tc) :: calls) w
  = match tools (tc_tool_name tc) with
    | None =>
        _execute_tools idx calls
          (modify idx
             (update_tool_part call_id ERROR None
                (Some ("Unknown tool: " ++ tc_tool_name tc)%string))
             w)
    | Some tool =>
        match _format_tool_summary tc with
        | Raise e => (Raise e, w)
        | Ok _ =>
            match try_tool idx tool call_id tc
                    (modify idx (update_tool_part call_id RUNNING None None)
                            w) with
            | (Ok _, w2) => _execute_tools idx calls w2
            | (Raise CancelledError, w2) => (Raise CancelledError, w2)
            | (Raise (Exception_ cls msg), w2) =>
                _execute_tools idx calls
                  (modify idx
                     (update_tool_part call_id ERROR None (Some msg)) w2)
            | (Raise e, w2) =>
                (Raise e,
                 modify idx
                   (update_tool_part call_id ERROR None (Some (exn_str e)))
                   w2)
            end
        end
    end.
Proof. reflexivity. Qed.

(** The tool calls of a step touch their own tool parts only. *)
Lemma execute_tools_frame (idx : nat) (calls : list (string * ToolCall)) :
  forall (w w' : World) (r : Result unit),
    _execute_tools idx calls w = (r, w') ->
    (exists f, keeps (map fst calls) f /\ through idx f w w')
    /\ log_grows w w'.
Proof.
  induction calls as [| [call_id tc] calls IH]; intros w w' r H.
  - inversion H; subst. split; [| apply log_grows_refl].
    exists (fun m => m). split; [apply keeps_same | apply through_refl].
  - rewrite execute_tools_cons in H. simpl map.
    destruct (tools (tc_tool_name tc)) as [tool |].
    + destruct (_format_tool_summary tc) as [[] | e].
      * destruct (try_tool idx tool call_id tc
                    (modify idx (update_tool_part call_id RUNNING None None)
                            w))
          as [[[] | e] w2] eqn:Htry.
        -- apply try_tool_frame in Htry.
           destruct Htry as [(f1 & Hk1 & Ht1) Hlog1].
           apply IH in H. destruct H as [(f2 & Hk2 & Ht2) Hlog2].
           split.
           ++ eexists. split.
              ** apply keeps_compose; [| apply keeps_tail; exact Hk2].
                 apply keeps_compose; [| apply keeps_head; exact Hk1].
                 apply keeps_head, keeps_update.
              ** eapply through_trans; [| exact Ht2].
                 eapply through_trans; [| exact Ht1].
                 apply through_modify.
           ++ eapply log_grows_trans; [| exact Hlog2].
              destruct Hlog1 as [s Hs]. exists s. exact Hs.
        -- apply try_tool_frame in Htry.
           destruct Htry as [(f1 & Hk1 & Ht1) Hlog1].
           assert (Hrun :
                     exists f, keeps (call_id :: map fst calls) f
                               /\ through idx f w w2).
           { eexists. split.
             - apply keeps_compose; [| apply keeps_head; exact Hk1].
               apply keeps_head, keeps_update.
             - eapply through_trans; [| exact Ht1]. apply through_modify. }
           destruct Hrun as (f0 & Hk0 & Ht0).
           destruct e as [msg | msg | | cls msg].
           ++ inversion H; subst; clear H. split.
              ** eexists. split.
                 --- apply keeps_compose; [exact Hk0 |].
                     apply keeps_head, keeps_update.
                 --- eapply through_trans; [exact Ht0 |].
                     apply through_modify.
              ** destruct Hlog1 as [s Hs]. exists s. exact Hs.
           ++ inversion H; subst; clear H. split.
              ** eexists. split.
                 --- apply keeps_compose; [exact Hk0 |].
                     apply keeps_head, keeps_update.
                 --- eapply through_trans; [exact Ht0 |].
                     apply through_modify.
              ** destruct Hlog1 as [s Hs]. exists s. exact Hs.
           ++ inversion H; subst; clear H. split.
              ** exists f0. split; assumption.
              ** destruct Hlog1 as [s Hs]. exists s. exact Hs.
           ++ apply IH in H. destruct H as [(f2 & Hk2 & Ht2) Hlog2].
              split.
              ** eexists. split.
                 --- apply keeps_compose; [| apply keeps_tail; exact Hk2].
                     apply keeps_compose; [exact Hk0 |].
                     apply keeps_head, keeps_update.
                 --- eapply through_trans; [| exact Ht2].
                     eapply through_trans; [exact Ht0 |].
                     apply through_modify.
              ** eapply log_grows_trans; [| exact Hlog2].
                 destruct Hlog1 as [s Hs]. exists s. exact Hs.
      * inversion H; subst; clear H. split; [| apply log_grows_refl].
        exists (fun m => m). split; [apply keeps_same | apply through_refl].
    + apply IH in H. destruct H as [(f2 & Hk2 & Ht2) Hlog2]. split.
      * eexists. split.
        -- apply keeps_compose; [| apply keeps_tail; exact Hk2].
           apply keeps_head, keeps_update.
        -- eapply through_trans; [| exact Ht2]. apply through_modify.
      * eapply log_grows_trans; [| exact Hlog2].
        apply log_grows_same. reflexivity.
Qed.

(** Calls that ran to their end can be split off. *)
Lemma execute_tools_app (idx : nat) (pre rest : list (string * ToolCall)) :
  forall (w w_pre : World),
    _execute_tools idx pre w = (Ok tt, w_pre) ->
    _execute_tools idx (pre ++ rest) w = _execute_tools idx rest w_pre.
Proof.
  induction pre as [| [call_id tc] pre IH]; intros w w_pre H.
  - inversion H; subst. reflexivity.
  - rewrite <- app_comm_cons, execute_tools_cons.
    rewrite execute_tools_cons in H.
    destruct (tools (tc_tool_name tc)) as [tool |]; [| exact (IH _ _ H)].
    destruct (_format_tool_summary tc) as [[] | e]; [| discriminate].
    destruct (try_tool idx tool call_id tc
                (modify idx (update_tool_part call_id RUNNING None None) w))
      as [[[] | e] w2]; [exact (IH _ _ H) |].
    destruct e as [msg | msg | | cls msg]; try discriminate.
    exact (IH _ _ H).
Qed.

End ToolFacts.

Section UnknownTools.
Import Session Loop.

Variable user : nat -> string -> string -> Response.
Variable tools : string -> option Tool.
Variable check_untyped :
  string -> json -> PermissionManager -> Result unit * PermissionManager.

Local Abbreviation _execute_tools :=
  (Loop._execute_tools user tools check_untyped).

(** A step whose tool names are all unknown runs to its end. *)
Lemma execute_tools_all_unknown (idx : nat)
      (calls : list (string * ToolCall)) :
  (forall entry, In entry calls -> tools (tc_tool_name (snd entry)) = None) ->
  forall w, fst (_execute_tools idx calls w) = Ok tt.
Proof.
  induction calls as [| [call_id tc] calls IH]; intros Hall w.
  - reflexivity.
  - rewrite execute_tools_cons.
    pose proof (Hall (call_id, tc) (or_introl eq_refl)) as Hhead.
    simpl in Hhead. rewrite Hhead.
    apply IH. intros entry Hin. apply Hall. right. exact Hin.
Qed.

(** The tool part of a call survives the calls of the step, and all of it
    survives the calls with other ids. *)
Lemma execute_tools_keeps_part (idx : nat) (calls : list (string * ToolCall))
      (w w' : World) (r : Result unit) (m : AssistantMessage)
      (id : string) (tc : ToolCall) :
  _execute_tools idx calls w = (r, w') ->
  assistant_at idx w = Some m ->
  find_tool_part id (am_parts m) = Some tc ->
  exists m' tc',
    assistant_at idx w' = Some m'
    /\ find_tool_part id (am_parts m') = Some tc'
    /\ tc_tool_name tc' = tc_tool_name tc
    /\ tc_input tc' = tc_input tc
    /\ (~ In id (map fst calls) -> tc' = tc).
Proof.
  intros Hrun Hm Hfind.
  destruct (@execute_tools_frame user tools check_untyped idx calls
                                 w w' r Hrun)
    as [(f & Hkeeps & Hthrough) _].
  apply through_assistant_at in Hthrough. rewrite Hm in Hthrough.
  specialize (Hkeeps m id). rewrite Hfind in Hkeeps.
  exists (f m).
  destruct (find_tool_part id (am_parts (f m))) as [tc' |];
    [| contradiction].
  exists tc'. destruct Hkeeps as (Hn & Hi & He). auto.
Qed.

End UnknownTools.

(** C10. A requested tool call whose tool name is not in the registry --
    reached because the calls before it ran to their end -- is recorded in
    its tool part with state [ERROR] and the message [Unknown tool: <name>];
    nothing is raised and nothing is executed for it, the loop goes on with
    the remaining calls of the step, the record is still there when they are
    done, and a step made of unknown tools only returns normally. *)
Theorem unknown_tool_is_recorded_and_skipped :
  forall (user : nat -> string -> string -> Response)
         (tools : string -> option Tool)
         (check_untyped :
            string -> json -> PermissionManager
            -> Result unit * PermissionManager)
         (idx : nat) (pre post : list (string * ToolCall))
         (call_id : string) (tc tc0 : ToolCall) (w w_pre : World)
         (m : AssistantMessage),
    tools (tc_tool_name tc) = None ->
    Loop._execute_tools user tools check_untyped idx pre w = (Ok tt, w_pre) ->
    Session.assistant_at idx w = Some m ->
    Session.find_tool_part call_id (am_parts m) = Some tc0 ->
    ~ In call_id (map fst post) ->
    let message := ("Unknown tool: " ++ tc_tool_name tc)%string in
    let recorded :=
      Session.modify idx
        (Session.update_tool_part call_id ERROR None (Some message)) w_pre in
    let result :=
      Loop._execute_tools user tools check_untyped idx
                          (pre ++ (call_id, tc) :: post) w in
    result = Loop._execute_tools user tools check_untyped idx post recorded
    /\ w_executed recorded = w_executed w_pre
    /\ (exists m' tc',
           Session.assistant_at idx (snd result) = Some m'
           /\ Session.find_tool_part call_id (am_parts m') = Some tc'
           /\ tc_state tc' = ERROR
           /\ tc_error tc' = Some message)
    /\ ((forall entry, In entry post ->
                       tools (tc_tool_name (snd entry)) = None) ->
        fst result = Ok tt).
Proof.
  intros user tools check_untyped idx pre post call_id tc tc0 w w_pre m
         Hunknown Hpre Hm Hfind Hfresh message recorded result.
  assert (Hresult :
            result
            = Loop._execute_tools user tools check_untyped idx post recorded).
  { unfold result.
    rewrite (@execute_tools_app user tools check_untyped idx pre
                                ((call_id, tc) :: post) w w_pre Hpre).
    rewrite execute_tools_cons, Hunknown. reflexivity. }
  split; [exact Hresult |]. split; [reflexivity |]. split.
  - destruct (@execute_tools_keeps_part user tools check_untyped idx pre
                                        w w_pre (Ok tt) m call_id tc0
                                        Hpre Hm Hfind)
      as (m1 & tc1 & Hm1 & Hfind1 & _).
    assert (Hrec : Session.assistant_at idx recorded
                   = Some (Session.update_tool_part call_id ERROR None
                                                    (Some message) m1)).
    { rewrite (@through_assistant_at idx _ w_pre recorded
                                     (through_modify idx _ w_pre)), Hm1.
      reflexivity. }
    assert (Hfind2 :
              Session.find_tool_part call_id
                (am_parts (Session.update_tool_part call_id ERROR None
                                                    (Some message) m1))
              = Some (Session.set_state ERROR None (Some message) tc1)).
    { simpl. rewrite find_update_same, Hfind1. reflexivity. }
    destruct (Loop._execute_tools user tools check_untyped idx post recorded)
      as [r w'] eqn:Hpost.
    destruct (@execute_tools_keeps_part user tools check_untyped idx post
                                        recorded w' r _ call_id _
                                        Hpost Hrec Hfind2)
      as (m' & tc' & Hm' & Hfind' & _ & _ & Hsame).
    specialize (Hsame Hfresh). subst tc'.
    exists m', (Session.set_state ERROR None (Some message) tc1).
    rewrite Hresult. simpl. repeat split; trivial.
  - intros Hall. rewrite Hresult.
    apply execute_tools_all_unknown. exact Hall.
Qed.

(* ================================================================== *)
(** * Stream assembly *)

Section ChunkFacts.
Import Session Loop.

Variable llm_user : nat -> LLMChoice.

Local Abbreviation on_chunk := (Loop.on_chunk llm_user).
Local Abbreviation chunk_loop := (Loop.chunk_loop llm_user).

Lemma dict_get_set_same (key : string) (tc : ToolCall)
      (d : list (string * ToolCall)) :
  dict_get key (dict_set key tc d) = Some tc.
Proof.
  induction d as [| [k v] d IH]; simpl.
  - rewrite String.eqb_refl. reflexivity.
  - destruct (String.eqb k key) eqn:Heq; simpl; rewrite Heq; trivial.
Qed.















End ChunkFacts.

Lemma dict_get_parse_all (json_loads : string -> option json) (id : string)
      (d : list (string * ToolCall)) :
  dict_get id (Loop.parse_all json_loads d)
  = option_map (Loop.parse_args json_loads) (dict_get id d).
Proof.
  induction d as [| [k tc] d IH]; simpl; trivial.
  destruct (String.eqb k id); [reflexivity | exact IH].
Qed.


Section AssemblyFacts.
Import Session Loop.

Variable user : nat -> string -> string -> Response.
Variable json_loads : string -> option json.
Variable tools : string -> option Tool.
Variable check_untyped :
  string -> json -> PermissionManager -> Result unit * PermissionManager.

Lemma find_tool_part_app (id : string) (a b : list MessagePart) :
  find_tool_part id (a ++ b)
  = match find_tool_part id a with
    | Some tc => Some tc
    | None => find_tool_part id b
    end.
Proof.
  induction a as [| [text syn | tc | text] a IH]; simpl; trivial.
  destruct (String.eqb (tc_id tc) id); [reflexivity | exact IH].
Qed.


(** The tool parts of a well-formed dict are found under its keys. *)
Lemma find_tool_part_dict (id : string) (d : list (string * ToolCall)) :
  Forall (fun entry => tc_id (snd entry) = fst entry) d ->
  find_tool_part id (map (fun entry => ToolPart (snd entry)) d)
  = dict_get id d.
Proof.
  induction 1 as [| [k tc] d Hk _ IH]; simpl; trivial.
  simpl in Hk. rewrite Hk.
  destruct (String.eqb k id); [reflexivity | exact IH].
Qed.

Lemma dict_get_missing (id : string) (d : list (string * ToolCall)) :
  ~ In id (map fst d) -> dict_get id d = None.
Proof.
  induction d as [| [k tc] d IH]; simpl; intros Hnot; trivial.
  destruct (String.eqb_spec k id) as [-> | _].
  - exfalso. apply Hnot. left. reflexivity.
  - apply IH. intros Hin. apply Hnot. right. exact Hin.
Qed.

Lemma dict_get_middle (id : string) (tc : ToolCall)
      (pre post : list (string * ToolCall)) :
  NoDup (map fst (pre ++ (id, tc) :: post)) ->
  dict_get id (pre ++ (id, tc) :: post) = Some tc.
Proof.
  induction pre as [| [k v] pre IH]; simpl; intros Hnodup.
  - rewrite String.eqb_refl. reflexivity.
  - inversion Hnodup as [| ? ? Hnotin Hrest]; subst.
    destruct (String.eqb_spec k id) as [-> | _].
    + exfalso. apply Hnotin. rewrite map_app. apply in_or_app.
      right. left. reflexivity.
    + exact (IH Hrest).
Qed.

Lemma parse_all_keys (d : list (string * ToolCall)) :
  map fst (parse_all json_loads d) = map fst d.
Proof. unfold parse_all. rewrite map_map. reflexivity. Qed.




Lemma add_all_parts (calls : list (string * ToolCall)) :
  forall m,
    am_parts (add_all calls m)
    = (am_parts m ++ map (fun entry => ToolPart (snd entry)) calls)%list.
Proof.
  induction calls as [| entry calls IH]; intros m; simpl.
  - symmetry. apply app_nil_r.
  - unfold add_all in *. simpl. rewrite IH. simpl.
    rewrite <- app_assoc. reflexivity.
Qed.

Lemma add_tool_parts_through (idx : nat)
      (calls : list (string * ToolCall)) :
  forall w, through idx (add_all calls) w (add_tool_parts idx calls w).
Proof.
  induction calls as [| entry calls IH]; intros w.
  - apply through_refl.
  - unfold add_tool_parts, add_all. simpl.
    exact (through_trans idx _ _ _ _ _
             (through_modify idx (add_tool_part (snd entry)) w)
             (IH (modify idx (add_tool_part (snd entry)) w))).
Qed.

Lemma add_text_if_any_through (idx : nat) (text : string) (w : World) :
  through idx (add_text_maybe text) w (add_text_if_any idx text w).
Proof.
  unfold add_text_if_any, add_text_maybe.
  destruct (String.eqb text ""); [apply through_refl | reflexivity].
Qed.

Lemma add_text_if_any_log (idx : nat) (text : string) (w : World) :
  w_executed (add_text_if_any idx text w) = w_executed w.
Proof. unfold add_text_if_any. destruct (String.eqb text ""); reflexivity. Qed.

Lemma add_tool_parts_log (idx : nat) (calls : list (string * ToolCall)) :
  forall w, w_executed (add_tool_parts idx calls w) = w_executed w.
Proof.
  induction calls as [| entry calls IH]; intros w; [reflexivity |].
  unfold add_tool_parts in *. simpl. rewrite IH. reflexivity.
Qed.





End AssemblyFacts.

Section RawInputFacts.
Import Session Loop.

Variable user : nat -> string -> string -> Response.
Variable json_loads : string -> option json.
Variable tools : string -> option Tool.
Variable check_untyped :
  string -> json -> PermissionManager -> Result unit * PermissionManager.

Local Abbreviation try_tool := (Loop.try_tool user check_untyped).
Local Abbreviation _execute_tools :=
  (Loop._execute_tools user tools check_untyped).
Local Abbreviation after_stream :=
  (Loop.after_stream user json_loads tools check_untyped).



End RawInputFacts.


(* ================================================================== *)
(** * One step and one turn of the loop *)

Section StepFacts.
Import Session Loop.

Variable user : nat -> string -> string -> Response.
Variable llm_user : nat -> LLMChoice.
Variable json_loads : string -> option json.
Variable tools : string -> option Tool.
Variable check_untyped :
  string -> json -> PermissionManager -> Result unit * PermissionManager.

Local Abbreviation on_chunk := (Loop.on_chunk llm_user).
Local Abbreviation chunk_loop := (Loop.chunk_loop llm_user).
Local Abbreviation _execute_tools :=
  (Loop._execute_tools user tools check_untyped).
Local Abbreviation after_stream :=
  (Loop.after_stream user json_loads tools check_untyped).
Local Abbreviation _process_stream :=
  (Loop._process_stream user llm_user json_loads tools check_untyped).
Local Abbreviation run_loop :=
  (Loop.run_loop user llm_user json_loads tools check_untyped).

Lemma touches_refl (idx : nat) (w : World) : touches idx w w.
Proof. exists (fun m => m). apply through_refl. Qed.

Lemma touches_trans (idx : nat) (w1 w2 w3 : World) :
  touches idx w1 w2 -> touches idx w2 w3 -> touches idx w1 w3.
Proof.
  intros [f Hf] [g Hg]. exists (fun m => g (f m)).
  exact (through_trans idx f g w1 w2 w3 Hf Hg).
Qed.

Lemma touches_same (idx : nat) (w w' : World) :
  w_messages w' = w_messages w -> touches idx w w'.
Proof.
  intros H. exists (fun m => m). unfold through.
  rewrite H. symmetry. apply modify_at_same.
Qed.

Lemma touches_modify (idx : nat)
      (f : AssistantMessage -> AssistantMessage) (w : World) :
  touches idx w (modify idx f w).
Proof. exists f. reflexivity. Qed.


Lemma touches_length (idx : nat) (w w' : World) :
  touches idx w w' ->
  List.length (w_messages w') = List.length (w_messages w).
Proof. intros [f Hf]. exact (through_length idx f w w' Hf). Qed.

Lemma on_chunk_touches (idx : nat) (c : StreamChunk) (l : Local)
      (w w' : World) (exit : LoopExit) :
  on_chunk idx c l w = (exit, w') -> touches idx w w'.
Proof.
  unfold Loop.on_chunk. intros H.
  destruct (String.eqb (ch_type c) "text").
  { destruct (ch_content c); inversion H; subst; apply touches_refl. }
  destruct (String.eqb (ch_type c) "tool_call").
  { destruct (ch_tool_call_id c); [destruct (ch_tool_name c) |];
      inversion H; subst; apply touches_refl. }
  destruct (String.eqb (ch_type c) "tool_call_delta").
  { destruct (ch_tool_call_id c); inversion H; subst; apply touches_refl. }
  destruct (String.eqb (ch_type c) "error").
  { inversion H; subst; apply touches_refl. }
  destruct (String.eqb (ch_type c) "finish").
  { assert (Hw1 :
              forall w1,
                w1 = match ch_usage c with
                     | Some (_ :: _ as usage) =>
                         modify idx
                           (set_tokens
                              (mkTokens (usage_get "input_tokens" usage)
                                        (usage_get "output_tokens" usage)
                                        (usage_get "total_tokens" usage)))
                           w
                     | _ => w
                     end ->
                touches idx w w1).
    { intros w1 ->. destruct (ch_usage c) as [[| kv usage] |];
        try apply touches_refl. apply touches_modify. }
    destruct (is_reason (ch_finish_reason c) "error").
    - destruct (llm_user _); inversion H; subst;
        (eapply touches_trans; [apply Hw1; reflexivity |]);
        apply touches_same; reflexivity.
    - inversion H; subst. apply Hw1. reflexivity. }
  inversion H; subst. apply touches_refl.
Qed.

Lemma chunk_loop_touches (idx : nat) (chunks : list StreamChunk)
      (ending : option Exn) :
  forall (l : Local) (w w' : World) (exit : LoopExit),
    chunk_loop idx chunks ending l w = (exit, w') -> touches idx w w'.
Proof.
  induction chunks as [| c chunks IH]; intros l w w' exit H; simpl in H.
  - destruct ending; inversion H; subst; apply touches_refl.
  - destruct (w_aborted w); [inversion H; subst; apply touches_refl |].
    destruct (on_chunk idx c l w) as [[l1 | l1 | e l1] w1] eqn:Hstep;
      apply on_chunk_touches in Hstep.
    + eapply touches_trans; [exact Hstep | exact (IH _ _ _ _ H)].
    + inversion H; subst. exact Hstep.
    + inversion H; subst. exact Hstep.
Qed.

Lemma execute_tools_touches (idx : nat) (calls : list (string * ToolCall))
      (w w' : World) (r : Result unit) :
  _execute_tools idx calls w = (r, w') -> touches idx w w'.
Proof.
  intros H.
  destruct (execute_tools_frame user tools check_untyped idx calls w w' r H)
    as [(f & _ & Hf) _].
  exists f. exact Hf.
Qed.

Lemma add_text_if_any_touches (idx : nat) (text : string) (w : World) :
  touches idx w (add_text_if_any idx text w).
Proof. eexists. apply add_text_if_any_through. Qed.

Lemma after_stream_touches (idx : nat) (l : Local) (w w' : World)
      (r : Result (option string)) :
  after_stream idx l w = (r, w') -> touches idx w w'.
Proof.
  unfold Loop.after_stream. intros H.
  destruct (tool_calls l) as [| entry calls].
  - inversion H; subst. apply add_text_if_any_touches.
  - destruct (_execute_tools idx _ _) as [r2 w2] eqn:Hrun.
    apply execute_tools_touches in Hrun.
    assert (Hw : w' = w2) by (destruct r2; inversion H; reflexivity).
    subst w'.
    eapply touches_trans; [apply add_text_if_any_touches |].
    eapply touches_trans; [| exact Hrun].
    eexists. apply add_tool_parts_through.
Qed.

Lemma on_cancelled_touches (idx : nat) (l : Local) (w : World) :
  touches idx w (on_cancelled idx l w).
Proof.
  unfold on_cancelled.
  eapply touches_trans; [| apply add_text_if_any_touches].
  apply touches_same. reflexivity.
Qed.

Lemma process_stream_nil (idx : nat) (w : World) :
  _process_stream [] idx w
  = let '(r, w') := after_stream idx start w in (r, [], w').
Proof. reflexivity. Qed.

Lemma process_stream_cons (s : Stream) (streams : list Stream) (idx : nat)
      (w : World) :
  _process_stream (s :: streams) idx w
  = match chunk_loop idx (st_chunks s) (st_ending s) start w with
    | (Completed l, w1) =>
        let '(r, w2) := after_stream idx l w1 in (r, streams, w2)
    | (Retry l, w1) =>
        match _process_stream streams idx w1 with
        | (Raise CancelledError, rest, w2) =>
            (Raise CancelledError, rest, on_cancelled idx l w2)
        | other => other
        end
    | (Raised CancelledError l, w1) =>
        (Raise CancelledError, streams, on_cancelled idx l w1)
    | (Raised e l, w1) => (Raise e, streams, w1)
    end.
Proof. reflexivity. Qed.

Lemma process_stream_touches (streams : list Stream) (idx : nat) :
  forall (w w' : World) (r : Result (option string)) (rest : list Stream),
    _process_stream streams idx w = (r, rest, w') -> touches idx w w'.
Proof.
  induction streams as [| s streams IH]; intros w w' r rest H;
    [rewrite process_stream_nil in H | rewrite process_stream_cons in H].
  - destruct (after_stream idx start w) as [r0 w0] eqn:Hafter.
    inversion H; subst. exact (after_stream_touches _ _ _ _ _ Hafter).
  - destruct (chunk_loop idx (st_chunks s) (st_ending s) start w)
      as [[l | l | e l] w1] eqn:Hloop;
      apply chunk_loop_touches in Hloop.
    + destruct (after_stream idx l w1) as [r0 w0] eqn:Hafter.
      inversion H; subst.
      exact (touches_trans _ _ _ _ Hloop
               (after_stream_touches _ _ _ _ _ Hafter)).
    + destruct (_process_stream streams idx w1) as [[r0 rest0] w0] eqn:Hrec.
      apply IH in Hrec.
      assert (Hto : touches idx w w0)
        by exact (touches_trans _ _ _ _ Hloop Hrec).
      destruct r0 as [reason | e]; [inversion H; subst; exact Hto |].
      destruct e; inversion H; subst; try exact Hto.
      exact (touches_trans _ _ _ _ Hto (on_cancelled_touches _ _ _)).
    + destruct e; inversion H; subst; try exact Hloop.
      exact (touches_trans _ _ _ _ Hloop (on_cancelled_touches _ _ _)).
Qed.



End StepFacts.

Section TurnFacts.
Import Session Loop.

Variable user : nat -> string -> string -> Response.
Variable llm_user : nat -> LLMChoice.
Variable json_loads : string -> option json.
Variable tools : string -> option Tool.
Variable check_untyped :
  string -> json -> PermissionManager -> Result unit * PermissionManager.

Local Abbreviation _process_stream :=
  (Loop._process_stream user llm_user json_loads tools check_untyped).
Local Abbreviation run_loop :=
  (Loop.run_loop user llm_user json_loads tools check_untyped).

Lemma run_loop_step (fuel step : nat) (streams : list Stream)
      (assistant_msg : option nat) (w : World) :
  run_loop (S fuel) step streams assistant_msg w
  = if w_aborted w then (mkRan ByCondition step assistant_msg, w)
    else
      let idx := List.length (w_messages w) in
      let w1 := snd (create_assistant_message w) in
      match _process_stream streams idx w1 with
      | (Ok reason, streams', w2) =>
          let w3 :=
            modify idx (fun m => set_completed (set_finish_reason reason m))
                   w2 in
          if negb (is_reason reason "tool_calls") then
            (mkRan ByReturn (S step) (Some idx), w3)
          else if _detect_doom_loop (w_messages w3) then
            match PermissionCheck.check user "doom_loop" ["*"]
                                        (w_permission w3) with
            | (Ok _, pm) =>
                run_loop fuel (S step) streams' (Some idx)
                         (set_permission pm w3)
            | (Raise (PermissionRejectedError _), pm) =>
                (mkRan ByReturn (S step) (Some idx),
                 finish idx None "stopped" (set_permission pm w3))
            | (Raise e, pm) =>
                (mkRan ByReturn (S step) (Some idx),
                 on_exception idx e (set_permission pm w3))
            end
          else run_loop fuel (S step) streams' (Some idx) w3
      | (Raise e, _, w2) =>
          (mkRan ByReturn (S step) (Some idx), on_exception idx e w2)
      end.
Proof. reflexivity. Qed.

(** The message a step creates. *)
Lemma created_message (w : World) :
  assistant_at (List.length (w_messages w))
               (snd (create_assistant_message w))
  = Some (mkAssistant [] None None empty_tokens false)
  /\ List.length (w_messages (snd (create_assistant_message w)))
     = S (List.length (w_messages w)).
Proof.
  unfold create_assistant_message, assistant_at. simpl. split.
  - rewrite nth_error_app2 by apply Nat.le_refl.
    rewrite Nat.sub_diag. reflexivity.
  - rewrite length_app. simpl. lia.
Qed.

(** After a step whose stream was processed, the message of the step is
    the last of the session and carries the finish reason of the step. *)
Lemma step_message (streams streams' : list Stream) (w w2 : World)
      (reason : option string) :
  _process_stream streams (List.length (w_messages w))
                  (snd (create_assistant_message w))
  = (Ok reason, streams', w2) ->
  let idx := List.length (w_messages w) in
  let w3 :=
    modify idx (fun m => set_completed (set_finish_reason reason m)) w2 in
  S idx = List.length (w_messages w3)
  /\ exists m, assistant_at idx w3 = Some m /\ am_finish_reason m = reason.
Proof.
  intros Hps idx w3.
  apply process_stream_touches in Hps. destruct Hps as [f Hf].
  destruct (created_message w) as [Hm Hlen]. split.
  - unfold w3. rewrite (through_length idx _ w2 _ (through_modify idx _ w2)).
    rewrite (through_length idx f _ w2 Hf). symmetry. exact Hlen.
  - eexists. split.
    + unfold w3.
      rewrite (through_assistant_at idx _ w2 _ (through_modify idx _ w2)).
      rewrite (through_assistant_at idx f _ w2 Hf).
      fold idx in Hm. rewrite Hm. reflexivity.
    + reflexivity.
Qed.

Lemma is_reason_eq (reason : option string) (text : string) :
  is_reason reason text = true -> reason = Some text.
Proof.
  destruct reason as [s |]; simpl; [| discriminate].
  intros H. apply String.eqb_eq in H. congruence.
Qed.

(** A loop left through its condition after all its steps returns the
    message of the last step, whose finish reason is that step's. *)
Lemma run_loop_by_condition (fuel : nat) :
  forall (step : nat) (streams : list Stream) (assistant_msg : option nat)
         (w w' : World) (r : Ran),
    run_loop fuel step streams assistant_msg w = (r, w') ->
    ran_exit r = ByCondition ->
    ran_steps r = step + fuel ->
    0 < fuel ->
    exists idx m,
      ran_result r = Some idx
      /\ S idx = List.length (w_messages w')
      /\ assistant_at idx w' = Some m
      /\ am_finish_reason m = Some "tool_calls".
Proof.
  induction fuel as [| fuel IH];
    intros step streams assistant_msg w w' r Hrun Hexit Hsteps Hpos;
    [lia |].
  rewrite run_loop_step in Hrun.
  destruct (w_aborted w).
  { inversion Hrun; subst. simpl in Hsteps. lia. }
  cbv zeta in Hrun.
  destruct (_process_stream streams (List.length (w_messages w))
                            (snd (create_assistant_message w)))
    as [[[reason | e] streams'] w2] eqn:Hps;
    [| inversion Hrun; subst; discriminate].
  destruct (step_message streams streams' w w2 reason Hps)
    as (Hlen & m & Hm & Hreason).
  destruct (is_reason reason "tool_calls") eqn:Hr;
    [| inversion Hrun; subst; discriminate].
  apply is_reason_eq in Hr. simpl negb in Hrun. cbv iota in Hrun.
  assert (Hnext :
            forall w4,
              w_messages w4
              = w_messages
                  (modify (List.length (w_messages w))
                     (fun m => set_completed (set_finish_reason reason m))
                     w2) ->
              run_loop fuel (S step) streams'
                       (Some (List.length (w_messages w))) w4 = (r, w') ->
              exists idx m0,
                ran_result r = Some idx
                /\ S idx = List.length (w_messages w')
                /\ assistant_at idx w' = Some m0
                /\ am_finish_reason m0 = Some "tool_calls").
  { intros w4 Hsame Hrec. destruct fuel as [| fuel'].
    - simpl in Hrec. inversion Hrec; subst r w'.
      exists (List.length (w_messages w)), m. simpl.
      unfold assistant_at in *. rewrite Hsame.
      repeat split; trivial. congruence.
    - apply (IH (S step) streams' _ w4 w' r Hrec Hexit); lia. }
  destruct (_detect_doom_loop _).
  - destruct (PermissionCheck.check user "doom_loop" ["*"] _)
      as [[[] | e] pm].
    + eapply Hnext; [| exact Hrun]. reflexivity.
    + destruct e; inversion Hrun; subst; discriminate.
  - eapply Hnext; [| exact Hrun]. reflexivity.
Qed.

End TurnFacts.

Section PermissionErrorFacts.
Import Session Loop.

Variable user : nat -> string -> string -> Response.
Variable llm_user : nat -> LLMChoice.
Variable json_loads : string -> option json.
Variable tools : string -> option Tool.
Variable check_untyped :
  string -> json -> PermissionManager -> Result unit * PermissionManager.

Local Abbreviation try_tool := (Loop.try_tool user check_untyped).
Local Abbreviation _execute_tools :=
  (Loop._execute_tools user tools check_untyped).
Local Abbreviation after_stream :=
  (Loop.after_stream user json_loads tools check_untyped).

(** A permission error of one call ends [_execute_tools] at once: the
    calls after it play no part. *)
Lemma execute_tools_stops (idx : nat) (pre post : list (string * ToolCall))
      (call_id : string) (tc : ToolCall) (tool : Tool)
      (w w_pre w_t : World) (e : Exn) :
  _execute_tools idx pre w = (Ok tt, w_pre) ->
  tools (tc_tool_name tc) = Some tool ->
  _format_tool_summary tc = Ok tt ->
  try_tool idx tool call_id tc
           (modify idx (update_tool_part call_id RUNNING None None) w_pre)
  = (Raise e, w_t) ->
  permission_error e ->
  _execute_tools idx (pre ++ (call_id, tc) :: post) w
  = (Raise e,
     modify idx (update_tool_part call_id ERROR None (Some (exn_str e))) w_t).
Proof.
  intros Hpre Htool Hsummary Htry Hperm.
  rewrite (execute_tools_app user tools check_untyped idx pre _ w w_pre Hpre).
  rewrite execute_tools_cons, Htool, Hsummary, Htry.
  destruct e; simpl in Hperm; try contradiction; reflexivity.
Qed.

Lemma after_stream_raises (idx : nat) (l : Local)
      (pre post : list (string * ToolCall))
      (call_id : string) (tc : ToolCall) (tool : Tool)
      (w w_pre w_t : World) (e : Exn) :
  parse_all json_loads (tool_calls l) = (pre ++ (call_id, tc) :: post)%list ->
  _execute_tools idx pre
    (add_tool_parts idx (parse_all json_loads (tool_calls l))
       (add_text_if_any idx (current_text l) w))
  = (Ok tt, w_pre) ->
  tools (tc_tool_name tc) = Some tool ->
  _format_tool_summary tc = Ok tt ->
  try_tool idx tool call_id tc
           (modify idx (update_tool_part call_id RUNNING None None) w_pre)
  = (Raise e, w_t) ->
  permission_error e ->
  after_stream idx l w
  = (Raise e,
     modify idx (update_tool_part call_id ERROR None (Some (exn_str e))) w_t).
Proof.
  intros Hparse Hpre Htool Hsummary Htry Hperm.
  unfold Loop.after_stream.
  destruct (tool_calls l) as [| entry calls] eqn:Hcalls.
  - simpl in Hparse. exfalso. exact (app_cons_not_nil _ _ _ Hparse).
  - rewrite Hparse in *.
    rewrite (execute_tools_stops idx pre post call_id tc tool _ w_pre w_t e
                                 Hpre Htool Hsummary Htry Hperm).
    reflexivity.
Qed.

End PermissionErrorFacts.


(* ================================================================== *)
(** * The turn: maximum of steps, permission errors *)

(** C4, counterexample: a turn limited to one step, whose step ends with a
    tool call, leaves the loop through its condition with the step counter
    at the maximum; the message it returns carries the finish reason
    [tool_calls] of that step, not [max-steps-reached]. *)
Lemma max_steps_reason_is_tool_calls :
  Loop.ran_exit (fst one_step_turn) = Loop.ByCondition
  /\ Loop.ran_steps (fst one_step_turn) = 1
  /\ (exists m,
         Loop.returned one_step_turn = Some m
         /\ am_finish_reason m = Some "tool_calls")
  /\ ~ (exists m,
           Loop.returned one_step_turn = Some m
           /\ am_finish_reason m = Some "max-steps-reached").
Proof.
  split; [reflexivity |]. split; [reflexivity |]. split.
  - eexists. split; [vm_compute; reflexivity | reflexivity].
  - intros (m & Hm & Hreason). vm_compute in Hm.
    inversion Hm; subst m. discriminate.
Qed.

(** C4, as the code has it: when the loop of a turn with a positive maximum
    number of steps is left because the step counter has reached that
    maximum, [run] returns the assistant message of the last step, which is
    the last message of the session; its finish reason is the [tool_calls]
    of that step: the code sets no reason of its own on this path. *)
Theorem max_steps_returns_last_message_unmarked :
  forall (user : nat -> string -> string -> Response)
         (llm_user : nat -> LLMChoice)
         (json_loads : string -> option json)
         (tools : string -> option Tool)
         (check_untyped :
            string -> json -> PermissionManager
            -> Result unit * PermissionManager)
         (max_steps : Z) (user_input : string)
         (streams : list Loop.Stream) (w w' : World) (r : Loop.Ran),
    Loop.run user llm_user json_loads tools check_untyped max_steps
             user_input streams w
    = (r, w') ->
    Loop.ran_exit r = Loop.ByCondition ->
    Loop.ran_steps r = Z.to_nat max_steps ->
    (0 < max_steps)%Z ->
    exists idx m,
      Loop.ran_result r = Some idx
      /\ S idx = List.length (w_messages w')
      /\ Loop.returned (r, w') = Some m
      /\ am_finish_reason m = Some "tool_calls".
Proof.
  intros user llm_user json_loads tools check_untyped max_steps user_input
         streams w w' r Hrun Hexit Hsteps Hpos.
  unfold Loop.run in Hrun.
  destruct (run_loop_by_condition user llm_user json_loads tools
                                  check_untyped (Z.to_nat max_steps) 0
                                  streams None _ w' r Hrun Hexit)
    as (idx & m & Hresult & Hlast & Hm & Hreason).
  - simpl. exact Hsteps.
  - lia.
  - exists idx, m. unfold Loop.returned. simpl. rewrite Hresult. auto.
Qed.

Lemma max_steps_returns_last_message_unmarked_witness :
  exists idx m,
    Loop.ran_result (fst one_step_turn) = Some idx
    /\ S idx = List.length (w_messages (snd one_step_turn))
    /\ Loop.returned (fst one_step_turn, snd one_step_turn) = Some m
    /\ am_finish_reason m = Some "tool_calls".
Proof.
  apply (max_steps_returns_last_message_unmarked
           says_yes skips JsonText.loads bash_only untyped_fails 1
           "list the files"
           [Loop.mkStream
              (call_chunks "call_1" "bash" (command_args "ls") ""
                 ++ [finish_chunk (Some "tool_calls") None])
              None]
           (mkWorld [] default_manager false 0 [])).
  - apply surjective_pairing.
  - reflexivity.
  - reflexivity.
  - reflexivity.
Defined.

(** Without a positive maximum no step runs and [run] returns [None]. *)
Lemma run_without_steps
      (user : nat -> string -> string -> Response)
      (llm_user : nat -> LLMChoice) (json_loads : string -> option json)
      (tools : string -> option Tool)
      (check_untyped :
         string -> json -> PermissionManager
         -> Result unit * PermissionManager)
      (max_steps : Z) (user_input : string) (streams : list Loop.Stream)
      (w : World) :
  (max_steps <= 0)%Z ->
  Loop.returned (Loop.run user llm_user json_loads tools check_untyped
                          max_steps user_input streams w)
  = None.
Proof.
  intros Hle. unfold Loop.run.
  replace (Z.to_nat max_steps) with 0 by lia. reflexivity.
Qed.

(** A declined ask in the check made before a tool runs is a permission
    error of that call. *)
Lemma declined_ask_raises
      (user : nat -> string -> string -> Response)
      (check_untyped :
         string -> json -> PermissionManager
         -> Result unit * PermissionManager)
      (idx : nat) (tool : Tool) (call_id key target : string)
      (tc : ToolCall) (items : list (string * json)) (w : World) :
  Loop.precheck_key (tc_tool_name tc) = Some key ->
  tc_input tc = JObj items ->
  Json.lookup key items = Some (JStr target) ->
  target <> "" ->
  Permission.evaluate (pm_rules (w_permission w))
                      (pm_approved (w_permission w))
                      (tc_tool_name tc) target = ASK ->
  user (pm_prompts (w_permission w)) (tc_tool_name tc) target = No ->
  exists msg w_t,
    Loop.try_tool user check_untyped idx tool call_id tc w
    = (Raise (PermissionRejectedError msg), w_t)
    /\ w_executed w_t = w_executed w.
Proof.
  intros Hkey Hinput Hlookup Hnonempty Hask Hno.
  unfold Loop.try_tool, Loop.precheck.
  rewrite Hkey, Hinput, Hlookup.
  assert (Htruthy : Json.truthy (JStr target) = true).
  { simpl. apply negb_true_iff, String.eqb_neq. exact Hnonempty. }
  rewrite Htruthy.
  unfold PermissionCheck.check. rewrite Hask.
  unfold PermissionCheck._default_ask. rewrite Hno.
  eexists. eexists. split; reflexivity.
Qed.


(* ================================================================== *)
(** * The theorems at the concrete environment *)



Lemma unknown_tool_is_recorded_and_skipped_witness :
  let result :=
    Loop._execute_tools says_yes bash_only untyped_fails 1
                        [first_call; unknown_call; third_call]
                        three_parts_world in
  exists m' tc',
    Session.assistant_at 1 (snd result) = Some m'
    /\ Session.find_tool_part "call_2" (am_parts m') = Some tc'
    /\ tc_state tc' = ERROR
    /\ tc_error tc' = Some "Unknown tool: frobnicate".
Proof.
  edestruct (unknown_tool_is_recorded_and_skipped
               says_yes bash_only untyped_fails 1
               [first_call] [third_call] "call_2" (snd unknown_call))
    with (w := three_parts_world)
    as (_ & _ & Hrecorded & _).
  - reflexivity.
  - reflexivity.
  - reflexivity.
  - reflexivity.
  - simpl. intros [H | []]. discriminate.
  - exact Hrecorded.
Defined.

(* ================================================================== *)
(** * Beyond the specification *)

(* ================================================================== *)
(** * Permission manager: what a request leaves behind *)

Section MorePermissionFacts.
Import Permission PermissionCheck.

Variable user : nat -> string -> string -> Response.

Lemma translate_plain (s : list ascii) :
  forallb is_plain_char s = true ->
  Fnmatch.compress (Fnmatch.translate_from 0 s) = map Fnmatch.LIT s.
Proof.
  induction s as [| c s IH]; intros H; [reflexivity |].
  simpl in H. apply andb_true_iff in H. destruct H as [Hc Hs].
  unfold is_plain_char in Hc.
  apply andb_true_iff in Hc. destruct Hc as [Hc Hb].
  apply andb_true_iff in Hc. destruct Hc as [Ha Hq].
  apply negb_true_iff in Ha, Hq, Hb.
  simpl Fnmatch.translate_from. rewrite Ha, Hq, Hb.
  change (Fnmatch.compress (Fnmatch.LIT c :: Fnmatch.translate_from 0 s))
    with (Fnmatch.LIT c :: Fnmatch.compress (Fnmatch.translate_from 0 s)).
  rewrite IH by exact Hs. reflexivity.
Qed.

Lemma match_literals (s : list ascii) :
  forall v, Fnmatch.match_tokens (map Fnmatch.LIT s) v = true <-> v = s.
Proof.
  induction s as [| c s IH]; intros v; simpl.
  - destruct v; split; congruence.
  - destruct v as [| ch v]; [split; discriminate |].
    rewrite andb_true_iff, IH. split.
    + intros [Hc ->]. apply Ascii.eqb_eq in Hc. congruence.
    + intros [= -> ->]. split; [apply Ascii.eqb_refl | reflexivity].
Qed.

Lemma list_ascii_of_string_inj (a b : string) :
  list_ascii_of_string a = list_ascii_of_string b -> a = b.
Proof.
  intros H. rewrite <- (string_of_list_ascii_of_string a),
              <- (string_of_list_ascii_of_string b), H.
  reflexivity.
Qed.

Lemma plain_not_star (s : string) : plain s -> String.eqb s "*" = false.
Proof.
  intros H. apply String.eqb_neq. intros ->. discriminate H.
Qed.

(** A pattern without [*], [?] and [[] matches its own text only. *)
Lemma _match_plain (value pattern0 : string) :
  plain pattern0 -> (_match value pattern0 = true <-> value = pattern0).
Proof.
  intros H. unfold _match. rewrite (plain_not_star pattern0 H).
  unfold Fnmatch.fnmatch, Fnmatch.fnmatchcase, Fnmatch.translate.
  rewrite translate_plain by exact H.
  rewrite match_literals. split.
  - apply list_ascii_of_string_inj.
  - intros ->. reflexivity.
Qed.

Lemma evaluate_last_applies (rules approved : list PermissionRule)
      (rule : PermissionRule) (permission0 pattern0 : string) :
  rule_applies permission0 pattern0 rule = true ->
  evaluate rules (approved ++ [rule]) permission0 pattern0 = action rule.
Proof.
  intros H. unfold evaluate.
  rewrite app_assoc, rev_app_distr. simpl. rewrite H. reflexivity.
Qed.

Lemma evaluate_last_skipped (rules approved : list PermissionRule)
      (rule : PermissionRule) (permission0 pattern0 : string) :
  rule_applies permission0 pattern0 rule = false ->
  evaluate rules (approved ++ [rule]) permission0 pattern0
  = evaluate rules approved permission0 pattern0.
Proof.
  intros H. unfold evaluate.
  rewrite app_assoc, rev_app_distr. simpl. rewrite H. reflexivity.
Qed.

Lemma check_cons (permission0 pattern0 : string) (patterns : list string)
      (pm : PermissionManager) :
  check user permission0 (pattern0 :: patterns) pm
  = match evaluate (pm_rules pm) (pm_approved pm) permission0 pattern0 with
    | DENY =>
        (Raise (PermissionDeniedError
                  ("Permission '" ++ permission0
                     ++ "' denied for pattern '" ++ pattern0 ++ "'")),
         pm)
    | ASK =>
        let '(allowed, pm') := _default_ask user permission0 pattern0 pm in
        if allowed then check user permission0 patterns pm'
        else
          (Raise (PermissionRejectedError
                    ("User rejected permission '" ++ permission0
                       ++ "' for '" ++ pattern0 ++ "'")),
           pm')
    | ALLOW => check user permission0 patterns pm
    end.
Proof. reflexivity. Qed.

(** The patterns are checked one after the other, each in the state the
    ones before it left. *)
Lemma check_app (permission0 : string) (pre : list string) :
  forall (rest : list string) (pm pm1 : PermissionManager),
    check user permission0 pre pm = (Ok tt, pm1) ->
    check user permission0 (pre ++ rest) pm = check user permission0 rest pm1.
Proof.
  induction pre as [| p pre IH]; intros rest pm pm1 H.
  - simpl in H. inversion H; subst. reflexivity.
  - change ((p :: pre) ++ rest) with (p :: (pre ++ rest)).
    rewrite check_cons in *.
    destruct (evaluate (pm_rules pm) (pm_approved pm) permission0 p).
    + apply IH. exact H.
    + discriminate.
    + destruct (_default_ask user permission0 p pm) as [allowed pm'].
      destruct allowed; [apply IH; exact H | discriminate].
Qed.

Lemma default_ask_state (permission0 pattern0 : string)
      (pm : PermissionManager) :
  let pm' := snd (_default_ask user permission0 pattern0 pm) in
  pm_rules pm' = pm_rules pm
  /\ pm_prompts pm' = S (pm_prompts pm)
  /\ (pm_approved pm' = pm_approved pm
      \/ (user (pm_prompts pm) permission0 pattern0 = Always
          /\ pm_approved pm'
             = pm_approved pm ++ [mkRule permission0 pattern0 ALLOW])).
Proof.
  unfold _default_ask.
  destruct (user (pm_prompts pm) permission0 pattern0) eqn:Hanswer; simpl;
    repeat split; auto.
Qed.

Lemma check_state (permission0 : string) (patterns : list string) :
  forall (pm pm' : PermissionManager) (r : Result unit),
    check user permission0 patterns pm = (r, pm') ->
    pm_rules pm' = pm_rules pm
    /\ (exists added,
           pm_approved pm' = pm_approved pm ++ added
           /\ Forall (remembered permission0 patterns) added
           /\ List.length added <= pm_prompts pm' - pm_prompts pm)
    /\ pm_prompts pm <= pm_prompts pm'
    /\ pm_prompts pm' <= pm_prompts pm + List.length patterns.
Proof.
  induction patterns as [| p patterns IH]; intros pm pm' r H.
  - simpl in H. inversion H; subst.
    split; [reflexivity |]. split; [| simpl; lia].
    exists []. rewrite app_nil_r. split; [reflexivity |].
    split; [constructor | simpl; lia].
  - rewrite check_cons in H.
    assert (Hweaken :
              forall added,
                Forall (remembered permission0 patterns) added ->
                Forall (remembered permission0 (p :: patterns)) added).
    { intros added. apply Forall_impl.
      intros rule (Hp & Hin & Ha). repeat split; trivial.
      right. exact Hin. }
    destruct (evaluate (pm_rules pm) (pm_approved pm) permission0 p).
    + destruct (IH _ _ _ H)
        as (Hrules & (added & Happ & Hall & Hlen) & Hlo & Hhi).
      split; [exact Hrules |]. split; [| simpl; lia].
      exists added. repeat split; auto.
    + inversion H; subst.
      split; [reflexivity |]. split; [| simpl; lia].
      exists []. rewrite app_nil_r. split; [reflexivity |].
      split; [constructor | simpl; lia].
    + pose proof (default_ask_state permission0 p pm) as Hask.
      destruct (_default_ask user permission0 p pm) as [allowed pm1].
      simpl in Hask. destruct Hask as (Hrules1 & Hprompts1 & Happroved1).
      assert (Hfirst :
                exists added1,
                  pm_approved pm1 = pm_approved pm ++ added1
                  /\ Forall (remembered permission0 (p :: patterns)) added1
                  /\ List.length added1 <= 1).
      { destruct Happroved1 as [Hsame | [_ Hnew]].
        - exists []. rewrite app_nil_r. repeat split; auto.
        - exists [mkRule permission0 p ALLOW]. repeat split; auto.
          constructor; [| constructor].
          repeat split; simpl; auto. }
      destruct Hfirst as (added1 & Happ1 & Hall1 & Hlen1).
      destruct allowed.
      * destruct (IH _ _ _ H)
          as (Hrules & (added & Happ & Hall & Hlen) & Hlo & Hhi).
        split; [congruence |]. split; [| simpl; lia].
        exists (added1 ++ added). rewrite Happ, Happ1, app_assoc.
        split; [reflexivity |].
        split; [apply Forall_app; split; auto |].
        rewrite length_app. lia.
      * inversion H; subst.
        split; [exact Hrules1 |]. split; [| simpl; lia].
        exists added1. repeat split; auto. lia.
Qed.

End MorePermissionFacts.

(** X1. An "always" answer stores the asked scope and target as shell
    patterns at the end of the approved rules, which [evaluate] reads
    first: every later request whose scope and target match them as
    patterns is allowed, and passes [check] without a prompt, whatever the
    configured rules say about it. *)
Theorem always_allows_every_matching_request :
  forall (user : nat -> string -> string -> Response)
         (pm : PermissionManager) (scope target scope' target' : string),
    user (pm_prompts pm) scope target = Always ->
    Permission._match scope' scope = true ->
    Permission._match target' target = true ->
    let pm' := snd (PermissionCheck._default_ask user scope target pm) in
    Permission.evaluate (pm_rules pm') (pm_approved pm') scope' target'
    = ALLOW
    /\ PermissionCheck.check user scope' [target'] pm' = (Ok tt, pm').
Proof.
  intros user pm scope target scope' target' Hanswer Hscope Htarget pm'.
  assert (Heval : Permission.evaluate (pm_rules pm') (pm_approved pm')
                                      scope' target' = ALLOW).
  { unfold pm', PermissionCheck._default_ask. rewrite Hanswer. simpl.
    apply (evaluate_last_applies (pm_rules pm) (pm_approved pm)
                                 (mkRule scope target ALLOW)).
    unfold Permission.rule_applies. simpl. rewrite Hscope, Htarget.
    reflexivity. }
  split; [exact Heval |].
  rewrite check_cons, Heval. reflexivity.
Qed.

Lemma always_allows_every_matching_request_witness :
  Permission.evaluate (pm_rules strict_manager) (pm_approved strict_manager)
                      "bash" "rm -rf /" = DENY
  /\ let pm' :=
       snd (PermissionCheck._default_ask says_always "bash" "rm *"
                                         strict_manager) in
     Permission.evaluate (pm_rules pm') (pm_approved pm') "bash" "rm -rf /"
     = ALLOW
     /\ PermissionCheck.check says_always "bash" ["rm -rf /"] pm'
        = (Ok tt, pm').
Proof.
  split; [reflexivity |].
  apply (always_allows_every_matching_request
           says_always strict_manager "bash" "rm *" "bash" "rm -rf /").
  - reflexivity.
  - reflexivity.
  - reflexivity.
Defined.

(** X2. An "always" answer for a scope and a target that hold none of
    [*], [?] and [[] concerns that pair only: the evaluation of every
    other request is what it was before. *)
Theorem always_for_plain_text_is_exact :
  forall (user : nat -> string -> string -> Response)
         (pm : PermissionManager) (scope target scope' target' : string),
    plain scope ->
    plain target ->
    user (pm_prompts pm) scope target = Always ->
    (scope', target') <> (scope, target) ->
    let pm' := snd (PermissionCheck._default_ask user scope target pm) in
    Permission.evaluate (pm_rules pm') (pm_approved pm') scope' target'
    = Permission.evaluate (pm_rules pm) (pm_approved pm) scope' target'.
Proof.
  intros user pm scope target scope' target' Hscope Htarget Hanswer Hother
         pm'.
  unfold pm', PermissionCheck._default_ask. rewrite Hanswer. simpl.
  apply evaluate_last_skipped.
  unfold Permission.rule_applies. simpl.
  apply andb_false_iff.
  destruct (Permission._match scope' scope) eqn:Hs; [| left; reflexivity].
  destruct (Permission._match target' target) eqn:Ht; [| right; reflexivity].
  apply (_match_plain scope' scope Hscope) in Hs.
  apply (_match_plain target' target Htarget) in Ht.
  subst. contradiction Hother. reflexivity.
Qed.

Lemma always_for_plain_text_is_exact_witness :
  let pm' :=
    snd (PermissionCheck._default_ask says_always "bash" "rm x"
                                      default_manager) in
  Permission.evaluate (pm_rules pm') (pm_approved pm') "bash" "rm y"
  = Permission.evaluate (pm_rules default_manager)
                        (pm_approved default_manager) "bash" "rm y".
Proof.
  apply (always_for_plain_text_is_exact
           says_always default_manager "bash" "rm x" "bash" "rm y").
  - reflexivity.
  - reflexivity.
  - reflexivity.
  - discriminate.
Defined.

Section RefusalFacts.
Import Permission PermissionCheck.

Variable user : nat -> string -> string -> Response.

Lemma check_refused_head (permission0 pattern0 : string)
      (post : list string) (pm pm' : PermissionManager) (e : Exn) :
  check user permission0 [pattern0] pm = (Raise e, pm') ->
  check user permission0 (pattern0 :: post) pm = (Raise e, pm').
Proof.
  rewrite !check_cons.
  destruct (evaluate (pm_rules pm) (pm_approved pm) permission0 pattern0).
  - discriminate.
  - trivial.
  - destruct (_default_ask user permission0 pattern0 pm) as [allowed pm1].
    destruct allowed; [discriminate | trivial].
Qed.

Lemma check_without_always (Hnever : never_always user)
      (permission0 : string) (patterns : list string) :
  forall (pm : PermissionManager),
    pm_approved (snd (check user permission0 patterns pm)) = pm_approved pm.
Proof.
  induction patterns as [| p patterns IH]; intros pm; [reflexivity |].
  rewrite check_cons.
  destruct (evaluate (pm_rules pm) (pm_approved pm) permission0 p).
  - apply IH.
  - reflexivity.
  - unfold _default_ask.
    destruct (user (pm_prompts pm) permission0 p) eqn:Hanswer.
    + rewrite IH. reflexivity.
    + reflexivity.
    + contradiction (Hnever _ _ _ Hanswer).
Qed.

End RefusalFacts.

(** X3. [check] stops at the first pattern that is denied or that the
    user rejects: the patterns after it are neither evaluated nor asked,
    and the manager is left as the refused pattern left it. *)
Theorem check_stops_at_first_refusal :
  forall (user : nat -> string -> string -> Response)
         (permission0 pattern0 : string) (pre post : list string)
         (pm pm1 pm2 : PermissionManager) (e : Exn),
    PermissionCheck.check user permission0 pre pm = (Ok tt, pm1) ->
    PermissionCheck.check user permission0 [pattern0] pm1 = (Raise e, pm2) ->
    PermissionCheck.check user permission0 (pre ++ pattern0 :: post) pm
    = (Raise e, pm2).
Proof.
  intros user permission0 pattern0 pre post pm pm1 pm2 e Hpre Hrefused.
  rewrite (check_app user permission0 pre (pattern0 :: post) pm pm1 Hpre).
  apply check_refused_head. exact Hrefused.
Qed.

Lemma check_stops_at_first_refusal_witness :
  PermissionCheck.check says_no "bash" (["ls"] ++ "rm x" :: ["sudo reboot"])
                        default_manager
  = (Raise (PermissionRejectedError
              "User rejected permission 'bash' for 'rm x'"),
     mkPM Permission.DEFAULT_RULES [] 1).
Proof.
  apply (check_stops_at_first_refusal
           says_no "bash" "rm x" ["ls"] ["sudo reboot"] default_manager
           default_manager).
  - reflexivity.
  - reflexivity.
Defined.

(** X4. Whatever its outcome, [check] leaves the configured rules as they
    are; what it appends to the approved rules are allow rules for the
    requested permission and one of the requested patterns, at most one
    for each prompt; and it prompts at most once for each pattern. *)
Theorem check_only_appends_approved_rules :
  forall (user : nat -> string -> string -> Response)
         (permission0 : string) (patterns : list string)
         (pm : PermissionManager),
    let pm' := snd (PermissionCheck.check user permission0 patterns pm) in
    pm_rules pm' = pm_rules pm
    /\ (exists added,
           pm_approved pm' = pm_approved pm ++ added
           /\ Forall (remembered permission0 patterns) added
           /\ List.length added <= pm_prompts pm' - pm_prompts pm)
    /\ pm_prompts pm <= pm_prompts pm'
    /\ pm_prompts pm' <= pm_prompts pm + List.length patterns.
Proof.
  intros user permission0 patterns pm pm'.
  apply (check_state user permission0 patterns pm pm'
                     (fst (PermissionCheck.check user permission0 patterns
                                                 pm))).
  unfold pm'. apply surjective_pairing.
Qed.

(** X5. Only "always" is remembered: with a user who never gives that
    answer, [check] changes neither the configured nor the approved
    rules, so every request is evaluated afterwards as it was before. *)
Theorem only_always_is_remembered :
  forall (user : nat -> string -> string -> Response)
         (permission0 : string) (patterns : list string)
         (pm : PermissionManager) (scope target : string),
    never_always user ->
    let pm' := snd (PermissionCheck.check user permission0 patterns pm) in
    pm_rules pm' = pm_rules pm
    /\ pm_approved pm' = pm_approved pm
    /\ Permission.evaluate (pm_rules pm') (pm_approved pm') scope target
       = Permission.evaluate (pm_rules pm) (pm_approved pm) scope target.
Proof.
  intros user permission0 patterns pm scope target Hnever pm'.
  assert (Hrules : pm_rules pm' = pm_rules pm).
  { apply (check_state user permission0 patterns pm pm'
                       (fst (PermissionCheck.check user permission0
                                                   patterns pm))).
    unfold pm'. apply surjective_pairing. }
  assert (Happroved : pm_approved pm' = pm_approved pm)
    by (apply check_without_always; exact Hnever).
  rewrite Hrules, Happroved. repeat split.
Qed.

Lemma only_always_is_remembered_witness :
  let pm' :=
    snd (PermissionCheck.check says_yes "bash" ["rm x"] default_manager) in
  pm_rules pm' = pm_rules default_manager
  /\ pm_approved pm' = pm_approved default_manager
  /\ Permission.evaluate (pm_rules pm') (pm_approved pm') "bash" "rm x"
     = Permission.evaluate (pm_rules default_manager)
                           (pm_approved default_manager) "bash" "rm x".
Proof.
  apply (only_always_is_remembered says_yes "bash" ["rm x"] default_manager
                                   "bash" "rm x").
  intros k permission0 pattern0. discriminate.
Defined.

(* ================================================================== *)
(** * The permission a tool asks for after the loop checked it *)

Section PreapprovalFacts.
Import Session Loop.

Variable user : nat -> string -> string -> Response.
Variable check_untyped :
  string -> json -> PermissionManager -> Result unit * PermissionManager.

Lemma ask_permission_preapproved (permission0 target : string)
      (pm : PermissionManager) :
  ToolContext.ask_permission user [(permission0, [target])] permission0
                             [target] pm
  = (Ok tt, pm).
Proof.
  unfold ToolContext.ask_permission. simpl.
  rewrite String.eqb_refl. simpl. rewrite String.eqb_refl. reflexivity.
Qed.

Lemma ask_permission_other_text (permission0 target other : string)
      (pm : PermissionManager) :
  other <> target ->
  ToolContext.ask_permission user [(permission0, [target])] permission0
                             [other] pm
  = PermissionCheck.check user permission0 [other] pm.
Proof.
  intros Hne. unfold ToolContext.ask_permission. simpl.
  rewrite String.eqb_refl. simpl.
  apply String.eqb_neq in Hne. rewrite Hne. reflexivity.
Qed.

Lemma precheck_text (tc : ToolCall) (key target : string)
      (items : list (string * json)) (pm : PermissionManager) :
  precheck_key (tc_tool_name tc) = Some key ->
  tc_input tc = JObj items ->
  Json.lookup key items = Some (JStr target) ->
  target <> "" ->
  precheck user check_untyped tc pm
  = match PermissionCheck.check user (tc_tool_name tc) [target] pm with
    | (Ok _, pm') => (Ok [(tc_tool_name tc, [target])], pm')
    | (Raise e, pm') => (Raise e, pm')
    end.
Proof.
  intros Hkey Hinput Hlookup Hnonempty.
  unfold precheck. rewrite Hkey, Hinput, Hlookup.
  assert (Htruthy : Json.truthy (JStr target) = true).
  { simpl. apply negb_true_iff, String.eqb_neq. exact Hnonempty. }
  rewrite Htruthy. reflexivity.
Qed.

End PreapprovalFacts.

(** X6. The permission the loop checks before a tool runs is not checked
    again when the tool asks for it: a tool that begins by asking for the
    very text the loop read from its input goes on as if the request had
    been granted, without an evaluation and without a prompt, also when
    the user had allowed it once only. *)
Theorem prechecked_permission_is_not_asked_again :
  forall (user : nat -> string -> string -> Response)
         (check_untyped :
            string -> json -> PermissionManager
            -> Result unit * PermissionManager)
         (idx : nat) (tool : Tool) (call_id key target : string)
         (tc : ToolCall) (items : list (string * json))
         (k : Result unit -> ToolProg) (w : World),
    Loop.precheck_key (tc_tool_name tc) = Some key ->
    tc_input tc = JObj items ->
    Json.lookup key items = Some (JStr target) ->
    target <> "" ->
    tool (tc_input tc) = TAsk (tc_tool_name tc) [target] k ->
    Loop.try_tool user check_untyped idx tool call_id tc w
    = Loop.try_tool user check_untyped idx (fun _ => k (Ok tt)) call_id tc w.
Proof.
  intros user check_untyped idx tool call_id key target tc items k w
         Hkey Hinput Hlookup Hnonempty Htool.
  unfold Loop.try_tool.
  rewrite (precheck_text user check_untyped tc key target items _
                         Hkey Hinput Hlookup Hnonempty).
  destruct (PermissionCheck.check user (tc_tool_name tc) [target]
                                  (w_permission w)) as [[[] | e] pm1];
    [| reflexivity].
  rewrite Htool.
  change (ToolContext.execute user [(tc_tool_name tc, [target])]
                              (TAsk (tc_tool_name tc) [target] k) pm1)
    with (let '(answer, pm') :=
            ToolContext.ask_permission user [(tc_tool_name tc, [target])]
                                       (tc_tool_name tc) [target] pm1 in
          ToolContext.execute user [(tc_tool_name tc, [target])] (k answer)
                              pm').
  rewrite ask_permission_preapproved. reflexivity.
Qed.

Lemma prechecked_permission_is_not_asked_again_witness :
  Loop.try_tool says_yes untyped_fails 1 bash_tool "call_1" rm_call
                step_world
  = Loop.try_tool says_yes untyped_fails 1
                  (fun _ => TReturn "ran rm x") "call_1" rm_call step_world
  /\ pm_prompts
       (w_permission
          (snd (Loop.try_tool says_yes untyped_fails 1 bash_tool "call_1"
                              rm_call step_world)))
     = 1.
Proof.
  split; [| reflexivity].
  apply (prechecked_permission_is_not_asked_again
           says_yes untyped_fails 1 bash_tool "call_1" "command" "rm x"
           rm_call [("command", JStr "rm x")]
           (fun answer =>
              match answer with
              | Ok _ => TReturn "ran rm x"
              | Raise e => TRaise e
              end)
           step_world).
  - reflexivity.
  - reflexivity.
  - reflexivity.
  - discriminate.
  - reflexivity.
Defined.

(** X7. The pre-check covers the exact text only.  When the tool asks
    for another text of the same permission (as [edit] and [read] do with
    the path resolved against the working directory) and that text needs
    asking too, a user who allowed the first request once is prompted a
    second time; declining there ends the call with a rejection although
    the tool had been started. *)
Theorem other_text_is_asked_again :
  forall (user : nat -> string -> string -> Response)
         (check_untyped :
            string -> json -> PermissionManager
            -> Result unit * PermissionManager)
         (idx : nat) (tool : Tool) (call_id key target other : string)
         (tc : ToolCall) (items : list (string * json))
         (k : Result unit -> ToolProg) (w : World),
    Loop.precheck_key (tc_tool_name tc) = Some key ->
    tc_input tc = JObj items ->
    Json.lookup key items = Some (JStr target) ->
    target <> "" ->
    tool (tc_input tc) = TAsk (tc_tool_name tc) [other] k ->
    (forall e, k (Raise e) = TRaise e) ->
    other <> target ->
    let pm := w_permission w in
    Permission.evaluate (pm_rules pm) (pm_approved pm) (tc_tool_name tc)
                        target = ASK ->
    Permission.evaluate (pm_rules pm) (pm_approved pm) (tc_tool_name tc)
                        other = ASK ->
    user (pm_prompts pm) (tc_tool_name tc) target = Yes ->
    user (S (pm_prompts pm)) (tc_tool_name tc) other = No ->
    exists msg w',
      Loop.try_tool user check_untyped idx tool call_id tc w
      = (Raise (PermissionRejectedError msg), w')
      /\ pm_prompts (w_permission w') = pm_prompts pm + 2
      /\ w_executed w'
         = w_executed w ++ [(call_id, tc_tool_name tc, tc_input tc)].
Proof.
  intros user check_untyped idx tool call_id key target other tc items k w
         Hkey Hinput Hlookup Hnonempty Htool Hraise Hother pm
         Hask1 Hask2 Hyes Hno.
  unfold Loop.try_tool.
  rewrite (precheck_text user check_untyped tc key target items _
                         Hkey Hinput Hlookup Hnonempty).
  fold pm. rewrite check_cons, Hask1.
  unfold PermissionCheck._default_ask at 1. rewrite Hyes.
  cbv iota beta zeta.
  change (PermissionCheck.check user (tc_tool_name tc) []
                                (mkPM (pm_rules pm) (pm_approved pm)
                                      (S (pm_prompts pm))))
    with (@Ok unit tt, mkPM (pm_rules pm) (pm_approved pm)
                            (S (pm_prompts pm))).
  cbv iota beta. rewrite Htool.
  set (pm1 := mkPM (pm_rules pm) (pm_approved pm) (S (pm_prompts pm))).
  change (ToolContext.execute user [(tc_tool_name tc, [target])]
                              (TAsk (tc_tool_name tc) [other] k) pm1)
    with (let '(answer, pm') :=
            ToolContext.ask_permission user [(tc_tool_name tc, [target])]
                                       (tc_tool_name tc) [other] pm1 in
          ToolContext.execute user [(tc_tool_name tc, [target])] (k answer)
                              pm').
  rewrite (ask_permission_other_text user _ target other pm1 Hother).
  rewrite check_cons.
  change (pm_rules pm1) with (pm_rules pm).
  change (pm_approved pm1) with (pm_approved pm).
  rewrite Hask2.
  unfold PermissionCheck._default_ask.
  change (pm_prompts pm1) with (S (pm_prompts pm)). rewrite Hno.
  cbv iota beta zeta. rewrite Hraise.
  eexists. eexists. split; [reflexivity |].
  split; [simpl; lia | reflexivity].
Qed.

Lemma other_text_is_asked_again_witness :
  exists msg w',
    Loop.try_tool yes_then_no untyped_fails 1 asks_resolved_path "call_1"
                  env_call step_world
    = (Raise (PermissionRejectedError msg), w')
    /\ pm_prompts (w_permission w') = 0 + 2
    /\ w_executed w'
       = [] ++ [("call_1", "edit", tc_input env_call)].
Proof.
  apply (other_text_is_asked_again
           yes_then_no untyped_fails 1 asks_resolved_path "call_1"
           "file_path" "a.env" "/work/a.env" env_call
           [("file_path", JStr "a.env"); ("old_string", JStr "");
            ("new_string", JStr "KEY=1")]
           (fun answer =>
              match answer with
              | Ok _ => TReturn "Edit applied successfully."
              | Raise e => TRaise e
              end)
           step_world).
  - reflexivity.
  - reflexivity.
  - reflexivity.
  - discriminate.
  - reflexivity.
  - reflexivity.
  - discriminate.
  - reflexivity.
  - reflexivity.
  - reflexivity.
  - reflexivity.
Defined.

(* ================================================================== *)
(** * The request built from the session *)

Section FormatFacts.
Import Session SessionFormat.

Lemma format_app (a b : list Message) :
  messages_to_openai_format (a ++ b)
  = messages_to_openai_format a ++ messages_to_openai_format b.
Proof.
  induction a as [| m a IH]; [reflexivity |].
  simpl. rewrite IH, app_assoc. reflexivity.
Qed.

Lemma gather_calls (parts : list MessagePart) :
  forall content tool_calls,
    snd (gather parts content tool_calls)
    = tool_calls ++ snd (gather parts "" []).
Proof.
  induction parts as [| part parts IH]; intros content tool_calls.
  - simpl. symmetry. apply app_nil_r.
  - destruct part as [text synthetic | tc | text]; simpl.
    + rewrite IH, (IH text []). reflexivity.
    + rewrite IH, (IH "" [_]), app_assoc. reflexivity.
    + apply IH.
Qed.

Lemma tool_results_are_results (parts : list MessagePart) :
  forallb is_tool_result (tool_results parts) = true.
Proof.
  induction parts as [| part parts IH]; [reflexivity |].
  destruct part as [text synthetic | tc | text]; simpl; trivial.
  destruct (tc_state tc); simpl; trivial.
Qed.

(** Every result is the result of a declared call. *)
Lemma tool_results_declared (parts : list MessagePart) (id c : string) :
  In (ApiTool id c) (tool_results parts) ->
  In id (map api_id (snd (gather parts "" []))).
Proof.
  induction parts as [| part parts IH]; [intros [] |].
  destruct part as [text synthetic | tc | text]; simpl.
  - intros H. rewrite gather_calls. simpl. apply IH. exact H.
  - intros H. rewrite gather_calls. simpl. 
    destruct (tc_state tc); simpl in H;
      try (right; apply IH; exact H);
      (destruct H as [H | H];
       [left; congruence | right; apply IH; exact H]).
  - apply IH.
Qed.

Lemma forallb_prefix {A : Type} (p : A -> bool) (a b : list A) :
  forallb p (a ++ b) = true -> forallb p a = true.
Proof. rewrite forallb_app. intros H. apply andb_true_iff in H. tauto. Qed.

Lemma convert_result (msg : Message) (before after : list ApiMessage)
      (id c : string) :
  convert msg = before ++ ApiTool id c :: after ->
  exists reply calls results,
    before = ApiAssistant reply calls :: results
    /\ forallb is_tool_result results = true
    /\ In id (map api_id calls).
Proof.
  destruct msg as [parts | a]; simpl.
  - intros H. destruct before as [| x [| y before]]; discriminate.
  - destruct (gather (am_parts a) "" []) as [content tool_calls] eqn:Hg.
    destruct (String.eqb content "" && is_empty tool_calls).
    + intros H. destruct before; discriminate.
    + intros H. destruct before as [| x before]; [discriminate |].
      inversion H as [[Hx Hrest]]. subst x.
      eexists. exists tool_calls, before. split; [reflexivity |]. split.
      * apply (forallb_prefix is_tool_result before (ApiTool id c :: after)).
        rewrite <- Hrest. apply tool_results_are_results.
      * replace tool_calls with (snd (gather (am_parts a) "" []))
          by (rewrite Hg; reflexivity).
        apply (tool_results_declared (am_parts a) id c).
        rewrite Hrest. apply in_or_app. right. left. reflexivity.
Qed.

(** The conversion reads the parts of an assistant message only. *)
Lemma convert_parts (a b : AssistantMessage) :
  am_parts a = am_parts b ->
  convert (AssistantMsg a) = convert (AssistantMsg b).
Proof. intros H. simpl. rewrite H. reflexivity. Qed.

Lemma format_modify_at (f : AssistantMessage -> AssistantMessage) :
  keeps_parts f ->
  forall (ms : list Message) (idx : nat),
    messages_to_openai_format (modify_at idx f ms)
    = messages_to_openai_format ms.
Proof.
  intros Hf. induction ms as [| m ms IH]; intros idx; [reflexivity |].
  destruct idx as [| idx].
  - destruct m as [parts | a]; [reflexivity |].
    change (modify_at 0 f (AssistantMsg a :: ms))
      with (AssistantMsg (f a) :: ms).
    change (messages_to_openai_format (AssistantMsg (f a) :: ms))
      with (convert (AssistantMsg (f a)) ++ messages_to_openai_format ms).
    rewrite (convert_parts (f a) a (Hf a)). reflexivity.
  - change (modify_at (S idx) f (m :: ms)) with (m :: modify_at idx f ms).
    change (messages_to_openai_format (m :: modify_at idx f ms))
      with (convert m ++ messages_to_openai_format (modify_at idx f ms)).
    rewrite IH. reflexivity.
Qed.

End FormatFacts.

(** X8. In the list [messages_to_openai_format] builds, a dict of role
    [tool] never stands alone: it follows, with nothing but other tool
    results in between, an assistant dict whose [tool_calls] declare its
    [tool_call_id]. *)
Theorem tool_results_follow_their_call :
  forall (messages : list Message) (before after : list ApiMessage)
         (id content : string),
    SessionFormat.messages_to_openai_format messages
    = before ++ ApiTool id content :: after ->
    exists earlier reply calls results,
      before = earlier ++ ApiAssistant reply calls :: results
      /\ forallb is_tool_result results = true
      /\ In id (map api_id calls).
Proof.
  induction messages as [| msg messages IH];
    intros before after id content H.
  - destruct before; discriminate.
  - change (SessionFormat.convert msg
              ++ SessionFormat.messages_to_openai_format messages
            = before ++ ApiTool id content :: after) in H.
    apply app_eq_app in H. destruct H as [l [[Hc Ha] | [Hb Hm]]].
    + destruct l as [| x l].
      * rewrite app_nil_r in Hc. simpl in Ha.
        destruct (IH [] after id content (eq_sym Ha))
          as (earlier & reply & calls & results & Hsplit & _).
        destruct earlier; discriminate.
      * inversion Ha as [[Hx Hl]]. subst x.
        destruct (convert_result msg before l id content Hc)
          as (reply & calls & results & Hbefore & Hres & Hin).
        exists [], reply, calls, results. auto.
    + destruct (IH l after id content Hm)
        as (earlier & reply & calls & results & Hsplit & Hres & Hin).
      exists (SessionFormat.convert msg ++ earlier), reply, calls, results.
      rewrite Hb, Hsplit, app_assoc. auto.
Qed.

Lemma tool_results_follow_their_call_witness :
  exists earlier reply calls results,
    [ApiUser "list the files";
     ApiAssistant (Some "hm")
                  [mkApiToolCall "c1" "bash"
                                 (JsonDumps.dumps
                                    (JObj [("command", JStr "ls")]))]]
    = earlier ++ ApiAssistant reply calls :: results
    /\ forallb is_tool_result results = true
    /\ In "c1" (map api_id calls).
Proof.
  apply (tool_results_follow_their_call session_after_ls _ [] "c1" "a.txt").
  reflexivity.
Defined.

Section StreamLeavesParts.
Import Session Loop.

Variable llm_user : nat -> LLMChoice.

Local Abbreviation on_chunk := (Loop.on_chunk llm_user).
Local Abbreviation chunk_loop := (Loop.chunk_loop llm_user).

Lemma keeps_all_parts_refl (idx : nat) (w : World) :
  keeps_all_parts idx w w.
Proof.
  exists (fun m => m). split; [intros m; reflexivity | apply through_refl].
Qed.

Lemma keeps_all_parts_trans (idx : nat) (w1 w2 w3 : World) :
  keeps_all_parts idx w1 w2 -> keeps_all_parts idx w2 w3 ->
  keeps_all_parts idx w1 w3.
Proof.
  intros (f & Hf & Htf) (g & Hg & Htg). exists (fun m => g (f m)). split.
  - intros m. rewrite Hg, Hf. reflexivity.
  - exact (through_trans idx f g w1 w2 w3 Htf Htg).
Qed.

Lemma keeps_all_parts_same (idx : nat) (w w' : World) :
  w_messages w' = w_messages w -> keeps_all_parts idx w w'.
Proof.
  intros H. exists (fun m => m). split; [intros m; reflexivity |].
  unfold through. rewrite H. symmetry. apply modify_at_same.
Qed.

Lemma keeps_all_parts_tokens (idx : nat) (tokens : Tokens) (w : World) :
  keeps_all_parts idx w (modify idx (set_tokens tokens) w).
Proof.
  exists (set_tokens tokens). split; [intros m; reflexivity | reflexivity].
Qed.

Lemma on_chunk_parts (idx : nat) (c : StreamChunk) (l : Local)
      (w w' : World) (exit : LoopExit) :
  on_chunk idx c l w = (exit, w') -> keeps_all_parts idx w w'.
Proof.
  unfold Loop.on_chunk. intros H.
  destruct (String.eqb (ch_type c) "text").
  { destruct (ch_content c); inversion H; subst;
      apply keeps_all_parts_refl. }
  destruct (String.eqb (ch_type c) "tool_call").
  { destruct (ch_tool_call_id c); [destruct (ch_tool_name c) |];
      inversion H; subst; apply keeps_all_parts_refl. }
  destruct (String.eqb (ch_type c) "tool_call_delta").
  { destruct (ch_tool_call_id c); inversion H; subst;
      apply keeps_all_parts_refl. }
  destruct (String.eqb (ch_type c) "error").
  { inversion H; subst; apply keeps_all_parts_refl. }
  destruct (String.eqb (ch_type c) "finish").
  { assert (Hw1 :
              forall w1,
                w1 = match ch_usage c with
                     | Some (_ :: _ as usage) =>
                         modify idx
                           (set_tokens
                              (mkTokens (usage_get "input_tokens" usage)
                                        (usage_get "output_tokens" usage)
                                        (usage_get "total_tokens" usage)))
                           w
                     | _ => w
                     end ->
                keeps_all_parts idx w w1).
    { intros w1 ->. destruct (ch_usage c) as [[| kv usage] |];
        try apply keeps_all_parts_refl. apply keeps_all_parts_tokens. }
    destruct (is_reason (ch_finish_reason c) "error").
    - destruct (llm_user _); inversion H; subst;
        (eapply keeps_all_parts_trans; [apply Hw1; reflexivity |]);
        apply keeps_all_parts_same; reflexivity.
    - inversion H; subst. apply Hw1. reflexivity. }
  inversion H; subst. apply keeps_all_parts_refl.
Qed.

(** The chunks of a provider call change nothing of the parts stored in
    the session: text and tool calls are local until the call ends. *)
Lemma chunk_loop_parts (idx : nat) (chunks : list StreamChunk)
      (ending : option Exn) :
  forall (l : Local) (w w' : World) (exit : LoopExit),
    chunk_loop idx chunks ending l w = (exit, w') ->
    keeps_all_parts idx w w'.
Proof.
  induction chunks as [| c chunks IH]; intros l w w' exit H; simpl in H.
  - destruct ending; inversion H; subst; apply keeps_all_parts_refl.
  - destruct (w_aborted w);
      [inversion H; subst; apply keeps_all_parts_refl |].
    destruct (on_chunk idx c l w) as [[l1 | l1 | e l1] w1] eqn:Hstep;
      apply on_chunk_parts in Hstep.
    + eapply keeps_all_parts_trans; [exact Hstep | exact (IH _ _ _ _ H)].
    + inversion H; subst. exact Hstep.
    + inversion H; subst. exact Hstep.
Qed.

Lemma after_retries_parts (idx : nat) (retried : list Stream) :
  forall (w w0 : World),
    after_retries llm_user idx retried w = Some w0 ->
    keeps_all_parts idx w w0.
Proof.
  induction retried as [| s retried IH]; intros w w0 H; simpl in H.
  - inversion H; subst. apply keeps_all_parts_refl.
  - destruct (chunk_loop idx (st_chunks s) (st_ending s) start w)
      as [[l | l | e l] w1] eqn:Hloop; try discriminate.
    apply chunk_loop_parts in Hloop.
    exact (keeps_all_parts_trans _ _ _ _ Hloop (IH _ _ H)).
Qed.

Lemma format_keeps_all_parts (idx : nat) (w w' : World) :
  keeps_all_parts idx w w' ->
  SessionFormat.messages_to_openai_format (w_messages w')
  = SessionFormat.messages_to_openai_format (w_messages w).
Proof.
  intros (f & Hf & Hthrough). unfold through in Hthrough.
  rewrite Hthrough. apply format_modify_at. exact Hf.
Qed.

Lemma format_created (w : World) :
  SessionFormat.messages_to_openai_format
    (w_messages (snd (create_assistant_message w)))
  = SessionFormat.messages_to_openai_format (w_messages w).
Proof.
  unfold create_assistant_message. simpl.
  rewrite format_app. simpl. apply app_nil_r.
Qed.

End StreamLeavesParts.

(** X9. Neither the assistant message a step has just created nor
    anything of the provider calls of the step that failed and were
    retried (their text, their tool calls) is part of the request: the
    messages built for the call that follows them are those built from
    the session as it was before the step. *)
Theorem retried_call_sends_the_same_request :
  forall (llm_user : nat -> LLMChoice) (system_prompt : option string)
         (retried : list Loop.Stream) (w w0 : World),
    after_retries llm_user (List.length (w_messages w)) retried
                  (snd (Session.create_assistant_message w))
    = Some w0 ->
    LoopRequest._build_messages system_prompt (w_messages w0)
    = LoopRequest._build_messages system_prompt (w_messages w).
Proof.
  intros llm_user system_prompt retried w w0 Hretried.
  unfold LoopRequest._build_messages. f_equal.
  rewrite (format_keeps_all_parts
             (List.length (w_messages w)) _ w0
             (after_retries_parts llm_user _ retried _ w0 Hretried)).
  apply format_created.
Qed.

Lemma retried_call_sends_the_same_request_witness :
  exists w0,
    after_retries retries_once 1 [failed_call]
                  (snd (Session.create_assistant_message asked_world))
    = Some w0
    /\ LoopRequest._build_messages (Some "be brief") (w_messages w0)
       = [ApiSystem "be brief"; ApiUser "tidy up"].
Proof.
  eexists. split; [reflexivity |].
  apply (retried_call_sends_the_same_request
           retries_once (Some "be brief") [failed_call] asked_world).
  reflexivity.
Defined.

(* ================================================================== *)
(** * The history a turn writes *)

Section HistoryFacts.
Import Session Loop.

Variable user : nat -> string -> string -> Response.
Variable llm_user : nat -> LLMChoice.
Variable json_loads : string -> option json.
Variable tools : string -> option Tool.
Variable check_untyped :
  string -> json -> PermissionManager -> Result unit * PermissionManager.

Local Abbreviation _process_stream :=
  (Loop._process_stream user llm_user json_loads tools check_untyped).
Local Abbreviation run_loop :=
  (Loop.run_loop user llm_user json_loads tools check_untyped).





Lemma last_of_app {A : Type} (l : list A) (x : A) :
  last_of (l ++ [x]) = Some x.
Proof. unfold last_of. rewrite rev_app_distr. reflexivity. Qed.

Lemma last_of_cons {A : Type} (x y : A) (l : list A) :
  last_of (x :: y :: l) = last_of (y :: l).
Proof.
  unfold last_of. simpl. 
  destruct (rev l ++ [y]) as [| z zs] eqn:H.
  - destruct (rev l); discriminate.
  - reflexivity.
Qed.


End HistoryFacts.


Section LastMessageFacts.
Import SessionModel.




End LastMessageFacts.


(* ================================================================== *)
(** * How a step ends *)



Section StepEndFacts.
Import Session Loop.

Variable user : nat -> string -> string -> Response.
Variable llm_user : nat -> LLMChoice.
Variable json_loads : string -> option json.
Variable tools : string -> option Tool.
Variable check_untyped :
  string -> json -> PermissionManager -> Result unit * PermissionManager.

Local Abbreviation on_chunk := (Loop.on_chunk llm_user).
Local Abbreviation chunk_loop := (Loop.chunk_loop llm_user).
Local Abbreviation after_stream :=
  (Loop.after_stream user json_loads tools check_untyped).
Local Abbreviation _process_stream :=
  (Loop._process_stream user llm_user json_loads tools check_untyped).

Lemma on_chunk_log (idx : nat) (c : StreamChunk) (l : Local)
      (w w' : World) (exit : LoopExit) :
  on_chunk idx c l w = (exit, w') -> w_executed w' = w_executed w.
Proof.
  unfold Loop.on_chunk. intros H.
  destruct (String.eqb (ch_type c) "text").
  { destruct (ch_content c); inversion H; subst; reflexivity. }
  destruct (String.eqb (ch_type c) "tool_call").
  { destruct (ch_tool_call_id c); [destruct (ch_tool_name c) |];
      inversion H; subst; reflexivity. }
  destruct (String.eqb (ch_type c) "tool_call_delta").
  { destruct (ch_tool_call_id c); inversion H; subst; reflexivity. }
  destruct (String.eqb (ch_type c) "error").
  { inversion H; subst; reflexivity. }
  destruct (String.eqb (ch_type c) "finish").
  { destruct (is_reason (ch_finish_reason c) "error").
    - destruct (llm_user _); inversion H; subst;
        destruct (ch_usage c) as [[| kv usage] |]; reflexivity.
    - inversion H; subst.
      destruct (ch_usage c) as [[| kv usage] |]; reflexivity. }
  inversion H; subst. reflexivity.
Qed.

Lemma chunk_loop_log (idx : nat) (chunks : list StreamChunk)
      (ending : option Exn) :
  forall (l : Local) (w w' : World) (exit : LoopExit),
    chunk_loop idx chunks ending l w = (exit, w') ->
    w_executed w' = w_executed w.
Proof.
  induction chunks as [| c chunks IH]; intros l w w' exit H; simpl in H.
  - destruct ending; inversion H; subst; reflexivity.
  - destruct (w_aborted w); [inversion H; subst; reflexivity |].
    destruct (on_chunk idx c l w) as [[l1 | l1 | e l1] w1] eqn:Hstep;
      apply on_chunk_log in Hstep.
    + rewrite (IH _ _ _ _ H). exact Hstep.
    + inversion H; subst. exact Hstep.
    + inversion H; subst. exact Hstep.
Qed.


(** The message of a step has no parts as long as only chunks were
    read. *)
Lemma fresh_message_parts (w w1 : World) :
  keeps_all_parts (List.length (w_messages w))
                  (snd (create_assistant_message w)) w1 ->
  exists m1,
    assistant_at (List.length (w_messages w)) w1 = Some m1
    /\ am_parts m1 = [].
Proof.
  intros (f & Hf & Hthrough).
  destruct (created_message w) as [Hm _].
  exists (f (mkAssistant [] None None empty_tokens false)). split.
  - rewrite (through_assistant_at _ f _ w1 Hthrough), Hm. reflexivity.
  - rewrite Hf. reflexivity.
Qed.

Lemma add_text_maybe_parts (text : string) (m : AssistantMessage) :
  am_parts m = [] -> am_parts (add_text_maybe text m) = text_only text.
Proof.
  intros H. unfold add_text_maybe, text_only.
  destruct (String.eqb text ""); [exact H |].
  simpl. rewrite H. reflexivity.
Qed.

Lemma add_text_if_any_message (idx : nat) (text : string) (w : World)
      (m : AssistantMessage) :
  assistant_at idx w = Some m ->
  assistant_at idx (add_text_if_any idx text w)
  = Some (add_text_maybe text m).
Proof.
  intros Hm.
  rewrite (through_assistant_at idx _ w _ (add_text_if_any_through idx text w)).
  rewrite Hm. reflexivity.
Qed.

Lemma modify_message (idx : nat) (f : AssistantMessage -> AssistantMessage)
      (w : World) (m : AssistantMessage) :
  assistant_at idx w = Some m ->
  assistant_at idx (modify idx f w) = Some (f m).
Proof.
  intros Hm.
  rewrite (through_assistant_at idx f w _ (through_modify idx f w)), Hm.
  reflexivity.
Qed.



End StepEndFacts.



(** X14. When the provider call of a step is cancelled, the turn ends
    there: the text received so far is stored as the one part of the
    message, the tool calls received so far are dropped and none is
    executed, the loop is marked as aborted, and the message is returned
    completed with finish reason [interrupted]. *)
Theorem cancellation_keeps_the_text_received :
  forall (user : nat -> string -> string -> Response)
         (llm_user : nat -> LLMChoice)
         (json_loads : string -> option json)
         (tools : string -> option Tool)
         (check_untyped :
            string -> json -> PermissionManager
            -> Result unit * PermissionManager)
         (fuel step : nat) (s : Loop.Stream) (streams : list Loop.Stream)
         (assistant_msg : option nat) (w w1 : World) (l : Loop.Local),
    w_aborted w = false ->
    let idx := List.length (w_messages w) in
    Loop.chunk_loop llm_user idx (Loop.st_chunks s) (Loop.st_ending s)
                    Loop.start (snd (Session.create_assistant_message w))
    = (Loop.Raised CancelledError l, w1) ->
    let result :=
      Loop.run_loop user llm_user json_loads tools check_untyped
                    (S fuel) step (s :: streams) assistant_msg w in
    fst result = Loop.mkRan Loop.ByReturn (S step) (Some idx)
    /\ w_executed (snd result) = w_executed w
    /\ w_aborted (snd result) = true
    /\ exists m,
        Loop.returned result = Some m
        /\ am_parts m = text_only (Loop.current_text l)
        /\ am_finish_reason m = Some "interrupted"
        /\ am_completed m = true.
Proof.
  intros user llm_user json_loads tools check_untyped fuel step s streams
         assistant_msg w w1 l Hflag idx Hloop result.
  set (w2 := Loop.on_cancelled idx l w1).
  assert (Hresult :
            result
            = (Loop.mkRan Loop.ByReturn (S step) (Some idx),
               Loop.on_exception idx CancelledError w2)).
  { unfold result. rewrite run_loop_step, Hflag. cbv zeta. fold idx.
    rewrite process_stream_cons, Hloop. reflexivity. }
  assert (Hparts : keeps_all_parts idx
                     (snd (Session.create_assistant_message w)) w1)
    by exact (chunk_loop_parts llm_user idx _ _ _ _ _ _ Hloop).
  destruct (fresh_message_parts w w1 Hparts) as (m1 & Hm1 & Hempty).
  fold idx in Hm1.
  rewrite Hresult. split; [reflexivity |]. split; [| split].
  - simpl snd. unfold w2, Loop.on_cancelled. simpl.
    rewrite add_text_if_any_log. simpl.
    exact (chunk_loop_log llm_user idx _ _ _ _ _ _ Hloop).
  - simpl snd. unfold w2, Loop.on_cancelled, Loop.add_text_if_any. simpl.
    destruct (String.eqb (Loop.current_text l) ""); reflexivity.
  - unfold Loop.returned. simpl fst. simpl snd. simpl Loop.ran_result.
    assert (Hm2 : Session.assistant_at idx w2
                  = Some (add_text_maybe (Loop.current_text l) m1)).
    { unfold w2, Loop.on_cancelled.
      apply add_text_if_any_message. exact Hm1. }
    eexists. split.
    + unfold Loop.on_exception, Loop.finish.
      rewrite (modify_message idx _ _ _ (modify_message idx _ _ _ Hm2)).
      reflexivity.
    + simpl. split; [| split; reflexivity].
      apply add_text_maybe_parts. exact Hempty.
Qed.

Lemma cancellation_keeps_the_text_received_witness :
  let result :=
    Loop.run_loop says_yes skips JsonText.loads bash_only untyped_fails
                  1 0 [interrupted_answer] None asked_world in
  fst result = Loop.mkRan Loop.ByReturn 1 (Some 1)
  /\ w_executed (snd result) = []
  /\ w_aborted (snd result) = true
  /\ exists m,
      Loop.returned result = Some m
      /\ am_parts m = [TextPart "Hel" false]
      /\ am_finish_reason m = Some "interrupted"
      /\ am_completed m = true.
Proof.
  apply (cancellation_keeps_the_text_received
           says_yes skips JsonText.loads bash_only untyped_fails
           0 0 interrupted_answer [] None asked_world
           (snd (Session.create_assistant_message asked_world))
           (Loop.mkLocal "Hel" [] (Some "stop"))).
  - reflexivity.
  - reflexivity.
Defined.

Section AbortFacts.
Import Session Loop.

Variable user : nat -> string -> string -> Response.
Variable json_loads : string -> option json.
Variable tools : string -> option Tool.
Variable check_untyped :
  string -> json -> PermissionManager -> Result unit * PermissionManager.

Local Abbreviation after_stream :=
  (Loop.after_stream user json_loads tools check_untyped).


End AbortFacts.



(* ================================================================== *)
(** * The provider call as a whole *)

Section ProviderFacts.
Import OpenAI.

Variable render : Note -> string.

Lemma sleeps_app (a b : list Out) : sleeps (a ++ b) = sleeps a ++ sleeps b.
Proof. apply flat_map_app. Qed.

Lemma connections_app (a b : list Out) :
  connections (a ++ b) = connections a ++ connections b.
Proof. apply flat_map_app. Qed.

Lemma yielded_app (a b : list Out) :
  yielded (a ++ b) = yielded a ++ yielded b.
Proof. apply flat_map_app. Qed.

Lemma yields_only (chunks : list StreamChunk) :
  sleeps (map Yield chunks) = []
  /\ connections (map Yield chunks) = []
  /\ yielded (map Yield chunks) = chunks.
Proof.
  induction chunks as [| c chunks (IHs & IHc & IHy)]; simpl; auto.
  rewrite IHy. auto.
Qed.

(** Reading a response yields chunks and nothing else. *)
Lemma consume_yields (events : list (Q * RawChunk)) :
  forall (last : Q) (keys : list string) (ending : Ending),
    exists chunks,
      fst (consume render last keys events ending) = map Yield chunks.
Proof.
  induction events as [| [t raw] events IH]; intros last keys ending.
  - exists []. reflexivity.
  - simpl.
    destruct (negb (Qle_bool (t - last) 60)).
    { eexists [_]. reflexivity. }
    destruct (raw_choice raw) as [choice |]; [| apply IH].
    destruct (choice_delta choice) as [delta |]; [| apply IH].
    destruct (emit_tool_calls keys (delta_tool_calls delta))
      as [calls keys'].
    set (text := if nonempty (delta_content delta)
                 then [mkChunk "text" (delta_content delta)
                               None None None None None None]
                 else []).
    assert (Htext :
              (if nonempty (delta_content delta)
               then [Yield (mkChunk "text" (delta_content delta)
                                    None None None None None None)]
               else [])
              = map Yield text).
    { unfold text. destruct (nonempty (delta_content delta)); reflexivity. }
    rewrite Htext.
    destruct (nonempty (choice_finish_reason choice)).
    + eexists (text ++ calls ++ [_]). simpl.
      rewrite !map_app, <- app_assoc. reflexivity.
    + destruct (IH t keys' ending) as [chunks Hchunks].
      destruct (consume render t keys' events ending) as [rest leave].
      simpl in Hchunks. subst rest.
      exists (text ++ calls ++ chunks). simpl.
      rewrite !map_app, <- app_assoc. reflexivity.
Qed.

(** A response that is left by a [return] ends with a finish chunk or
    with the error chunk of the idle timeout. *)
Lemma consume_return_last (events : list (Q * RawChunk)) :
  forall (last : Q) (keys : list string) (ending : Ending)
         (outs : list Out),
    consume render last keys events ending = (outs, LeaveReturn) ->
    exists c,
      last_of outs = Some (Yield c)
      /\ (ch_type c = "finish"
          \/ c = error_chunk (render IdleTimeoutNote)).
Proof.
  induction events as [| [t raw] events IH];
    intros last keys ending outs H.
  - discriminate.
  - simpl in H.
    destruct (negb (Qle_bool (t - last) 60)).
    { inversion H; subst. eexists. split; [reflexivity |].
      right. reflexivity. }
    destruct (raw_choice raw) as [choice |]; [| exact (IH _ _ _ _ H)].
    destruct (choice_delta choice) as [delta |]; [| exact (IH _ _ _ _ H)].
    destruct (emit_tool_calls keys (delta_tool_calls delta))
      as [calls keys'].
    destruct (nonempty (choice_finish_reason choice)).
    + inversion H; subst. eexists. split.
      * rewrite last_of_app. reflexivity.
      * left. reflexivity.
    + destruct (consume render t keys' events ending) as [rest leave] eqn:Hc.
      inversion H; subst leave outs.
      destruct (IH _ _ _ _ Hc) as (c & Hlast & Hfinal).
      exists c. split; [| exact Hfinal].
      unfold last_of in *. rewrite rev_app_distr.
      destruct (rev rest) as [| x xs]; [discriminate |].
      exact Hlast.
Qed.

Variable config : LLMConfig.
Variable sdk : nat -> Attempt.

Lemma last_of_app_some {A : Type} (a b : list A) (x : A) :
  last_of b = Some x -> last_of (a ++ b) = Some x.
Proof.
  unfold last_of. rewrite rev_app_distr.
  destruct (rev b) as [| y ys]; [discriminate | trivial].
Qed.

Lemma last_of_cons_some {A : Type} (a : A) (b : list A) (x : A) :
  last_of b = Some x -> last_of (a :: b) = Some x.
Proof. apply (last_of_app_some [a] b x). Qed.

Lemma attempts_last (remaining : nat) :
  forall (attempt : nat) (last_error : option string),
    snd (attempts render config sdk remaining attempt last_error)
    = Returned ->
    exists c,
      last_of (fst (attempts render config sdk remaining attempt
                             last_error))
      = Some (Yield c)
      /\ (ch_type c = "finish"
          \/ c = error_chunk (render IdleTimeoutNote)).
Proof.
  induction remaining as [| remaining IH]; intros attempt last_error H.
  - eexists. split; [reflexivity | left; reflexivity].
  - simpl in H. simpl.
    destruct (match sdk attempt with
              | ConnectTimeout => ([], LeaveEnd EndTimeout)
              | Streaming start events ending =>
                  consume render start [] events ending
              end) as [outs leave] eqn:Hbody.
    destruct leave as [| e].
    + assert (Hc : exists start events ending,
                 consume render start [] events ending
                 = (outs, LeaveReturn)).
      { destruct (sdk attempt) as [| start events ending];
          [discriminate | eauto]. }
      destruct Hc as (start & events & ending & Hc).
      destruct (consume_return_last _ _ _ _ _ Hc) as (c & Hlast & Hfinal).
      exists c. split; [| exact Hfinal].
      simpl. apply last_of_cons_some. exact Hlast.
    + destruct (handle render config attempt last_error e)
        as [[handled next] outcome] eqn:Hh.
      destruct next as [last_error' |].
      * destruct (attempts render config sdk remaining (S attempt)
                           last_error') as [rest outcome'] eqn:Hrest.
        simpl in H. subst outcome'.
        destruct (IH (S attempt) last_error') as (c & Hlast & Hfinal).
        { rewrite Hrest. reflexivity. }
        rewrite Hrest in Hlast. simpl in Hlast.
        exists c. split; [| exact Hfinal]. simpl.
        apply last_of_cons_some. rewrite app_assoc.
        apply last_of_app_some. exact Hlast.
      * simpl in H. subst outcome.
        unfold handle in Hh.
        destruct e as [| | | cls msg].
        -- discriminate.
        -- destruct (Z.of_nat attempt <? max_retries config)%Z;
             discriminate.
        -- discriminate.
        -- destruct (retryable msg
                     && (Z.of_nat attempt <? max_retries config)%Z);
             [discriminate |].
           inversion Hh; subst handled.
           exists (finish_chunk (Some "error") None).
           split; [| left; reflexivity].
           simpl. apply last_of_cons_some.
           apply last_of_app_some. reflexivity.
Qed.

Lemma consume_counts (last : Q) (keys : list string)
      (events : list (Q * RawChunk)) (ending : Ending) :
  sleeps (fst (consume render last keys events ending)) = []
  /\ connections (fst (consume render last keys events ending)) = [].
Proof.
  destruct (consume_yields events last keys ending) as [chunks ->].
  destruct (yields_only chunks) as (Hs & Hc & _). auto.
Qed.

Lemma handle_counts (attempt : nat) (last_error : option string)
      (e : Ending) :
  let handled := fst (fst (handle render config attempt last_error e)) in
  connections handled = []
  /\ List.length (sleeps handled)
     <= (if (Z.of_nat attempt <? max_retries config)%Z then 1 else 0).
Proof.
  unfold handle. destruct e as [| | | cls msg]; simpl.
  - split; [reflexivity | lia].
  - destruct (Z.of_nat attempt <? max_retries config)%Z; simpl; auto.
  - split; [reflexivity | lia].
  - destruct (retryable msg); simpl.
    + destruct (Z.of_nat attempt <? max_retries config)%Z; simpl; auto.
    + split; [reflexivity | lia].
Qed.

Lemma attempts_counts (remaining : nat) :
  forall (attempt : nat) (last_error : option string),
    let outs :=
      fst (attempts render config sdk remaining attempt last_error) in
    List.length (connections outs) <= remaining
    /\ List.length (sleeps outs)
       <= Z.to_nat (max_retries config - Z.of_nat attempt).
Proof.
  induction remaining as [| remaining IH]; intros attempt last_error.
  - simpl. split; lia.
  - simpl.
    destruct (match sdk attempt with
              | ConnectTimeout => ([], LeaveEnd EndTimeout)
              | Streaming start events ending =>
                  consume render start [] events ending
              end) as [outs leave] eqn:Hbody.
    assert (Houts : sleeps outs = [] /\ connections outs = []).
    { destruct (sdk attempt) as [| start events ending].
      - inversion Hbody; subst. split; reflexivity.
      - pose proof (consume_counts start [] events ending) as Hc.
        rewrite Hbody in Hc. exact Hc. }
    destruct Houts as [Hs Hc].
    destruct leave as [| e].
    + simpl. rewrite Hs, Hc. simpl. split; lia.
    + pose proof (handle_counts attempt last_error e) as Hh.
      destruct (handle render config attempt last_error e)
        as [[handled next] outcome].
      simpl in Hh. destruct Hh as [Hhc Hhs].
      destruct next as [last_error' |].
      * specialize (IH (S attempt) last_error').
        destruct (attempts render config sdk remaining (S attempt)
                           last_error') as [rest outcome'].
        simpl in IH. destruct IH as [IHc IHs]. simpl.
        rewrite !connections_app, !sleeps_app, !length_app.
        rewrite Hs, Hc, Hhc. simpl. split; [lia |].
        destruct (Z.ltb_spec (Z.of_nat attempt) (max_retries config)); lia.
      * simpl. rewrite !connections_app, !sleeps_app, !length_app.
        rewrite Hs, Hc, Hhc. simpl. split; [lia |].
        destruct (Z.ltb_spec (Z.of_nat attempt) (max_retries config)); lia.
Qed.

End ProviderFacts.

(** X16. A provider call connects at most [max_retries + 1] times and
    sleeps at most [max_retries] times, whatever the responses are. *)
Theorem provider_call_is_bounded :
  forall (render : OpenAI.Note -> string) (config : LLMConfig)
         (sdk : nat -> OpenAI.Attempt),
    let outs := fst (OpenAI.stream render config sdk) in
    (Z.of_nat (List.length (connections outs))
     <= Z.max 0 (max_retries config + 1))%Z
    /\ (Z.of_nat (List.length (sleeps outs))
        <= Z.max 0 (max_retries config))%Z.
Proof.
  intros render config sdk outs.
  destruct (attempts_counts render config sdk
                            (Z.to_nat (max_retries config + 1)) 0 None)
    as [Hc Hs].
  fold (OpenAI.stream render config sdk) in Hc, Hs. fold outs in Hc, Hs.
  split; lia.
Qed.

(** X17. A provider call that is not cancelled never ends silently: the
    last thing it does is to yield a finish chunk, or the error chunk of
    the idle timeout. *)
Theorem provider_call_ends_with_a_finish_chunk :
  forall (render : OpenAI.Note -> string) (config : LLMConfig)
         (sdk : nat -> OpenAI.Attempt),
    snd (OpenAI.stream render config sdk) = OpenAI.Returned ->
    exists c,
      last_of (fst (OpenAI.stream render config sdk))
      = Some (OpenAI.Yield c)
      /\ (ch_type c = "finish"
          \/ c = error_chunk (render OpenAI.IdleTimeoutNote)).
Proof.
  intros render config sdk H. apply attempts_last. exact H.
Qed.

Lemma provider_call_ends_with_a_finish_chunk_witness :
  exists c,
    last_of (fst (OpenAI.stream plain_note DEFAULT_LLM_CONFIG
                                never_connects))
    = Some (OpenAI.Yield c)
    /\ (ch_type c = "finish"
        \/ c = error_chunk (plain_note OpenAI.IdleTimeoutNote)).
Proof.
  apply (provider_call_ends_with_a_finish_chunk
           plain_note DEFAULT_LLM_CONFIG never_connects).
  reflexivity.
Defined.

(** X18. The arguments that arrive in the same delta as the id of the
    first tool call of a response are lost: since no call is registered
    yet, the provider yields them in a [tool_call_delta] chunk without a
    call id, the loop attaches them to no call, and the call is parsed
    with the empty input.  From the second call of a response on, the
    chunk carries the id. *)
Theorem first_tool_call_loses_inline_arguments :
  forall (llm_user : nat -> LLMChoice) (json_loads : string -> option json)
         (idx : nat) (id name args : string) (l : Loop.Local) (w : World),
    id <> "" ->
    args <> "" ->
    w_aborted w = false ->
    let tc :=
      OpenAI.mkRawToolCall
        (Some id) (Some (OpenAI.mkRawFunction (Some name) (Some args))) in
    let chunks := fst (OpenAI.emit_tool_call [] tc) in
    chunks = [tool_call_chunk (Some id) (Some name);
              tool_call_delta_chunk None (Some args)]
    /\ (exists l',
           Loop.chunk_loop llm_user idx chunks None l w
           = (Loop.Completed l', w)
           /\ dict_get id (Loop.parse_all json_loads (Loop.tool_calls l'))
              = Some (mkToolCall id name (JObj []) PENDING None None None))
    /\ forall keys,
        keys <> [] ->
        fst (OpenAI.emit_tool_call keys tc)
        = [tool_call_chunk (Some id) (Some name);
           tool_call_delta_chunk (Some id) (Some args)].
Proof.
  intros llm_user json_loads idx id name args l w Hid Hargs Hflag tc chunks.
  apply String.eqb_neq in Hid. apply String.eqb_neq in Hargs.
  assert (Hchunks :
            chunks = [tool_call_chunk (Some id) (Some name);
                      tool_call_delta_chunk None (Some args)]).
  { unfold chunks, tc, OpenAI.emit_tool_call. simpl.
    rewrite Hid, Hargs. reflexivity. }
  split; [exact Hchunks |]. split.
  - rewrite Hchunks.
    exists (Loop.mkLocal
              (Loop.current_text l)
              (Loop.dict_set id
                 (mkToolCall id name (JObj []) PENDING None None None)
                 (Loop.tool_calls l))
              (Loop.finish_reason l)).
    split.
    + simpl. rewrite Hflag. reflexivity.
    + rewrite dict_get_parse_all. simpl Loop.tool_calls.
      rewrite dict_get_set_same. reflexivity.
  - intros keys Hkeys. unfold tc, OpenAI.emit_tool_call. simpl.
    rewrite Hid, Hargs. simpl.
    destruct keys as [| key keys]; [contradiction | reflexivity].
Qed.

Lemma first_tool_call_loses_inline_arguments_witness :
  let chunks := fst (OpenAI.emit_tool_call [] whole_call) in
  chunks = [tool_call_chunk (Some "call_1") (Some "bash");
            tool_call_delta_chunk None (Some (command_args "ls"))]
  /\ (exists l',
         Loop.chunk_loop skips 1 chunks None Loop.start step_world
         = (Loop.Completed l', step_world)
         /\ dict_get "call_1"
                     (Loop.parse_all JsonText.loads (Loop.tool_calls l'))
            = Some (mkToolCall "call_1" "bash" (JObj []) PENDING
                               None None None))
  /\ forall keys,
      keys <> [] ->
      fst (OpenAI.emit_tool_call keys whole_call)
      = [tool_call_chunk (Some "call_1") (Some "bash");
         tool_call_delta_chunk (Some "call_1") (Some (command_args "ls"))].
Proof.
  apply (first_tool_call_loses_inline_arguments
           skips JsonText.loads 1 "call_1" "bash" (command_args "ls")
           Loop.start step_world).
  - discriminate.
  - discriminate.
  - reflexivity.
Defined.

Section IdleFacts.
Import OpenAI.

Variable render : Note -> string.

Lemma emit_tool_call_types (keys : list string) (tc : RawToolCall) :
  forallb not_finish (fst (emit_tool_call keys tc)) = true.
Proof.
  unfold emit_tool_call.
  destruct (rtc_id tc) as [id |].
  - destruct (negb (String.eqb id "")); simpl;
      destruct (rtc_function tc) as [f |]; simpl; trivial;
      destruct (nonempty (fn_arguments f)); reflexivity.
  - simpl. destruct (rtc_function tc) as [f |]; simpl; trivial.
    destruct (nonempty (fn_arguments f)); reflexivity.
Qed.

Lemma emit_tool_calls_types (tcs : list RawToolCall) :
  forall keys, forallb not_finish (fst (emit_tool_calls keys tcs)) = true.
Proof.
  induction tcs as [| tc tcs IH]; intros keys; [reflexivity |].
  simpl. pose proof (emit_tool_call_types keys tc) as Hhead.
  destruct (emit_tool_call keys tc) as [out1 keys1].
  specialize (IH keys1).
  destruct (emit_tool_calls keys1 tcs) as [out2 keys2].
  simpl in *. rewrite forallb_app, Hhead, IH. reflexivity.
Qed.

(** What the provider yields before the chunk that comes too late: no
    finish chunk. *)
Lemma consume_idle_chunks (before : list (Q * RawChunk)) :
  forall (last : Q) (keys : list string) (t : Q) (raw : RawChunk)
         (after : list (Q * RawChunk)) (ending : Ending),
    quiet last before = true ->
    (60 < t - last_arrival last before)%Q ->
    exists chunks,
      consume render last keys (before ++ (t, raw) :: after) ending
      = (map Yield chunks ++ [Yield (error_chunk (render IdleTimeoutNote))],
         LeaveReturn)
      /\ forallb not_finish chunks = true.
Proof.
  induction before as [| [t0 raw0] before IH];
    intros last keys t raw after ending Hquiet Hgap.
  - exists []. simpl in *. split; [| reflexivity].
    destruct (Qle_bool (t - last) 60) eqn:Hle; [| reflexivity].
    apply Qle_bool_iff in Hle. exfalso.
    exact (Qlt_not_le _ _ Hgap Hle).
  - simpl in Hquiet, Hgap.
    apply andb_true_iff in Hquiet. destruct Hquiet as [Hquiet Hrest].
    apply andb_true_iff in Hquiet. destruct Hquiet as [Hle Hfin].
    simpl. rewrite Hle. simpl.
    destruct (raw_choice raw0) as [choice |];
      [| exact (IH t0 keys t raw after ending Hrest Hgap)].
    destruct (choice_delta choice) as [delta |];
      [| exact (IH t0 keys t raw after ending Hrest Hgap)].
    apply negb_true_iff in Hfin. rewrite Hfin.
    pose proof (emit_tool_calls_types (delta_tool_calls delta) keys)
      as Hcalls.
    destruct (emit_tool_calls keys (delta_tool_calls delta))
      as [calls keys'].
    simpl in Hcalls.
    destruct (IH t0 keys' t raw after ending Hrest Hgap)
      as (chunks & Hchunks & Htypes).
    rewrite Hchunks.
    exists ((if nonempty (delta_content delta)
             then [mkChunk "text" (delta_content delta)
                           None None None None None None]
             else [])
              ++ calls ++ chunks).
    split.
    + rewrite !map_app, <- !app_assoc.
      destruct (nonempty (delta_content delta)); reflexivity.
    + rewrite !forallb_app, Hcalls, Htypes.
      destruct (nonempty (delta_content delta)); reflexivity.
Qed.

End IdleFacts.

Section ReasonFacts.
Import Session Loop.

Variable llm_user : nat -> LLMChoice.

Lemma on_chunk_reason (idx : nat) (c : StreamChunk) (l : Local) (w : World) :
  not_finish c = true ->
  match fst (Loop.on_chunk llm_user idx c l w) with
  | Completed l' => finish_reason l' = finish_reason l
  | Retry _ => False
  | Raised _ l' => finish_reason l' = finish_reason l
  end.
Proof.
  unfold not_finish, Loop.on_chunk. intros H.
  apply negb_true_iff in H.
  destruct (String.eqb (ch_type c) "text").
  { destruct (ch_content c); reflexivity. }
  destruct (String.eqb (ch_type c) "tool_call").
  { destruct (ch_tool_call_id c); [destruct (ch_tool_name c) |];
      reflexivity. }
  destruct (String.eqb (ch_type c) "tool_call_delta").
  { destruct (ch_tool_call_id c); reflexivity. }
  destruct (String.eqb (ch_type c) "error"); [reflexivity |].
  rewrite H. reflexivity.
Qed.

(** Only a finish chunk changes the finish reason of a call. *)
Lemma chunk_loop_reason (idx : nat) (chunks : list StreamChunk)
      (ending : option Exn) :
  forallb not_finish chunks = true ->
  forall (l l' : Local) (w w' : World),
    Loop.chunk_loop llm_user idx chunks ending l w = (Completed l', w') ->
    finish_reason l' = finish_reason l.
Proof.
  induction chunks as [| c chunks IH]; intros Htypes l l' w w' H;
    simpl in H.
  - destruct ending; inversion H; subst; reflexivity.
  - simpl in Htypes. apply andb_true_iff in Htypes.
    destruct Htypes as [Hc Hrest].
    destruct (w_aborted w); [inversion H; subst; reflexivity |].
    pose proof (on_chunk_reason idx c l w Hc) as Hstep.
    destruct (Loop.on_chunk llm_user idx c l w) as [[l1 | l1 | e l1] w1];
      simpl in Hstep.
    + rewrite (IH Hrest _ _ _ _ H). exact Hstep.
    + contradiction.
    + discriminate.
Qed.

End ReasonFacts.

(** X19. The loop cannot tell an idle timeout from a finished answer.
    The provider yields what it received before the gap and the error
    chunk, and no finish chunk; in the loop the error chunk is only
    shown, so the call ends with the finish reason still at its initial
    [stop]. *)
Theorem idle_timeout_reads_as_a_stop :
  forall (render : OpenAI.Note -> string) (config : LLMConfig)
         (sdk : nat -> OpenAI.Attempt) (llm_user : nat -> LLMChoice)
         (remaining n : nat) (last_error : option string) (start t : Q)
         (before after : list (Q * OpenAI.RawChunk))
         (raw : OpenAI.RawChunk) (ending : OpenAI.Ending)
         (idx : nat) (l : Loop.Local) (w w' : World),
    sdk n = OpenAI.Streaming start (before ++ (t, raw) :: after) ending ->
    quiet start before = true ->
    (60 < t - last_arrival start before)%Q ->
    let outs :=
      fst (OpenAI.attempts render config sdk (S remaining) n last_error) in
    Loop.chunk_loop llm_user idx (yielded outs) None Loop.start w
    = (Loop.Completed l, w') ->
    forallb not_finish (yielded outs) = true
    /\ Loop.finish_reason l = Some "stop".
Proof.
  intros render config sdk llm_user remaining n last_error start t before
         after raw ending idx l w w' Hsdk Hquiet Hgap outs Hloop.
  destruct (consume_idle_chunks render before start [] t raw after ending
                                Hquiet Hgap)
    as (chunks & Hchunks & Htypes).
  assert (Houts :
            yielded outs
            = chunks ++ [error_chunk (render OpenAI.IdleTimeoutNote)]).
  { unfold outs. simpl. rewrite Hsdk, Hchunks. simpl.
    rewrite yielded_app.
    destruct (yields_only chunks) as (_ & _ & Hy). rewrite Hy.
    reflexivity. }
  assert (Hall : forallb not_finish (yielded outs) = true).
  { rewrite Houts, forallb_app, Htypes. reflexivity. }
  split; [exact Hall |].
  exact (chunk_loop_reason llm_user idx _ None Hall _ _ _ _ Hloop).
Qed.

Lemma idle_timeout_reads_as_a_stop_witness :
  let outs :=
    fst (OpenAI.attempts plain_note DEFAULT_LLM_CONFIG goes_silent 4 0
                         None) in
  forallb not_finish (yielded outs) = true
  /\ Loop.finish_reason (Loop.mkLocal "Hel" [] (Some "stop")) = Some "stop".
Proof.
  apply (idle_timeout_reads_as_a_stop
           plain_note DEFAULT_LLM_CONFIG goes_silent skips 3 0 None 0 62
           [(1, raw_text "Hel")]%Q [] (raw_text "lo")
           OpenAI.EndOfStream 1 (Loop.mkLocal "Hel" [] (Some "stop"))
           step_world step_world).
  - reflexivity.
  - reflexivity.
  - reflexivity.
  - reflexivity.
Defined.

(* ================================================================== *)
(** * [retry_async] and [parse_model] *)

Section RetryAsyncFacts.
Import Errors.

Variable A : Type.
Variable config : RetryConfig.
Variable func : nat -> Call A.

Lemma py_min_cap (a b : Q) : (py_min a b <= b)%Q.
Proof.
  unfold py_min. destruct (Qle_bool a b) eqn:Hle.
  - apply Qle_bool_iff. exact Hle.
  - apply Qle_refl.
Qed.

Lemma retry_async_delay_cases (attempt : nat) (retry_after : option Q) :
  (retry_async_delay config attempt retry_after <= max_delay config)%Q
  \/ retry_after = Some (retry_async_delay config attempt retry_after).
Proof.
  unfold retry_async_delay. destruct retry_after as [after |].
  - destruct (Qeq_bool after 0).
    + left. apply py_min_cap.
    + right. reflexivity.
  - left. apply py_min_cap.
Qed.

Lemma retry_loop_delays (remaining : nat) :
  forall (attempt : nat) (last_exception : option (nat * Failure)),
    let delays :=
      fst (retry_loop config func remaining attempt last_exception) in
    List.length delays
    <= Z.to_nat (rc_max_retries config - Z.of_nat attempt)
    /\ Forall
         (fun d =>
            (d <= max_delay config)%Q
            \/ exists k e,
                func k = Fails e /\ f_retry_after e = Some d)
         delays.
Proof.
  induction remaining as [| remaining IH]; intros attempt last_exception.
  - simpl. split; [lia | constructor].
  - simpl. destruct (func attempt) as [a | e] eqn:Hcall.
    + simpl. split; [lia | constructor].
    + destruct (f_retryable e); [| simpl; split; [lia | constructor]].
      destruct (Z.leb_spec (rc_max_retries config) (Z.of_nat attempt))
        as [Hle | Hlt].
      * simpl. split; [lia | constructor].
      * specialize (IH (S attempt) (Some (attempt, e))).
        destruct (retry_loop config func remaining (S attempt)
                             (Some (attempt, e))) as [delays ended].
        simpl in IH. destruct IH as [Hlen Hall]. simpl. split; [lia |].
        constructor; [| exact Hall].
        destruct (retry_async_delay_cases attempt (f_retry_after e))
          as [Hcap | Hafter]; [left; exact Hcap |].
        right. exists attempt, e. split; assumption.
Qed.

Lemma retry_loop_success (d : nat) :
  forall (remaining attempt k : nat) (a : A)
         (last_exception : option (nat * Failure)),
    attempt + d = k ->
    d < remaining ->
    func k = Returns a ->
    (forall j, attempt <= j < k ->
               exists e, func j = Fails e /\ f_retryable e = true) ->
    (Z.of_nat k <= rc_max_retries config)%Z ->
    snd (retry_loop config func remaining attempt last_exception)
    = Returned a
    /\ List.length
         (fst (retry_loop config func remaining attempt last_exception))
       = d.
Proof.
  induction d as [| d IH];
    intros remaining attempt k a last_exception Hk Hrem Hcall Hfail Hmax.
  - destruct remaining as [| remaining]; [lia |].
    replace attempt with k by lia. simpl. rewrite Hcall. split; reflexivity.
  - destruct remaining as [| remaining]; [lia |].
    destruct (Hfail attempt) as (e & He & Hretry); [lia |].
    simpl. rewrite He, Hretry.
    destruct (Z.leb_spec (rc_max_retries config) (Z.of_nat attempt))
      as [Hle | Hlt]; [lia |].
    destruct (IH remaining (S attempt) k a (Some (attempt, e)))
      as [Hres Hlen]; try lia; trivial.
    { intros j Hj. apply Hfail. lia. }
    destruct (retry_loop config func remaining (S attempt)
                         (Some (attempt, e))) as [delays ended].
    simpl in *. split; [exact Hres | lia].
Qed.

End RetryAsyncFacts.

(** X20. [retry_async] sleeps at most [max_retries] times, and each of
    its delays is at most [max_delay], unless it is the [retry_after] that
    a failure of the function asked for. *)
Theorem retry_async_delays_are_capped :
  forall (A : Type) (config : RetryConfig) (func : nat -> Errors.Call A),
    let delays := fst (Errors.retry_async config func) in
    (Z.of_nat (List.length delays) <= Z.max 0 (rc_max_retries config))%Z
    /\ Forall
         (fun d =>
            (d <= max_delay config)%Q
            \/ exists k e,
                func k = Errors.Fails e
                /\ Errors.f_retry_after e = Some d)
         delays.
Proof.
  intros A config func delays.
  destruct (retry_loop_delays A config func
                              (Z.to_nat (rc_max_retries config + 1)) 0 None)
    as [Hlen Hall].
  fold (Errors.retry_async config func) in Hlen, Hall.
  fold delays in Hlen, Hall.
  split; [lia | exact Hall].
Qed.

(** X21. [retry_async] returns what the first successful call of the
    function returns, when the calls before it failed with retryable
    exceptions and were at most [max_retries]; it has then slept once for
    each of these failures. *)
Theorem retry_async_returns_the_first_success :
  forall (A : Type) (config : RetryConfig) (func : nat -> Errors.Call A)
         (k : nat) (a : A),
    func k = Errors.Returns a ->
    (forall j, j < k ->
               exists e,
                 func j = Errors.Fails e /\ Errors.f_retryable e = true) ->
    (Z.of_nat k <= rc_max_retries config)%Z ->
    snd (Errors.retry_async config func) = Errors.Returned a
    /\ List.length (fst (Errors.retry_async config func)) = k.
Proof.
  intros A config func k a Hcall Hfail Hmax.
  apply (retry_loop_success A config func k _ 0 k a None); trivial.
  - lia.
  - intros j Hj. apply Hfail. lia.
Qed.

Lemma retry_async_returns_the_first_success_witness :
  Errors.retry_async DEFAULT_RETRY_CONFIG third_time_lucky
  = ([1; 90]%Q, Errors.Returned "done")
  /\ snd (Errors.retry_async DEFAULT_RETRY_CONFIG third_time_lucky)
     = Errors.Returned "done"
  /\ List.length (fst (Errors.retry_async DEFAULT_RETRY_CONFIG
                                          third_time_lucky))
     = 2.
Proof.
  split; [reflexivity |].
  apply (retry_async_returns_the_first_success
           string DEFAULT_RETRY_CONFIG third_time_lucky 2 "done").
  - reflexivity.
  - intros [| [| j]] Hj.
    + eexists. split; reflexivity.
    + eexists. split; reflexivity.
    + lia.
  - vm_compute. discriminate.
Defined.

Section ParseModelFacts.
Import Llm.

Lemma contains_slash_cons (c : ascii) (s : string) :
  Py.contains "/" (String c s)
  = Ascii.eqb c "/"%char || Py.contains "/" s.
Proof.
  cbn [Py.contains String.prefix].
  destruct (Ascii.ascii_dec "/"%char c) as [Heq | Hne].
  - subst c. rewrite Ascii.eqb_refl. destruct s; reflexivity.
  - destruct (Ascii.eqb_spec c "/"%char) as [Heq | _];
      [congruence | reflexivity].
Qed.

Lemma split_slash_join (provider model : string) :
  Py.contains "/" provider = false ->
  split_slash (provider ++ "/" ++ model) = Some (provider, model).
Proof.
  induction provider as [| c provider IH]; intros H.
  - reflexivity.
  - rewrite contains_slash_cons in H. apply orb_false_iff in H.
    destruct H as [Hc Hrest].
    simpl. rewrite Hc. 
    change (split_slash (provider ++ String "/" model))
      with (split_slash (provider ++ "/" ++ model)).
    rewrite (IH Hrest). reflexivity.
Qed.

Lemma split_slash_none (s : string) :
  split_slash s = None <-> Py.contains "/" s = false.
Proof.
  induction s as [| c s IH].
  - split; reflexivity.
  - rewrite contains_slash_cons. simpl.
    destruct (Ascii.eqb c "/"%char); simpl.
    + split; discriminate.
    + rewrite <- IH. destruct (split_slash s) as [[before after] |];
        split; congruence.
Qed.

Lemma split_slash_some (s before after : string) :
  split_slash s = Some (before, after) ->
  s = (before ++ "/" ++ after)%string /\ Py.contains "/" before = false.
Proof.
  revert before after. induction s as [| c s IH]; intros before after H.
  - discriminate.
  - simpl in H. destruct (Ascii.eqb_spec c "/"%char) as [Heq | Hne].
    + inversion H; subst. split; reflexivity.
    + destruct (split_slash s) as [[b a] |]; [| discriminate].
      inversion H; subst. destruct (IH b after eq_refl) as [Hs Hb].
      split; [rewrite Hs at 1; reflexivity |].
      rewrite contains_slash_cons, Hb.
      destruct (Ascii.eqb_spec c "/"%char); [contradiction | reflexivity].
Qed.

End ParseModelFacts.

(** X22. [parse_model] cuts at the first slash: a text without a slash
    that is joined to a model by a slash is given back as the provider,
    with the model, which may hold slashes, as it was; taken alone, the
    same text is a model of the provider [openai]. *)
Theorem parse_model_inverts_the_join :
  forall (provider model : string),
    Py.contains "/" provider = false ->
    Llm.parse_model (provider ++ "/" ++ model) = (provider, model)
    /\ Llm.parse_model provider = ("openai", provider).
Proof.
  intros provider model H. unfold Llm.parse_model. split.
  - rewrite (split_slash_join provider model H). reflexivity.
  - apply split_slash_none in H. rewrite H. reflexivity.
Qed.

Lemma parse_model_inverts_the_join_witness :
  Llm.parse_model "deepseek/org/chat-v3" = ("deepseek", "org/chat-v3")
  /\ Llm.parse_model "deepseek" = ("openai", "deepseek").
Proof.
  apply (parse_model_inverts_the_join "deepseek" "org/chat-v3").
  reflexivity.
Defined.

(* ================================================================== *)
(** * The tool calls a permission error leaves behind *)

Section CallsKept.
Import Session Loop.

Variable user : nat -> string -> string -> Response.
Variable tools : string -> option Tool.
Variable check_untyped :
  string -> json -> PermissionManager -> Result unit * PermissionManager.

Local Abbreviation try_tool := (Loop.try_tool user check_untyped).
Local Abbreviation _execute_tools :=
  (Loop._execute_tools user tools check_untyped).

Lemma update_parts_erased (call_id : string) (state : ToolState)
      (output error : option string) (parts : list MessagePart) :
  map erase_part (update_parts call_id state output error parts)
  = map erase_part parts.
Proof.
  induction parts as [| part parts IH]; [reflexivity |].
  destruct part as [text synthetic | tc | text]; simpl.
  - rewrite IH. reflexivity.
  - destruct (String.eqb (tc_id tc) call_id); simpl.
    + reflexivity.
    + rewrite IH. reflexivity.
  - rewrite IH. reflexivity.
Qed.

Lemma same_calls_refl (idx : nat) (w : World) : same_calls idx w w.
Proof.
  exists (fun m => m). split; [intros m; reflexivity | apply through_refl].
Qed.

Lemma same_calls_trans (idx : nat) (w1 w2 w3 : World) :
  same_calls idx w1 w2 -> same_calls idx w2 w3 -> same_calls idx w1 w3.
Proof.
  intros (f & Hf & Htf) (g & Hg & Htg). exists (fun m => g (f m)). split.
  - intros m. rewrite Hg, Hf. reflexivity.
  - exact (through_trans idx f g w1 w2 w3 Htf Htg).
Qed.

Lemma same_calls_same (idx : nat) (w w' : World) :
  w_messages w' = w_messages w -> same_calls idx w w'.
Proof.
  intros H. exists (fun m => m). split; [intros m; reflexivity |].
  unfold through. rewrite H. symmetry. apply modify_at_same.
Qed.

Lemma same_calls_update (idx : nat) (call_id : string) (state : ToolState)
      (output error : option string) (w : World) :
  same_calls idx w
             (modify idx (update_tool_part call_id state output error) w).
Proof.
  exists (update_tool_part call_id state output error). split.
  - intros m. apply update_parts_erased.
  - apply through_modify.
Qed.

Lemma try_tool_same_calls (idx : nat) (tool : Tool) (call_id : string)
      (tc : ToolCall) (w w' : World) (r : Result unit) :
  try_tool idx tool call_id tc w = (r, w') -> same_calls idx w w'.
Proof.
  unfold Loop.try_tool. intros H.
  destruct (precheck user check_untyped tc (w_permission w))
    as [[preapproved | e] pm1].
  - destruct (ToolContext.execute user preapproved (tool (tc_input tc)) pm1)
      as [[output | e] pm2].
    + destruct (_display_tool_result tc); inversion H; subst;
        (eapply same_calls_trans; [| apply same_calls_update]);
        apply same_calls_same; reflexivity.
    + inversion H; subst. apply same_calls_same. reflexivity.
  - inversion H; subst. apply same_calls_same. reflexivity.
Qed.

Lemma execute_tools_same_calls (idx : nat)
      (calls : list (string * ToolCall)) :
  forall (w w' : World) (r : Result unit),
    _execute_tools idx calls w = (r, w') -> same_calls idx w w'.
Proof.
  induction calls as [| [call_id tc] calls IH]; intros w w' r H.
  - inversion H; subst. apply same_calls_refl.
  - rewrite execute_tools_cons in H.
    destruct (tools (tc_tool_name tc)) as [tool |].
    + destruct (_format_tool_summary tc) as [[] | e];
        [| inversion H; subst; apply same_calls_refl].
      destruct (try_tool idx tool call_id tc
                  (modify idx (update_tool_part call_id RUNNING None None)
                          w))
        as [[[] | e] w2] eqn:Htry;
        apply try_tool_same_calls in Htry;
        assert (Hrun : same_calls idx w w2)
          by (eapply same_calls_trans;
              [apply same_calls_update | exact Htry]).
      * eapply same_calls_trans; [exact Hrun | exact (IH _ _ _ H)].
      * destruct e as [msg | msg | | cls msg].
        -- inversion H; subst.
           eapply same_calls_trans; [exact Hrun | apply same_calls_update].
        -- inversion H; subst.
           eapply same_calls_trans; [exact Hrun | apply same_calls_update].
        -- inversion H; subst. exact Hrun.
        -- eapply same_calls_trans; [| exact (IH _ _ _ H)].
           eapply same_calls_trans; [exact Hrun | apply same_calls_update].
    + eapply same_calls_trans; [apply same_calls_update |].
      exact (IH _ _ _ H).
Qed.

End CallsKept.

Section UnansweredFacts.
Import Session SessionFormat.

Lemma tool_ids_erased (parts : list MessagePart) :
  tool_ids (map erase_part parts) = tool_ids parts.
Proof.
  induction parts as [| part parts IH]; [reflexivity |].
  destruct part as [text synthetic | tc | text]; simpl; rewrite IH;
    reflexivity.
Qed.

Lemma tool_ids_app (a b : list MessagePart) :
  tool_ids (a ++ b) = (tool_ids a ++ tool_ids b)%list.
Proof.
  induction a as [| part a IH]; [reflexivity |].
  destruct part as [text synthetic | tc | text]; simpl; rewrite IH;
    reflexivity.
Qed.

Lemma tool_ids_dict (d : list (string * ToolCall)) :
  Forall registered d ->
  tool_ids (map (fun entry => ToolPart (snd entry)) d) = map fst d.
Proof.
  induction 1 as [| entry d [Hid _] _ IH]; [reflexivity |].
  simpl. rewrite Hid, IH. reflexivity.
Qed.

(** The declared calls are the tool parts, in order. *)
Lemma gather_ids (parts : list MessagePart) :
  map api_id (snd (gather parts "" [])) = tool_ids parts.
Proof.
  induction parts as [| part parts IH]; [reflexivity |].
  destruct part as [text synthetic | tc | text]; simpl.
  - rewrite gather_calls. exact IH.
  - rewrite gather_calls. simpl. rewrite IH. reflexivity.
  - exact IH.
Qed.

(** A result is the result of a tool part that is not pending. *)
Lemma tool_results_member (parts : list MessagePart) (id c : string) :
  In (ApiTool id c) (tool_results parts) ->
  exists tc,
    In (ToolPart tc) parts /\ tc_id tc = id /\ tc_state tc <> PENDING.
Proof.
  induction parts as [| part parts IH]; [intros [] |].
  assert (Hrest :
            In (ApiTool id c) (tool_results parts) ->
            exists tc,
              In (ToolPart tc) (part :: parts)
              /\ tc_id tc = id /\ tc_state tc <> PENDING).
  { intros H. destruct (IH H) as (tc & Hin & Hid & Hstate).
    exists tc. repeat split; trivial. right. exact Hin. }
  destruct part as [text synthetic | tc | text]; simpl; trivial.
  destruct (tc_state tc) eqn:Hstate; simpl; trivial;
    (intros [H | H]; [| apply Hrest; exact H]);
    inversion H; subst; exists tc;
    (split; [left; reflexivity | split; [reflexivity | congruence]]).
Qed.

Lemma tool_ids_member (parts : list MessagePart) (tc : ToolCall) :
  In (ToolPart tc) parts -> In (tc_id tc) (tool_ids parts).
Proof.
  induction parts as [| part parts IH]; [intros [] |].
  intros [-> | Hin]; [left; reflexivity |].
  destruct part; simpl; try (apply IH; exact Hin).
  right. apply IH. exact Hin.
Qed.

(** With pairwise distinct call ids, a tool part is the one found under
    its id. *)
Lemma find_tool_part_unique (parts : list MessagePart) (tc : ToolCall) :
  NoDup (tool_ids parts) ->
  In (ToolPart tc) parts ->
  find_tool_part (tc_id tc) parts = Some tc.
Proof.
  induction parts as [| part parts IH]; intros Hnodup Hin; [destruct Hin |].
  destruct part as [text synthetic | tc0 | text]; simpl in *.
  - destruct Hin as [H | Hin]; [discriminate | exact (IH Hnodup Hin)].
  - inversion Hnodup as [| ? ? Hnotin Hrest]; subst.
    destruct Hin as [H | Hin].
    + inversion H; subst. rewrite String.eqb_refl. reflexivity.
    + destruct (String.eqb_spec (tc_id tc0) (tc_id tc)) as [Heq | _].
      * exfalso. apply Hnotin. rewrite Heq.
        apply tool_ids_member. exact Hin.
      * exact (IH Hrest Hin).
  - destruct Hin as [H | Hin]; [discriminate | exact (IH Hnodup Hin)].
Qed.

Lemma text_only_ids (text : string) : tool_ids (text_only text) = [].
Proof. unfold text_only. destruct (String.eqb text ""); reflexivity. Qed.

Lemma text_only_find (id text : string) :
  find_tool_part id (text_only text) = None.
Proof. unfold text_only. destruct (String.eqb text ""); reflexivity. Qed.

(** What a message with tool parts is converted to. *)
Lemma convert_with_calls (a : AssistantMessage) :
  tool_ids (am_parts a) <> [] ->
  exists reply calls,
    convert (AssistantMsg a)
    = ApiAssistant reply calls :: tool_results (am_parts a)
    /\ map api_id calls = tool_ids (am_parts a).
Proof.
  intros Hids. simpl.
  pose proof (gather_ids (am_parts a)) as Hg.
  destruct (gather (am_parts a) "" []) as [content tool_calls].
  simpl in Hg.
  destruct tool_calls as [| call tool_calls].
  - simpl in Hg. congruence.
  - rewrite andb_false_r. eexists. eexists. split; [reflexivity |].
    exact Hg.
Qed.

Lemma nodup_app_disjoint (a b : list string) (x : string) :
  NoDup (a ++ b) -> In x b -> ~ In x a.
Proof.
  induction a as [| y a IH]; intros Hnodup Hb Ha; [exact Ha |].
  simpl in Hnodup. inversion Hnodup as [| ? ? Hnotin Hrest]; subst.
  destruct Ha as [-> | Ha].
  - apply Hnotin. apply in_or_app. right. exact Hb.
  - exact (IH Hrest Hb Ha).
Qed.

Lemma dict_get_member (id : string) (tc : ToolCall)
      (d : list (string * ToolCall)) :
  NoDup (map fst d) -> In (id, tc) d -> dict_get id d = Some tc.
Proof.
  intros Hnodup Hin. apply in_split in Hin.
  destruct Hin as (pre & post & ->).
  apply dict_get_middle. exact Hnodup.
Qed.

End UnansweredFacts.

Section RegisteredFacts.
Import Session Loop.

Variable json_loads : string -> option json.

Lemma parse_all_registered (d : list (string * ToolCall)) :
  Forall registered d -> Forall registered (parse_all json_loads d).
Proof.
  induction 1 as [| [id tc] d [Hid Hstate] _ IH]; [constructor |].
  simpl. constructor; [| exact IH].
  unfold registered, parse_args in *. simpl in *.
  destruct (tc_args_str tc); simpl; auto.
Qed.

Lemma registered_ids (d : list (string * ToolCall)) :
  Forall registered d ->
  Forall (fun entry => tc_id (snd entry) = fst entry) d.
Proof. apply Forall_impl. intros entry [Hid _]. exact Hid. Qed.

End RegisteredFacts.

Section RefusedStep.
Import Session Loop.

Variable user : nat -> string -> string -> Response.
Variable json_loads : string -> option json.
Variable tools : string -> option Tool.
Variable check_untyped :
  string -> json -> PermissionManager -> Result unit * PermissionManager.

(** The message of a step that a permission error ends: it has the tool
    parts of the calls of the step, and those behind the refused call are
    as they were added. *)
Lemma refused_step_message (idx : nat) (l : Local)
      (pre post : list (string * ToolCall))
      (call_id : string) (tc : ToolCall) (tool : Tool)
      (w w_pre w_t : World) (e : Exn) (m : AssistantMessage) :
  NoDup (map fst (tool_calls l)) ->
  Forall registered (tool_calls l) ->
  assistant_at idx w = Some m ->
  am_parts m = [] ->
  parse_all json_loads (tool_calls l) = (pre ++ (call_id, tc) :: post)%list ->
  _execute_tools user tools check_untyped idx pre
    (add_tool_parts idx (parse_all json_loads (tool_calls l))
       (add_text_if_any idx (current_text l) w))
  = (Ok tt, w_pre) ->
  tools (tc_tool_name tc) = Some tool ->
  _format_tool_summary tc = Ok tt ->
  try_tool user check_untyped idx tool call_id tc
    (modify idx (update_tool_part call_id RUNNING None None) w_pre)
  = (Raise e, w_t) ->
  permission_error e ->
  exists m',
    assistant_at idx
      (snd (after_stream user json_loads tools check_untyped idx l w))
    = Some m'
    /\ tool_ids (am_parts m')
       = map fst (parse_all json_loads (tool_calls l))
    /\ forall entry,
        In entry post ->
        find_tool_part (fst entry) (am_parts m') = Some (snd entry).
Proof.
  intros Hnodup Hreg Hm Hempty Hparse Hpre Htool Hsummary Htry Hperm.
  rewrite (after_stream_raises user json_loads tools check_untyped idx l
                               pre post call_id tc tool w w_pre w_t e
                               Hparse Hpre Htool Hsummary Htry Hperm).
  simpl snd.
  set (calls := parse_all json_loads (tool_calls l)) in *.
  assert (Hcalls_reg : Forall registered calls)
    by (apply parse_all_registered; exact Hreg).
  assert (Hcalls_nodup : NoDup (map fst calls))
    by (unfold calls; rewrite parse_all_keys; exact Hnodup).
  set (m0 := add_all calls (add_text_maybe (current_text l) m)).
  set (w_parts :=
         add_tool_parts idx calls
                        (add_text_if_any idx (current_text l) w)) in *.
  assert (Hm0 : assistant_at idx w_parts = Some m0).
  { unfold w_parts.
    rewrite (through_assistant_at idx _ _ _
               (add_tool_parts_through idx calls _)).
    rewrite (add_text_if_any_message idx _ w m Hm). reflexivity. }
  assert (Hparts0 :
            am_parts m0
            = (text_only (current_text l)
                 ++ map (fun entry => ToolPart (snd entry)) calls)%list).
  { unfold m0. rewrite add_all_parts.
    rewrite (add_text_maybe_parts _ m Hempty). reflexivity. }
  assert (Hids0 : tool_ids (am_parts m0) = map fst calls).
  { rewrite Hparts0, tool_ids_app, text_only_ids.
    apply tool_ids_dict. exact Hcalls_reg. }
  set (w_err :=
         modify idx (update_tool_part call_id ERROR None (Some (exn_str e)))
                w_t).
  (* the world is reached by changes of the states of the calls *)
  assert (Hsame : same_calls idx w_parts w_err).
  { eapply same_calls_trans;
      [exact (execute_tools_same_calls user tools check_untyped idx pre
                                       _ _ _ Hpre) |].
    eapply same_calls_trans; [apply same_calls_update |].
    eapply same_calls_trans;
      [exact (try_tool_same_calls user check_untyped idx tool call_id tc
                                  _ _ _ Htry) |].
    apply same_calls_update. }
  destruct Hsame as (g & Hg & Hthrough_g).
  assert (Hm' : assistant_at idx w_err = Some (g m0)).
  { rewrite (through_assistant_at idx g w_parts w_err Hthrough_g), Hm0.
    reflexivity. }
  (* and by changes of the calls up to the refused one *)
  destruct (execute_tools_frame user tools check_untyped idx pre
                                _ _ _ Hpre)
    as [(f1 & Hk1 & Ht1) _].
  destruct (try_tool_frame user check_untyped idx tool call_id tc _ _ _ Htry)
    as [(f2 & Hk2 & Ht2) _].
  set (f := fun a =>
              update_tool_part call_id ERROR None (Some (exn_str e))
                (f2 (update_tool_part call_id RUNNING None None (f1 a)))).
  assert (Hkf : keeps (map fst pre ++ [call_id]) f).
  { unfold f.
    apply (keeps_compose _
             (fun a => f2 (update_tool_part call_id RUNNING None None
                                            (f1 a)))).
    - apply (keeps_compose _
               (fun a => update_tool_part call_id RUNNING None None (f1 a))).
      + apply keeps_compose.
        * eapply keeps_more; [| exact Hk1].
          intros x Hx. apply in_or_app. left. exact Hx.
        * eapply keeps_more; [| apply keeps_update].
          intros x Hx. apply in_or_app. right. exact Hx.
      + eapply keeps_more; [| exact Hk2].
        intros x Hx. apply in_or_app. right. exact Hx.
    - eapply keeps_more; [| apply keeps_update].
      intros x Hx. apply in_or_app. right. exact Hx. }
  assert (Hthrough_f : through idx f w_parts w_err).
  { unfold f, w_err.
    eapply through_trans; [| apply through_modify].
    eapply through_trans; [| exact Ht2].
    eapply through_trans; [exact Ht1 | apply through_modify]. }
  assert (Hfg : f m0 = g m0).
  { pose proof (through_assistant_at idx f w_parts w_err Hthrough_f) as Hf.
    rewrite Hm0, Hm' in Hf. simpl in Hf. congruence. }
  exists (g m0). split; [exact Hm' |]. split.
  - rewrite <- tool_ids_erased, Hg, tool_ids_erased. exact Hids0.
  - intros [id' tc'] Hin. simpl fst. simpl snd.
    assert (Hin_calls : In (id', tc') calls).
    { rewrite Hparse. apply in_or_app. right. right. exact Hin. }
    assert (Hfresh : ~ In id' (map fst pre ++ [call_id])).
    { apply (nodup_app_disjoint _ (map fst post)).
      - rewrite Hparse in Hcalls_nodup.
        rewrite map_app in Hcalls_nodup. simpl in Hcalls_nodup.
        rewrite <- app_assoc. exact Hcalls_nodup.
      - apply (in_map fst) in Hin. exact Hin. }
    assert (Hfound : find_tool_part id' (am_parts m0) = Some tc').
    { rewrite Hparts0, find_tool_part_app, text_only_find.
      rewrite (find_tool_part_dict id' calls (registered_ids _ Hcalls_reg)).
      apply dict_get_member; assumption. }
    rewrite <- Hfg.
    pose proof (Hkf m0 id') as Hkeep. rewrite Hfound in Hkeep.
    destruct (find_tool_part id' (am_parts (f m0))) as [tc'' |];
      [| contradiction].
    destruct Hkeep as (_ & _ & Heq). rewrite (Heq Hfresh). reflexivity.
Qed.

End RefusedStep.

(** X23. After a permission error, the tool calls of the step that were
    scheduled behind the refused one stay in the stored message as they
    were added, pending. Converted for the next request, the message
    declares each of them in its [tool_calls], and no dict of role [tool]
    answers it. *)
Theorem calls_behind_a_refusal_stay_unanswered :
  forall (user : nat -> string -> string -> Response)
         (json_loads : string -> option json)
         (tools : string -> option Tool)
         (check_untyped :
            string -> json -> PermissionManager
            -> Result unit * PermissionManager)
         (idx : nat) (l : Loop.Local)
         (pre post : list (string * ToolCall))
         (call_id : string) (tc : ToolCall) (tool : Tool)
         (w w_pre w_t : World) (e : Exn) (m : AssistantMessage),
    NoDup (map fst (Loop.tool_calls l)) ->
    Forall registered (Loop.tool_calls l) ->
    Session.assistant_at idx w = Some m ->
    am_parts m = [] ->
    Loop.parse_all json_loads (Loop.tool_calls l)
    = (pre ++ (call_id, tc) :: post)%list ->
    Loop._execute_tools user tools check_untyped idx pre
      (Loop.add_tool_parts idx (Loop.parse_all json_loads (Loop.tool_calls l))
         (Loop.add_text_if_any idx (Loop.current_text l) w))
    = (Ok tt, w_pre) ->
    tools (tc_tool_name tc) = Some tool ->
    Loop._format_tool_summary tc = Ok tt ->
    Loop.try_tool user check_untyped idx tool call_id tc
      (Session.modify idx
         (Session.update_tool_part call_id RUNNING None None) w_pre)
    = (Raise e, w_t) ->
    permission_error e ->
    exists m' reply calls results,
      Session.assistant_at idx
        (snd (Loop.after_stream user json_loads tools check_untyped idx l w))
      = Some m'
      /\ SessionFormat.convert (AssistantMsg m')
         = ApiAssistant reply calls :: results
      /\ forall entry,
          In entry post ->
          Session.find_tool_part (fst entry) (am_parts m')
          = Some (snd entry)
          /\ tc_state (snd entry) = PENDING
          /\ In (fst entry) (map api_id calls)
          /\ forall content, ~ In (ApiTool (fst entry) content) results.
Proof.
  intros user json_loads tools check_untyped idx l pre post call_id tc tool
         w w_pre w_t e m Hnodup Hreg Hm Hempty Hparse Hpre Htool Hsummary
         Htry Hperm.
  destruct (refused_step_message user json_loads tools check_untyped idx l
              pre post call_id tc tool w w_pre w_t e m Hnodup Hreg Hm Hempty
              Hparse Hpre Htool Hsummary Htry Hperm)
    as (m' & Hm' & Hids & Hfind).
  assert (Hnonempty : tool_ids (am_parts m') <> []).
  { rewrite Hids, Hparse, map_app. intros H.
    apply app_eq_nil in H. destruct H as [_ H]. discriminate. }
  destruct (convert_with_calls m' Hnonempty)
    as (reply & calls & Hconvert & Hapi).
  exists m', reply, calls, (SessionFormat.tool_results (am_parts m')).
  split; [exact Hm' |]. split; [exact Hconvert |].
  intros entry Hin.
  assert (Hpending : tc_state (snd entry) = PENDING).
  { pose proof (parse_all_registered json_loads _ Hreg) as Hall.
    rewrite Hparse in Hall. rewrite Forall_forall in Hall.
    apply Hall. apply in_or_app. right. right. exact Hin. }
  split; [exact (Hfind entry Hin) |]. split; [exact Hpending |]. split.
  - rewrite Hapi, Hids, Hparse, map_app. apply in_or_app. right. right.
    apply in_map. exact Hin.
  - intros content Hresult.
    destruct (tool_results_member _ _ _ Hresult)
      as (tc'' & Hpart & Hid & Hstate).
    assert (Hunique : NoDup (tool_ids (am_parts m'))).
    { rewrite Hids, parse_all_keys. exact Hnodup. }
    pose proof (find_tool_part_unique _ _ Hunique Hpart) as Hfound.
    rewrite Hid, (Hfind entry Hin) in Hfound.
    inversion Hfound; subst. contradiction.
Qed.

Lemma calls_behind_a_refusal_stay_unanswered_witness :
  exists m' reply calls results,
    Session.assistant_at 1
      (snd (Loop.after_stream says_no JsonText.loads bash_only untyped_fails
                              1 rm_then_ls_local step_world))
    = Some m'
    /\ SessionFormat.convert (AssistantMsg m')
       = ApiAssistant reply calls :: results
    /\ forall entry,
        In entry [ls_call] ->
        Session.find_tool_part (fst entry) (am_parts m') = Some (snd entry)
        /\ tc_state (snd entry) = PENDING
        /\ In (fst entry) (map api_id calls)
        /\ forall content, ~ In (ApiTool (fst entry) content) results.
Proof.
  eapply (calls_behind_a_refusal_stay_unanswered
            says_no JsonText.loads bash_only untyped_fails 1
            rm_then_ls_local [] [ls_call] "call_1" rm_call bash_tool
            step_world).
  - repeat constructor; simpl; intuition discriminate.
  - repeat constructor.
  - reflexivity.
  - reflexivity.
  - reflexivity.
  - reflexivity.
  - reflexivity.
  - reflexivity.
  - reflexivity.
  - exact I.
Defined.
